(** * Carousel front end: HTTP client, cache, upload queue and gallery

    A shallow embedding of the client-side pipeline of the Carousel image
    gallery ([frontend/assets/js/api.js], [upload.js], [gallery.js]) and the
    properties established about it.

    Conventions of the embedding.
    - JavaScript numbers that the code only uses as integers (milliseconds,
      HTTP status codes, attempt counters, sizes) are [Z].
    - [Date.now()] is an explicit argument [now]; timers are modelled by an
      explicit clock.
    - The network is an oracle: one reply per call of [fetch].
    - A plain object used as a dictionary (request headers, [localStorage])
      is a [gmap string string]; a JavaScript [Map], whose iteration order
      is observable, is an association list kept in insertion order.
    - An [async] function is a function from the state before to the state
      after together with what the promise settles to. *)

From Stdlib Require Import ZArith List Bool Lia DecimalString.
From stdpp Require Import base option list strings gmap sorting.
Import ListNotations.

Local Open Scope string_scope.
Local Open Scope Z_scope.
Local Open Scope list_scope.

(** ** JavaScript values stored in the cache *)

#[local] Unset Elimination Schemes.
Inductive JsValue : Type :=
| JNull
| JUndefined
| JBool (b : bool)
| JNum (n : Z)
| JStr (s : string)
| JArr (items : list JsValue)
| JObj (fields : list (string * JsValue)).
#[local] Set Elimination Schemes.

(** What [if (v)] tests. *)
Definition truthy (v : JsValue) : bool :=
  match v with
  | JNull | JUndefined => false
  | JBool b => b
  | JNum n => negb (n =? 0)
  | JStr s => negb (String.eqb s EmptyString)
  | JArr _ | JObj _ => true
  end.

(** [s.includes(sub)] and [s.startsWith(p)] *)
Definition includes (s sub : string) : bool :=
  match String.index 0 sub s with
  | Some _ => true
  | None => false
  end.

Definition startsWith (s p : string) : bool := String.prefix p s.

(** A number inside a template literal. *)
Definition show (n : Z) : string := NilZero.string_of_int (Z.to_int n).

(** [String(v)], the conversion a template literal applies. *)
Fixpoint to_string (v : JsValue) : string :=
  match v with
  | JNull => "null"
  | JUndefined => "undefined"
  | JBool true => "true"
  | JBool false => "false"
  | JNum n => show n
  | JStr s => s
  | JArr items =>
      String.concat ","
        (map (fun x => match x with
                       | JNull | JUndefined => EmptyString
                       | _ => to_string x
                       end) items)
  | JObj _ => "[object Object]"
  end.

(** [keys.sort()] on strings: the default order of [sort] compares strings
    character by character, and on distinct keys every sorting method
    yields the same array. *)
Fixpoint sort_insert (k : string) (l : list string) : list string :=
  match l with
  | [] => [k]
  | k' :: l' => if String.leb k k' then k :: l else k' :: sort_insert k l'
  end.

Fixpoint sort_strings (l : list string) : list string :=
  match l with
  | [] => []
  | k :: l' => sort_insert k (sort_strings l')
  end.

Definition string_le (a b : string) : Prop := String.leb a b = true.

(** [v !== null] *)
Definition not_null (v : JsValue) : bool :=
  match v with
  | JNull => false
  | _ => true
  end.

(** ** The JavaScript [Map]: keys in insertion order *)

Module JsMap.
Section JsMap.
Context {V : Type}.

Definition t := list (string * V).

Definition empty : t := [].

Definition size (m : t) : Z := Z.of_nat (length m).

Fixpoint get (m : t) (k : string) : option V :=
  match m with
  | [] => None
  | (k', v) :: m' => if String.eqb k' k then Some v else get m' k
  end.

(** [Map.prototype.set]: a present key keeps its place and takes the new
    value, an absent key goes to the end. *)
Fixpoint set (m : t) (k : string) (v : V) : t :=
  match m with
  | [] => [(k, v)]
  | (k', v') :: m' =>
      if String.eqb k' k then (k, v) :: m' else (k', v') :: set m' k v
  end.

Fixpoint delete (m : t) (k : string) : t :=
  match m with
  | [] => []
  | (k', v') :: m' =>
      if String.eqb k' k then m' else (k', v') :: delete m' k
  end.

(** [m.keys().next().value], [None] standing for [undefined]. *)
Definition first_key (m : t) : option string :=
  match m with
  | [] => None
  | (k, _) :: _ => Some k
  end.

Definition keys (m : t) : list string := map fst m.

End JsMap.
Arguments t : clear implicits.
End JsMap.

(** ** [CacheManager] (api.js) *)

Module CacheManager.

Record Entry : Type := mkEntry {
  value : JsValue;
  timestamp : Z;
  maxAge : Z
}.

(** The constructor assigns [this.maxAge] and [this.maxSize] once and
    nothing writes them again; the state that changes is [this.cache]. *)
Definition default_maxAge : Z := 5 * 60 * 1000.
Definition maxSize : Z := 100.

Definition t := JsMap.t Entry.

Definition new : t := JsMap.empty.

(** [set(key, value, maxAge = this.maxAge)]; [age = None] is the call
    that leaves the third argument out. *)
Definition set (c : t) (now : Z) (key : string) (v : JsValue)
    (age : option Z) : t :=
  let c1 :=
    if JsMap.size c >=? maxSize then
      match JsMap.first_key c with
      | Some firstKey => JsMap.delete c firstKey
      | None => c
      end
    else c in
  JsMap.set c1 key
    {| value := v; timestamp := now; maxAge := default default_maxAge age |}.

Definition expired (now : Z) (item : Entry) : bool :=
  now - timestamp item >? maxAge item.

(** [get(key)]: the cache after the call and the value returned. *)
Definition get (c : t) (now : Z) (key : string) : t * JsValue :=
  match JsMap.get c key with
  | None => (c, JNull)
  | Some item =>
      if expired now item then (JsMap.delete c key, JNull)
      else (c, value item)
  end.

Definition has (c : t) (now : Z) (key : string) : t * bool :=
  let '(c', v) := get c now key in (c', not_null v).

Definition delete (c : t) (key : string) : t := JsMap.delete c key.

Definition clear (c : t) : t := JsMap.empty.

(** [generateKey(endpoint, params = {})]; [params] lists the properties of
    the object in the order [Object.keys] enumerates them. *)
Definition generateKey (endpoint : string) (params : JsMap.t JsValue)
    : string :=
  let sortedParams :=
    String.concat "&"
      (map (fun key =>
              key +:+ "=" +:+ to_string (default JUndefined (JsMap.get params key)))
         (sort_strings (JsMap.keys params))) in
  endpoint +:+ "?" +:+ sortedParams.

End CacheManager.

(** ** Errors, responses, requests *)

Module Response.
Record t : Type := mk {
  status : Z;
  statusText : string;
  contentType : option string;   (* headers.get('content-type') *)
  text : string;                 (* what text() resolves to *)
  json : option JsValue          (* what json() resolves to; None: it rejects *)
}.

(** [response.ok]: the status is in the range 200-299. *)
Definition ok (r : t) : bool := (200 <=? status r) && (status r <=? 299).
End Response.

Module JsError.
(** A thrown error object: [status] is [None] where the property is
    [undefined] (every error but [HttpError]). *)
Record t : Type := mk {
  name : string;
  message : string;
  status : option Z
}.

(** [new HttpError(status, message, response)]; the [response] property,
    which nothing reads, is left out. *)
Definition HttpError (st : Z) (msg : string) : t :=
  {| name := "HttpError"; message := msg; status := Some st |}.

(** [new Error(message)] *)
Definition Error (msg : string) : t :=
  {| name := "Error"; message := msg; status := None |}.

(** What [fetch] rejects with once its signal is aborted. *)
Definition AbortError : t :=
  {| name := "AbortError"; message := "The operation was aborted.";
     status := None |}.

(** What [fetch] rejects with when the network fails. *)
Definition NetworkError : t :=
  {| name := "TypeError"; message := "Failed to fetch"; status := None |}.

(** What [response.json()] rejects with on a body that is not JSON. *)
Definition SyntaxError : t :=
  {| name := "SyntaxError"; message := "Unexpected token in JSON";
     status := None |}.
End JsError.

(** How a call ends: it returns, it throws an error object, or it throws
    [undefined] ([throw lastError] with nothing assigned). *)
Inductive Completion (A : Type) : Type :=
| Return (a : A)
| Throw (e : JsError.t)
| ThrowUndefined.
Arguments Return {A} a.
Arguments Throw {A} e.
Arguments ThrowUndefined {A}.

Abbreviation Headers := (gmap string string).
Abbreviation Storage := (gmap string string).

(** A [FormData] value: a file or a string. *)
Inductive FormValue : Type :=
| FileValue (name type : string) (size : Z)
| TextValue (s : string).

Inductive Body : Type :=
| BodyFormData (entries : list (string * FormValue))
| BodyJson (data : JsValue).         (* JSON.stringify(data) *)

(** The second argument of [post]. *)
Inductive PostData : Type :=
| FormData (entries : list (string * FormValue))
| PlainData (data : JsValue).

(** The [options] argument: a field is [None] where the object has no such
    key. *)
Record Options : Type := mkOptions {
  opt_method : option string;
  opt_headers : option Headers;
  opt_body : option Body
}.

Definition no_options : Options :=
  {| opt_method := None; opt_headers := None; opt_body := None |}.

(** The [config] object handed to [fetch]; [body] is [None] where the
    key is missing or [null]. *)
Record Config : Type := mkConfig {
  method : string;
  headers : Headers;
  body : option Body
}.

(** What the network does with one call of [fetch]. *)
Inductive FetchOutcome : Type :=
| Resolves (r : Response.t)
| Rejects (e : JsError.t).

Record Reply : Type := mkReply {
  latency : Z;
  outcome : FetchOutcome
}.

(** The replies to the successive calls of [fetch] made by one request. *)
Definition Network := nat -> Reply.

(** The states of an upload item. *)
Module Status.
Inductive t : Type := pending | uploading | completed | error.
End Status.

(** What a run does that can be seen from outside, in the order it does
    it: interceptor calls, network calls, waits, the status shown for an
    upload item, the [imageUploaded] event, toasts. *)
Inductive Event : Type :=
| EvRequestInterceptor (i : nat)
| EvFetch (url : string) (cfg : Config)
| EvResponseInterceptor (i : nat) (r : Response.t)
| EvDelay (ms : Z)
| EvStatus (id : string) (st : Status.t) (text : string)
| EvImageUploaded (detail : JsValue)
| EvToast (kind : string) (msg : string).

(** The state a request runs in: [localStorage], the clock, the deadline
    of the pending timeout ([None] once [clearTimeout] ran) and the log of
    what happened. *)
Record Run : Type := mkRun {
  storage : Storage;
  clock : Z;
  timer : option Z;
  log : list Event
}.

Definition emit (ev : Event) (s : Run) : Run :=
  {| storage := storage s; clock := clock s; timer := timer s;
     log := log s ++ [ev] |}.

Definition with_storage (st : Storage) (s : Run) : Run :=
  {| storage := st; clock := clock s; timer := timer s; log := log s |}.

(** [setTimeout(() => controller.abort(), ms)] *)
Definition setTimeout (ms : Z) (s : Run) : Run :=
  {| storage := storage s; clock := clock s;
     timer := Some (clock s + Z.max 0 ms); log := log s |}.

Definition clearTimeout (s : Run) : Run :=
  {| storage := storage s; clock := clock s; timer := None; log := log s |}.

(** [controller.signal.aborted]: the timeout is pending and its deadline
    has passed. *)
Definition aborted (s : Run) : bool :=
  match timer s with
  | Some deadline => deadline <=? clock s
  | None => false
  end.

Definition advance (ms : Z) (s : Run) : Run :=
  {| storage := storage s; clock := clock s + Z.max 0 ms; timer := timer s;
     log := log s |}.

(** [await this.delay(ms)] *)
Definition delay (ms : Z) (s : Run) : Run := advance ms (emit (EvDelay ms) s).

(** [await fetch(url, config)] with [config.signal] the controller's signal:
    the call rejects at once when the signal is aborted already, it rejects
    at the deadline when the reply would not come before it, and otherwise
    settles as the network says. *)
Definition fetch (net : Network) (i : nat) (url : string) (cfg : Config)
    (s : Run) : Run * Completion Response.t :=
  let s := emit (EvFetch url cfg) s in
  if aborted s then (s, Throw JsError.AbortError)
  else
    let reply := net i in
    let arrival := clock s + Z.max 0 (latency reply) in
    match timer s with
    | Some deadline =>
        if deadline <=? arrival then
          (advance (deadline - clock s) s, Throw JsError.AbortError)
        else
          (advance (latency reply) s,
           match outcome reply with
           | Resolves r => Return r
           | Rejects e => Throw e
           end)
    | None =>
        (advance (latency reply) s,
         match outcome reply with
         | Resolves r => Return r
         | Rejects e => Throw e
         end)
    end.

(** The state-and-completion monad of the [async] methods. *)
Definition Async (A : Type) : Type := Run -> Run * Completion A.

Definition ret {A} (a : A) : Async A := fun s => (s, Return a).

Definition throw {A} (e : JsError.t) : Async A := fun s => (s, Throw e).

Definition bind {A B} (m : Async A) (k : A -> Async B) : Async B :=
  fun s =>
    match m s with
    | (s', Return a) => k a s'
    | (s', Throw e) => (s', Throw e)
    | (s', ThrowUndefined) => (s', ThrowUndefined)
    end.

Notation "'let*' x ':=' m 'in' k" := (bind m (fun x => k))
  (at level 10, x name, m at level 100, k at level 200).

(** An interceptor reads and writes [localStorage] and may throw; a request
    interceptor also edits the [config] it is given. *)
Definition RequestInterceptor : Type :=
  Config -> Storage -> Storage * Completion Config.
Definition ResponseInterceptor : Type :=
  Response.t -> Storage -> Storage * Completion unit.

(** ** [HttpClient] (api.js) *)

Module API_CONFIG.
Definition baseURL : string := "http://localhost:5001".
Definition timeout : Z := 30000.
Definition retryAttempts : Z := 3.
Definition retryDelay : Z := 1000.
Definition endpoints_delete : string := "/api/images".
Definition endpoints_auth : string := "/api/auth".
End API_CONFIG.

Module HttpClient.

Record t : Type := mk {
  baseURL : string;
  timeout : Z;
  retryAttempts : Z;
  retryDelay : Z;
  defaultHeaders : Headers;
  request_interceptors : list RequestInterceptor;
  response_interceptors : list ResponseInterceptor
}.

(** The constructor's [config] argument. *)
Record Settings : Type := mkSettings {
  set_baseURL : option string;
  set_timeout : option Z;
  set_retryAttempts : option Z;
  set_retryDelay : option Z;
  set_headers : option Headers
}.

Definition no_settings : Settings :=
  mkSettings None None None None None.

(** [x || d] on a string and on a number. *)
Definition or_string (x : option string) (d : string) : string :=
  match x with
  | Some v => if String.eqb v EmptyString then d else v
  | None => d
  end.

Definition or_number (x : option Z) (d : Z) : Z :=
  match x with
  | Some v => if v =? 0 then d else v
  | None => d
  end.

Definition new (config : Settings) : t :=
  {| baseURL := or_string (set_baseURL config) API_CONFIG.baseURL;
     timeout := or_number (set_timeout config) API_CONFIG.timeout;
     retryAttempts :=
       or_number (set_retryAttempts config) API_CONFIG.retryAttempts;
     retryDelay := or_number (set_retryDelay config) API_CONFIG.retryDelay;
     defaultHeaders :=
       default ∅ (set_headers config)
         ∪ {[ "Content-Type" := "application/json" ]};
     request_interceptors := [];
     response_interceptors := [] |}.

Definition addRequestInterceptor (c : t) (f : RequestInterceptor) : t :=
  {| baseURL := baseURL c; timeout := timeout c;
     retryAttempts := retryAttempts c; retryDelay := retryDelay c;
     defaultHeaders := defaultHeaders c;
     request_interceptors := request_interceptors c ++ [f];
     response_interceptors := response_interceptors c |}.

Definition addResponseInterceptor (c : t) (f : ResponseInterceptor) : t :=
  {| baseURL := baseURL c; timeout := timeout c;
     retryAttempts := retryAttempts c; retryDelay := retryDelay c;
     defaultHeaders := defaultHeaders c;
     request_interceptors := request_interceptors c;
     response_interceptors := response_interceptors c ++ [f] |}.

(** [for (const interceptor of this.interceptors.request)
      await interceptor(config)], [i] counting the interceptors run. *)
Fixpoint apply_request_interceptors (fs : list RequestInterceptor)
    (i : nat) (config : Config) : Async Config :=
  fun s =>
    match fs with
    | [] => (s, Return config)
    | f :: fs' =>
        let s := emit (EvRequestInterceptor i) s in
        match f config (storage s) with
        | (st, Return config') =>
            apply_request_interceptors fs' (S i) config' (with_storage st s)
        | (st, Throw e) => (with_storage st s, Throw e)
        | (st, ThrowUndefined) => (with_storage st s, ThrowUndefined)
        end
    end.

(** [for (const interceptor of this.interceptors.response)
      await interceptor(response)] *)
Fixpoint apply_response_interceptors (fs : list ResponseInterceptor)
    (i : nat) (response : Response.t) : Async unit :=
  fun s =>
    match fs with
    | [] => (s, Return tt)
    | f :: fs' =>
        let s := emit (EvResponseInterceptor i response) s in
        match f response (storage s) with
        | (st, Return _) =>
            apply_response_interceptors fs' (S i) response (with_storage st s)
        | (st, Throw e) => (with_storage st s, Throw e)
        | (st, ThrowUndefined) => (with_storage st s, ThrowUndefined)
        end
    end.

(** The body of the [try] block of one turn of the retry loop. *)
Definition attempt_once (c : t) (net : Network) (fullURL : string)
    (config : Config) (attempt : nat) : Async Response.t :=
  let* response := fetch net attempt fullURL config in
  fun s =>
    (let* done :=
       apply_response_interceptors (response_interceptors c) 0 response in
     if negb (Response.ok response) then
       throw (JsError.HttpError (Response.status response)
                (Response.statusText response))
     else ret response) (clearTimeout s).

(** [error.name === 'AbortError' ||
     (error.status >= 400 && error.status < 500)] *)
Definition no_retry (error : JsError.t) : bool :=
  String.eqb (JsError.name error) "AbortError"
  || match JsError.status error with
     | Some st => (400 <=? st) && (st <? 500)
     | None => false
     end.

(** [throw lastError] *)
Definition throw_last {A} (lastError : option JsError.t) : Completion A :=
  match lastError with
  | Some e => Throw e
  | None => ThrowUndefined
  end.

(** The retry loop
    [for (let attempt = 0; attempt <= this.retryAttempts; attempt++)]
    with [remaining] the number of turns still allowed, followed by
    [clearTimeout(timeoutId); throw lastError]. *)
Fixpoint retry_loop (c : t) (net : Network) (fullURL : string)
    (config : Config) (remaining : nat) (attempt : nat)
    (lastError : option JsError.t) : Async Response.t :=
  fun s =>
    match remaining with
    | O => (clearTimeout s, throw_last lastError)
    | S remaining' =>
        match attempt_once c net fullURL config attempt s with
        | (s1, Return response) => (s1, Return response)
        | (s1, Throw error) =>
            if no_retry error then (clearTimeout s1, Throw error)
            else
              let s2 :=
                if Z.of_nat attempt <? retryAttempts c
                then delay (retryDelay c * 2 ^ Z.of_nat attempt) s1
                else s1 in
              retry_loop c net fullURL config remaining' (S attempt)
                (Some error) s2
        | (s1, ThrowUndefined) =>
            (* reading [error.name] of [undefined] throws inside [catch] *)
            (s1, Throw {| JsError.name := "TypeError";
                          JsError.message :=
                            "Cannot read properties of undefined";
                          JsError.status := None |})
        end
    end.

Definition request (c : t) (net : Network) (url : string)
    (options : Options) : Async Response.t :=
  let config :=
    {| method := default "GET" (opt_method options);
       headers := default (defaultHeaders c) (opt_headers options);
       body := opt_body options |} in
  let* config :=
    apply_request_interceptors (request_interceptors c) 0 config in
  let fullURL := if startsWith url "http" then url else baseURL c +:+ url in
  fun s =>
    retry_loop c net fullURL config (Z.to_nat (retryAttempts c + 1)) 0 None
      (setTimeout (timeout c) s).

Definition parseResponse (response : Response.t) : Async JsValue :=
  match Response.contentType response with
  | Some contentType =>
      if includes contentType "application/json" then
        match Response.json response with
        | Some v => ret v
        | None => throw JsError.SyntaxError
        end
      else ret (JStr (Response.text response))
  | None => ret (JStr (Response.text response))
  end.

(** [post(url, data = null, options = {})]; [data = None] is [null]. *)
Definition post (c : t) (net : Network) (url : string)
    (data : option PostData) (options : Options) : Async JsValue :=
  let config :=
    {| opt_method := Some (default "POST" (opt_method options));
       opt_headers := opt_headers options;
       opt_body := opt_body options |} in
  let config :=
    match data with
    | Some (FormData entries) =>
        {| opt_method := opt_method config;
           opt_headers := delete "Content-Type" <$> opt_headers config;
           opt_body := Some (BodyFormData entries) |}
    | Some (PlainData d) =>
        if truthy d then
          {| opt_method := opt_method config;
             opt_headers := opt_headers config;
             opt_body := Some (BodyJson d) |}
        else config
    | None => config
    end in
  let* response := request c net url config in
  parseResponse response.

Definition delete (c : t) (net : Network) (url : string) : Async JsValue :=
  let* response :=
    request c net url
      {| opt_method := Some "DELETE"; opt_headers := None;
         opt_body := None |} in
  parseResponse response.

End HttpClient.

(** ** [ApiService] (api.js) *)

Module ApiService.

Definition token_key : string := "carousel-auth-token".

Definition getAuthToken (st : Storage) : option string := st !! token_key.

Definition setAuthToken (token : string) (st : Storage) : Storage :=
  <[ token_key := token ]> st.

Definition removeAuthToken (st : Storage) : Storage := delete token_key st.

Definition handleUnauthorized (st : Storage) : Storage := removeAuthToken st.

(** The request interceptor of [setupInterceptors]. *)
Definition auth_interceptor : RequestInterceptor :=
  fun config st =>
    match getAuthToken st with
    | Some token =>
        if String.eqb token EmptyString then (st, Return config)
        else
          (st, Return {| method := method config;
                         headers := <[ "Authorization" := "Bearer " +:+ token ]>
                                      (headers config);
                         body := body config |})
    | None => (st, Return config)
    end.

(** The response interceptor of [setupInterceptors]. *)
Definition unauthorized_interceptor : ResponseInterceptor :=
  fun response st =>
    if Response.status response =? 401 then (handleUnauthorized st, Return tt)
    else (st, Return tt).

Record t : Type := mk { client : HttpClient.t }.

Definition new : t :=
  {| client :=
       HttpClient.addResponseInterceptor
         (HttpClient.addRequestInterceptor
            (HttpClient.new HttpClient.no_settings) auth_interceptor)
         unauthorized_interceptor |}.

(** [deleteImage(imageId)]: the [catch] logs and throws again. *)
Definition deleteImage (api : t) (net : Network) (imageId : string)
    : Async JsValue :=
  HttpClient.delete (client api) net
    (API_CONFIG.endpoints_delete +:+ "/" +:+ imageId).

(** [response.token]: reading a property of what [post] returned; [null]
    has no properties and the read throws. *)
Definition get_property (v : JsValue) (name : string) : Completion JsValue :=
  match v with
  | JNull | JUndefined =>
      Throw {| JsError.name := "TypeError";
               JsError.message := "Cannot read properties of null";
               JsError.status := None |}
  | JObj fields => Return (default JUndefined (JsMap.get fields name))
  | _ => Return JUndefined
  end.

(** [login(credentials)]: the [catch] logs and throws again. *)
Definition login (api : t) (net : Network) (credentials : JsValue)
    : Async JsValue :=
  let* response :=
    HttpClient.post (client api) net (API_CONFIG.endpoints_auth +:+ "/login")
      (Some (PlainData credentials)) no_options in
  fun s =>
    match get_property response "token" with
    | Return token =>
        if truthy token
        then (with_storage (setAuthToken (to_string token) (storage s)) s,
              Return response)
        else (s, Return response)
    | Throw e => (s, Throw e)
    | ThrowUndefined => (s, ThrowUndefined)
    end.

(** [logout()]: [try { await post } catch { log } finally { remove }]. *)
Definition logout (api : t) (net : Network) : Async unit :=
  fun s =>
    let '(s1, _) :=
      HttpClient.post (client api) net
        (API_CONFIG.endpoints_auth +:+ "/logout") None no_options s in
    (with_storage (removeAuthToken (storage s1)) s1, Return tt).

(** [array.slice(start, end)]: a negative index counts from the end. *)
Definition slice {A} (l : list A) (start end_ : Z) : list A :=
  let len := Z.of_nat (length l) in
  let k := if start <? 0 then Z.max (len + start) 0 else Z.min start len in
  let final :=
    if end_ <? 0 then Z.max (len + end_) 0 else Z.min end_ len in
  take (Z.to_nat (final - k)) (drop (Z.to_nat k) l).

(** The array [mockImages] of [getMockImageData]; [now] is [Date.now()],
    and a date is the time it stands for. *)
Definition mockImages (now : Z) : list JsValue :=
  [ JObj [ ("id", JStr "1");
           ("url", JStr "https://picsum.photos/400/400?random=1");
           ("thumbnail", JStr "https://picsum.photos/200/200?random=1");
           ("title", JStr "Beautiful Landscape");
           ("description",
            JStr "A stunning mountain view captured during golden hour");
           ("tags", JArr [JStr "nature"; JStr "mountains";
                          JStr "landscape"; JStr "golden hour"]);
           ("uploadDate", JNum (now - 86400000));
           ("size", JNum 234567);
           ("filename", JStr "landscape.jpg");
           ("likes", JNum 45);
           ("views", JNum 234) ];
    JObj [ ("id", JStr "2");
           ("url", JStr "https://picsum.photos/400/500?random=2");
           ("thumbnail", JStr "https://picsum.photos/200/250?random=2");
           ("title", JStr "Modern Architecture");
           ("description",
            JStr "Contemporary building design with clean lines");
           ("tags", JArr [JStr "architecture"; JStr "modern";
                          JStr "building"; JStr "design"]);
           ("uploadDate", JNum (now - 172800000));
           ("size", JNum 345678);
           ("filename", JStr "architecture.jpg");
           ("likes", JNum 32);
           ("views", JNum 156) ];
    JObj [ ("id", JStr "3");
           ("url", JStr "https://picsum.photos/400/300?random=3");
           ("thumbnail", JStr "https://picsum.photos/200/150?random=3");
           ("title", JStr "Abstract Composition");
           ("description", JStr "Vibrant colors and geometric shapes");
           ("tags", JArr [JStr "abstract"; JStr "art"; JStr "colorful";
                          JStr "geometric"]);
           ("uploadDate", JNum (now - 259200000));
           ("size", JNum 198765);
           ("filename", JStr "abstract.jpg");
           ("likes", JNum 67);
           ("views", JNum 289) ];
    JObj [ ("id", JStr "4");
           ("url", JStr "https://picsum.photos/400/450?random=4");
           ("thumbnail", JStr "https://picsum.photos/200/225?random=4");
           ("title", JStr "Street Photography");
           ("description", JStr "Urban life captured in black and white");
           ("tags", JArr [JStr "street"; JStr "urban";
                          JStr "black and white"; JStr "photography"]);
           ("uploadDate", JNum (now - 345600000));
           ("size", JNum 276543);
           ("filename", JStr "street.jpg");
           ("likes", JNum 23);
           ("views", JNum 98) ];
    JObj [ ("id", JStr "5");
           ("url", JStr "https://picsum.photos/400/350?random=5");
           ("thumbnail", JStr "https://picsum.photos/200/175?random=5");
           ("title", JStr "Nature Close-up");
           ("description",
            JStr "Macro photography of morning dew on leaves");
           ("tags", JArr [JStr "nature"; JStr "macro"; JStr "dew";
                          JStr "leaves"]);
           ("uploadDate", JNum (now - 432000000));
           ("size", JNum 156789);
           ("filename", JStr "macro.jpg");
           ("likes", JNum 89);
           ("views", JNum 456) ] ].

(** [Math.ceil(n / d)] for whole numbers, [d] not zero. *)
Definition ceil_div (n d : Z) : Z := - ((- n) / d).

(** [getMockImageData(params = {})]; [page] and [limit] are the two
    properties of [params] it reads, [None] where [params] has none. *)
Definition getMockImageData (now : Z) (page limit : option Z) : JsValue :=
  let mockImages := mockImages now in
  let page := HttpClient.or_number page 1 in
  let limit := HttpClient.or_number limit 20 in
  let start := (page - 1) * limit in
  let end_ := start + limit in
  JObj [ ("images", JArr (slice mockImages start end_));
         ("total", JNum (Z.of_nat (length mockImages)));
         ("page", JNum page);
         ("totalPages",
          JNum (ceil_div (Z.of_nat (length mockImages)) limit));
         ("hasMore", JBool (end_ <? Z.of_nat (length mockImages))) ].

End ApiService.

(** [const API_BASE_URL] of the page scripts. *)
Definition API_BASE_URL : string := "http://localhost:5001".

(** [fetch(url, config)] of the page scripts: no abort signal is passed, so
    the call settles as the network says. *)
Definition plain_fetch (reply : Reply) (url : string) (cfg : Config)
    : Async Response.t :=
  fun s =>
    (advance (latency reply) (emit (EvFetch url cfg) s),
     match outcome reply with
     | Resolves r => Return r
     | Rejects e => Throw e
     end).

(** ** [UploadManager] (upload.js) *)

Module UploadManager.

Record File : Type := mkFile {
  file_name : string;
  file_type : string;
  file_size : Z
}.

Record Metadata : Type := mkMetadata {
  title : string;
  description : string;
  tags : list string
}.

Record UploadItem : Type := mkItem {
  id : string;
  file : File;
  preview : option string;
  status : Status.t;
  progress : Z;
  error : option string;
  metadata : Metadata
}.

Record t : Type := mk {
  uploadQueue : list UploadItem;
  isUploading : bool
}.

Definition maxFileSize : Z := 10 * 1024 * 1024.

Definition allowedTypes : list string :=
  ["image/jpeg"; "image/jpg"; "image/png"; "image/gif"; "image/webp"].

(** [validateFile(file).valid] *)
Definition validateFile (f : File) : bool :=
  if negb (existsb (String.eqb (file_type f)) allowedTypes) then false
  else if file_size f >? maxFileSize then false
  else true.

Definition set_status (it : UploadItem) (st : Status.t) : UploadItem :=
  {| id := id it; file := file it; preview := preview it; status := st;
     progress := progress it; error := error it; metadata := metadata it |}.

Definition set_progress (it : UploadItem) (p : Z) : UploadItem :=
  {| id := id it; file := file it; preview := preview it;
     status := status it; progress := p; error := error it;
     metadata := metadata it |}.

Definition set_error (it : UploadItem) (msg : string) : UploadItem :=
  {| id := id it; file := file it; preview := preview it;
     status := status it; progress := progress it; error := Some msg;
     metadata := metadata it |}.

(** [getStatusText(status, error)]; [error || 'Upload failed'] takes the
    default also for the empty message. *)
Definition getStatusText (st : Status.t) (err : option string) : string :=
  match st with
  | Status.pending => "Ready to upload"
  | Status.uploading => "Uploading..."
  | Status.completed => "Upload complete"
  | Status.error =>
      match err with
      | Some msg => if String.eqb msg EmptyString then "Upload failed" else msg
      | None => "Upload failed"
      end
  end.

(** [updateUploadItemStatus(uploadItem)]: the status element of the item
    shows the status and its text. *)
Definition updateUploadItemStatus (it : UploadItem) (s : Run) : Run :=
  emit (EvStatus (id it) (status it) (getStatusText (status it) (error it)))
    s.

(** [JSON.stringify] of an array of strings (characters that need
    escaping left as they are). *)
Definition quote : string := String (Ascii.ascii_of_nat 34) EmptyString.

Definition stringify_tags (ts : list string) : string :=
  "[" +:+ String.concat "," (map (fun t => quote +:+ t +:+ quote) ts)
  +:+ "]".

Definition formData (it : UploadItem) : list (string * FormValue) :=
  [ ("image", FileValue (file_name (file it)) (file_type (file it))
                (file_size (file it)));
    ("title", TextValue (title (metadata it)));
    ("description", TextValue (description (metadata it)));
    ("tags", TextValue (stringify_tags (tags (metadata it)))) ].

(** The simulated progress [for (let i = 0; i <= 100; i += 10)]. *)
Definition progress_steps : list Z :=
  [0; 10; 20; 30; 40; 50; 60; 70; 80; 90; 100].

Fixpoint simulate (steps : list Z) (it : UploadItem) (s : Run)
    : Run * UploadItem :=
  match steps with
  | [] => (s, it)
  | i :: steps' => simulate steps' (set_progress it i) (delay 100 s)
  end.

Definition or_else (a b : string) : string :=
  if String.eqb a EmptyString then b else a.

Definition mockResult (mockId : string) (now : Z) (it : UploadItem)
    : JsValue :=
  JObj [ ("id", JStr mockId);
         ("url", match preview it with Some p => JStr p | None => JNull end);
         ("title", JStr (or_else (title (metadata it))
                           (file_name (file it))));
         ("description", JStr (description (metadata it)));
         ("tags", JArr (map JStr (tags (metadata it))));
         ("uploadDate", JNum now);
         ("size", JNum (file_size (file it)));
         ("filename", JStr (file_name (file it))) ].

(** [uploadFile(uploadItem)]: the item is changed in place, so the call
    yields the item as it is afterwards, also when it throws. [mockId] is
    what [generateId()] draws for the simulated record. *)
Definition uploadFile (mockId : string) (reply : Reply) (it : UploadItem)
    (s : Run) : Run * UploadItem * Completion JsValue :=
  let it := set_status it Status.uploading in
  let s := updateUploadItemStatus it s in
  let config :=
    {| method := "POST"; headers := ∅;
       body := Some (BodyFormData (formData it)) |} in
  let '(s, fetched) :=
    plain_fetch reply (API_BASE_URL +:+ "/api/upload") config s in
  let tried : Completion JsValue :=
    match fetched with
    | Return response =>
        if negb (Response.ok response) then
          Throw (JsError.Error
                   ("Upload failed: " +:+ Response.statusText response))
        else
          match Response.json response with
          | Some result => Return result
          | None => Throw JsError.SyntaxError
          end
    | Throw e => Throw e
    | ThrowUndefined => ThrowUndefined
    end in
  match tried with
  | Return result =>
      let it := set_progress (set_status it Status.completed) 100 in
      let s := updateUploadItemStatus it s in
      (emit (EvImageUploaded result) s, it, Return result)
  | Throw e =>
      if includes (JsError.message e) "fetch" then
        let '(s, it) := simulate progress_steps it s in
        let it := set_status it Status.completed in
        let s := updateUploadItemStatus it s in
        let result := mockResult mockId (clock s) it in
        (emit (EvImageUploaded result) s, it, Return result)
      else (s, it, Throw e)
  | ThrowUndefined =>
      (* reading [error.message] of [undefined] throws inside [catch] *)
      (s, it, Throw {| JsError.name := "TypeError";
                       JsError.message :=
                         "Cannot read properties of undefined";
                       JsError.status := None |})
  end.

(** The loop [for (const uploadItem of this.uploadQueue)] of
    [startUpload]: the items are visited in queue order, each changed in
    place, [i] being the position in the queue and [counts] the pair
    [(completedFiles, failedFiles)]. *)
Fixpoint upload_each (generateId : nat -> string) (net : Network)
    (i : nat) (items : list UploadItem) (counts : Z * Z) (s : Run)
    : Run * list UploadItem * (Z * Z) :=
  match items with
  | [] => (s, [], counts)
  | it :: rest =>
      match uploadFile (generateId i) (net i) it s with
      | (s1, it1, Return _) =>
          let '(s2, rest', counts') :=
            upload_each generateId net (S i) rest
              (fst counts + 1, snd counts) s1 in
          (s2, it1 :: rest', counts')
      | (s1, it1, Throw e) =>
          let it2 := set_error (set_status it1 Status.error)
                       (JsError.message e) in
          let s1 := updateUploadItemStatus it2 s1 in
          let '(s2, rest', counts') :=
            upload_each generateId net (S i) rest
              (fst counts, snd counts + 1) s1 in
          (s2, it2 :: rest', counts')
      | (s1, it1, ThrowUndefined) =>
          (* [uploadFile] never throws [undefined] *)
          (s1, it1 :: rest, counts)
      end
  end.

(** [startUpload()], up to the point where its promise resolves; the
    purge of the completed items is left to a timer two seconds later
    ([clearCompletedUploads]). *)
Definition startUpload (generateId : nat -> string) (net : Network)
    (m : t) (s : Run) : Run * t :=
  if isUploading m || (length (uploadQueue m) =? 0)%nat then (s, m)
  else
    let '(s, queue, (completedFiles, failedFiles)) :=
      upload_each generateId net 0 (uploadQueue m) (0, 0) s in
    let s :=
      if failedFiles =? 0
      then emit (EvToast "success"
                   ("Successfully uploaded " +:+ show completedFiles
                    +:+ " file(s)!")) s
      else emit (EvToast "warning"
                   ("Uploaded " +:+ show completedFiles +:+ " file(s), "
                    +:+ show failedFiles +:+ " failed.")) s in
    (s, {| uploadQueue := queue; isUploading := false |}).

Definition is_completed (it : UploadItem) : bool :=
  match status it with
  | Status.completed => true
  | _ => false
  end.

Definition clearCompletedUploads (m : t) : t :=
  {| uploadQueue :=
       List.filter (fun it => negb (is_completed it)) (uploadQueue m);
     isUploading := isUploading m |}.

(** [validateFile(file).error], [None] for a valid file. The size message
    embeds [formatFileSize(this.maxFileSize)], which is ["10 MB"]. *)
Definition validateFile_error (f : File) : option string :=
  if negb (existsb (String.eqb (file_type f)) allowedTypes) then
    Some "File type not supported. Please use JPEG, PNG, GIF, or WebP."
  else if file_size f >? maxFileSize then
    Some "File too large. Maximum size is 10 MB."
  else None.

(** The item [queueFiles] builds for a file. *)
Definition new_item (newId : string) (f : File) (preview : option string)
    : UploadItem :=
  {| id := newId; file := f; preview := preview; status := Status.pending;
     progress := 0; error := None;
     metadata := {| title := EmptyString; description := EmptyString;
                    tags := [] |} |}.

Definition set_preview (it : UploadItem) (p : option string) : UploadItem :=
  {| id := id it; file := file it; preview := p; status := status it;
     progress := progress it; error := error it; metadata := metadata it |}.

(** A call of [queueFiles] that waits for a preview: the item it has built
    for the file being read, and the files its loop has yet to come to. *)
Record Waiting : Type := mkWaiting {
  item : UploadItem;
  remaining : list File
}.

(** [queueFiles(files)] is [async]: it runs up to its first [await], where
    it has built the item of the first file, with the id [newId] that
    [generateId()] draws and no preview yet, and waits for
    [createImagePreview(file)].  With no file the loop is over at once
    ([None]) and no id is drawn. *)
Definition queueFiles (newId : string) (files : list File)
    : option Waiting :=
  match files with
  | [] => None
  | f :: rest => Some {| item := new_item newId f None; remaining := rest |}
  end.

(** The call goes on once the preview it waits for has settled, [preview]
    being [None] where it could not be made (the error is caught): the item
    is pushed and the loop goes round, to wait for the preview of the next
    file or to end; [newId] is the id drawn for the next file. *)
Definition queueFiles_resume (newId : string) (preview : option string)
    (w : Waiting) (queue : list UploadItem)
    : list UploadItem * option Waiting :=
  (queue ++ [set_preview (item w) preview], queueFiles newId (remaining w)).

Definition newline : string := String (Ascii.ascii_of_nat 10) EmptyString.

(** The lines of the rejection toast: [`${file.name}: ${validation.error}`]
    for each file that does not pass. *)
Fixpoint rejections (files : list File) : list string :=
  match files with
  | [] => []
  | f :: files' =>
      match validateFile_error f with
      | Some msg => (file_name f +:+ ": " +:+ msg) :: rejections files'
      | None => rejections files'
      end
  end.

(** [handleFiles(files)]: it starts [queueFiles] on the valid files
    without waiting for it, so it returns the call it has left waiting and
    does not touch the queue itself. *)
Definition handleFiles (newId : string) (files : list File) (s : Run)
    : Run * option Waiting :=
  let validFiles := List.filter validateFile files in
  let errors := rejections files in
  let s :=
    match errors with
    | [] => s
    | _ => emit (EvToast "error"
                   ("Some files were rejected:" +:+ newline
                    +:+ String.concat newline errors)) s
    end in
  match validFiles with
  | [] => (s, None)
  | _ => (s, queueFiles newId validFiles)
  end.

(** [removeUploadItem(uploadId)], as far as the queue goes. *)
Definition removeUploadItem (uploadId : string) (m : t) : t :=
  {| uploadQueue :=
       List.filter (fun it => negb (String.eqb (id it) uploadId))
         (uploadQueue m);
     isUploading := isUploading m |}.

(** [clearAllUploads()]: the last statement calls [toast.info], a method
    the toast manager does not have ([show], [success], [error] and
    [warning] are all it defines), so the call throws there, after the
    queue has been emptied. *)
Definition clearAllUploads (m : t) (s : Run) : Run * t * Completion unit :=
  if isUploading m then
    (emit (EvToast "warning"
             "Cannot clear uploads while uploading is in progress.") s, m,
     Return tt)
  else
    (s, {| uploadQueue := []; isUploading := isUploading m |},
     Throw {| JsError.name := "TypeError";
              JsError.message := "toast.info is not a function";
              JsError.status := None |}).

End UploadManager.

(** ** [GalleryManager] (gallery.js) *)

Module GalleryManager.

Record ImageRecord : Type := mkImage {
  id : string;
  url : string;
  title : string;
  description : string;
  tags : list string;
  uploadDate : Z;
  size : Z;
  filename : string
}.

Record t : Type := mk {
  images : list ImageRecord;
  filteredImages : list ImageRecord
}.

(** [list.filter((img) => img.id !== image.id)] *)
Definition without (image : ImageRecord) (l : list ImageRecord)
    : list ImageRecord :=
  List.filter (fun img => negb (String.eqb (id img) (id image))) l.

(** The selector [`[data-image-id="${id}"]`] by which the card of an image
    is looked up. *)
Definition card_selector (id : string) : string :=
  "[data-image-id=" +:+ String (Ascii.ascii_of_nat 34) EmptyString +:+ id
  +:+ String (Ascii.ascii_of_nat 34) EmptyString +:+ "]".

(** A letter, a digit, [-] or [_]: a character that stands for itself in a
    quoted string of a selector and cannot end it. *)
Definition plain_char (c : Ascii.ascii) : bool :=
  let n := Ascii.nat_of_ascii c in
  ((48 <=? n) && (n <=? 57) || (65 <=? n) && (n <=? 90)
   || (97 <=? n) && (n <=? 122) || (n =? 45) || (n =? 95))%nat.

Fixpoint plain (s : string) : bool :=
  match s with
  | EmptyString => true
  | String c s' => plain_char c && plain s'
  end.

(** Whether [querySelector] takes the selector of the card of [id]; it
    throws a [SyntaxError] otherwise.  For an id of plain characters the
    selector is a well-formed attribute selector and is taken; about any
    other id the CSS parser of the platform, [css], decides. *)
Definition selector_ok (css : string -> bool) (id : string) : bool :=
  plain id || css (card_selector id).

(** [deleteImage(image)]; [confirmed] is the answer to [confirm(...)].
    After a success status the lists are changed first and the card is
    looked up next; where that look-up throws, the [catch] reports a
    failure although the lists have changed.  The method catches every
    error, so it always returns. *)
Definition deleteImage (css : string -> bool) (g : t) (image : ImageRecord)
    (confirmed : bool) (reply : Reply) (s : Run) : Run * t :=
  if negb confirmed then (s, g)
  else
    let '(s, fetched) :=
      plain_fetch reply (API_BASE_URL +:+ "/api/pins/" +:+ id image)
        {| method := "DELETE"; headers := ∅; body := None |} s in
    match fetched with
    | Return response =>
        if Response.ok response then
          let g :=
            {| images := without image (images g);
               filteredImages := without image (filteredImages g) |} in
          if selector_ok css (id image) then
            (emit (EvToast "success" "Image deleted successfully!") s, g)
          else (emit (EvToast "error" "Failed to delete image") s, g)
        else (emit (EvToast "error" "Failed to delete image") s, g)
    | _ => (emit (EvToast "error" "Failed to delete image") s, g)
    end.

(** [array.sort(compareFn)]: the sort is stable, so for a comparator that
    orders the elements consistently the result is that of inserting each
    element in front of the first later element it does not come after. *)
Fixpoint sort_insert_by {A} (compareFn : A -> A -> Z) (x : A) (l : list A)
    : list A :=
  match l with
  | [] => [x]
  | y :: l' =>
      if compareFn x y <=? 0 then x :: l
      else y :: sort_insert_by compareFn x l'
  end.

Definition Array_sort {A} (compareFn : A -> A -> Z) (l : list A) : list A :=
  foldr (sort_insert_by compareFn) [] l.

(** [a || b] on strings. *)
Definition or_str (a b : string) : string :=
  if String.eqb a EmptyString then b else a.

Section Platform.
(** [String.prototype.toLowerCase], which the platform provides. *)
Variable toLowerCase : string -> string.

(** How [aVal] stands to [bVal], for the values the [switch] on
    [this.sortBy] picks: the lower-cased title (or file name), the size, or
    the upload date; strings compare character by character, numbers and
    dates by value. *)
Definition compare_by (sortBy : string) (a b : ImageRecord) : comparison :=
  if String.eqb sortBy "name" then
    String.compare (toLowerCase (or_str (title a) (filename a)))
      (toLowerCase (or_str (title b) (filename b)))
  else if String.eqb sortBy "size" then Z.compare (size a) (size b)
  else Z.compare (uploadDate a) (uploadDate b).

(** The comparator [sortImages] hands to [sort]. *)
Definition comparator (sortBy sortOrder : string) (a b : ImageRecord) : Z :=
  match compare_by sortBy a b with
  | Lt => if String.eqb sortOrder "asc" then -1 else 1
  | Gt => if String.eqb sortOrder "asc" then 1 else -1
  | Eq => 0
  end.

(** [sortImages()], [sortBy] and [sortOrder] being the fields it reads. *)
Definition sortImages (sortBy sortOrder : string) (g : t) : t :=
  {| images := images g;
     filteredImages :=
       Array_sort (comparator sortBy sortOrder) (filteredImages g) |}.

(** The test of [filterImages]; a field that is empty is skipped. *)
Definition matches (lowerQuery : string) (image : ImageRecord) : bool :=
  (negb (String.eqb (title image) EmptyString)
   && includes (toLowerCase (title image)) lowerQuery)
  || (negb (String.eqb (description image) EmptyString)
      && includes (toLowerCase (description image)) lowerQuery)
  || existsb (fun tag => includes (toLowerCase tag) lowerQuery) (tags image)
  || (negb (String.eqb (filename image) EmptyString)
      && includes (toLowerCase (filename image)) lowerQuery).

(** [filterImages(query)] *)
Definition filterImages (query : string) (g : t) : t :=
  if String.eqb query EmptyString then
    {| images := images g; filteredImages := images g |}
  else
    {| images := images g;
       filteredImages :=
         List.filter (matches (toLowerCase query)) (images g) |}.

(** [addImage(imageData)], as far as the two lists go. *)
Definition addImage (sortBy sortOrder : string) (imageData : ImageRecord)
    (g : t) : t :=
  sortImages sortBy sortOrder
    {| images := imageData :: images g;
       filteredImages := imageData :: images g |}.

(** The fields of the manager that loading reads and writes, next to the
    two lists; [galleryGrid] tells whether the page has the grid
    element. *)
Record View : Type := mkView {
  lists : t;
  galleryGrid : bool;
  currentPage : Z;
  itemsPerPage : Z;
  isLoading : bool;
  sortBy : string;
  sortOrder : string
}.

Definition set_lists (l : t) (v : View) : View :=
  {| lists := l; galleryGrid := galleryGrid v;
     currentPage := currentPage v;
     itemsPerPage := itemsPerPage v; isLoading := isLoading v;
     sortBy := sortBy v; sortOrder := sortOrder v |}.

Definition set_isLoading (b : bool) (v : View) : View :=
  {| lists := lists v; galleryGrid := galleryGrid v;
     currentPage := currentPage v;
     itemsPerPage := itemsPerPage v; isLoading := b;
     sortBy := sortBy v; sortOrder := sortOrder v |}.

Definition set_currentPage (n : Z) (v : View) : View :=
  {| lists := lists v; galleryGrid := galleryGrid v;
     currentPage := n;
     itemsPerPage := itemsPerPage v; isLoading := isLoading v;
     sortBy := sortBy v; sortOrder := sortOrder v |}.

(** The CSS parser of the platform: whether it takes a selector. *)
Variable css : string -> bool.

(** [displayImages()], as far as it can fail: without the grid element it
    returns at once; otherwise it looks up the card of each displayed
    image in turn, and [querySelector] throws on the first id whose
    selector it does not take. *)
Definition displayImages (v : View) : Completion unit :=
  if negb (galleryGrid v)
     || forallb (fun image => selector_ok css (id image))
          (filteredImages (lists v))
  then Return tt
  else Throw {| JsError.name := "SyntaxError";
                JsError.message := "The selector is not valid";
                JsError.status := None |}.

(** The records of [loadDemoData]; [now] is [Date.now()], and a date is the
    time it stands for. *)
Definition demoData (now : Z) : list ImageRecord :=
  [ {| id := "1"; url := "https://picsum.photos/400/400?random=1";
       title := "Beautiful Landscape";
       description := "A stunning mountain view";
       tags := ["nature"; "mountains"; "landscape"];
       uploadDate := now; size := 156789; filename := "landscape.jpg" |};
    {| id := "2"; url := "https://picsum.photos/400/500?random=2";
       title := "City Architecture";
       description := "Modern building design";
       tags := ["architecture"; "city"; "modern"];
       uploadDate := now - 86400000; size := 234567;
       filename := "architecture.jpg" |};
    {| id := "3"; url := "https://picsum.photos/400/300?random=3";
       title := "Abstract Art";
       description := "Colorful abstract composition";
       tags := ["art"; "abstract"; "colorful"];
       uploadDate := now - 172800000; size := 198456;
       filename := "abstract.jpg" |} ].

(** [loadDemoData()]: the manager it leaves and how its [displayImages()]
    ends. *)
Definition loadDemoData (now : Z) (v : View) : View * Completion unit :=
  let v :=
    set_lists {| images := demoData now; filteredImages := demoData now |}
      v in
  (v, displayImages v).

(** What [data.images || []] holds, read as image records, for the parsed
    body [data] of a reply; a [Throw] where reading it throws ([data] is
    [null], or the value cannot be spread into an array). *)
Variable read_images : JsValue -> Completion (list ImageRecord).

(** The URL [loadImages] asks for. *)
Definition page_url (v : View) : string :=
  API_BASE_URL +:+ "/api/images?page=" +:+ show (currentPage v)
  +:+ "&limit=" +:+ show (itemsPerPage v).

(** The [try] block of [loadImages] up to the point where the records of
    the reply are at hand. *)
Definition fetch_page (reply : Reply) (v : View)
    : Async (list ImageRecord) :=
  let* response :=
    plain_fetch reply (page_url v)
      {| method := "GET"; headers := ∅; body := None |} in
  if negb (Response.ok response) then
    throw (JsError.Error
             ("HTTP error! status: " +:+ show (Response.status response)))
  else
    match Response.json response with
    | Some data => fun s => (s, read_images data)
    | None => throw JsError.SyntaxError
    end.

(** The [try] block of [loadImages]: the manager it leaves and how it
    ends. *)
Definition load_try (reply : Reply) (v : View) (s : Run)
    : Run * View * Completion unit :=
  match fetch_page reply v s with
  | (s, Return loaded) =>
      let all :=
        if currentPage v =? 1 then loaded
        else images (lists v) ++ loaded in
      let v :=
        set_lists
          (sortImages (sortBy v) (sortOrder v)
             {| images := all; filteredImages := all |}) v in
      (s, v, displayImages v)
  | (s, Throw e) => (s, v, Throw e)
  | (s, ThrowUndefined) => (s, v, ThrowUndefined)
  end.

(** [loadImages()]; a call made while [isLoading] is set is one made while
    another is waiting for its reply.  No caller looks at the promise it
    returns, so the call yields the state and the manager it leaves. *)
Definition loadImages (reply : Reply) (v : View) (s : Run) : Run * View :=
  if isLoading v then (s, v)
  else
    match load_try reply v s with
    | (s, v, Return _) => (s, set_isLoading false v)
    | (s, v, _) =>
        let '(v, shown) :=
          if currentPage v =? 1 then loadDemoData (clock s) v
          else (v, Return tt) in
        match shown with
        | Return _ =>
            (emit (EvToast "error" "Failed to load images") s,
             set_isLoading false v)
        | _ => (s, set_isLoading false v)
        end
    end.

(** [handleScroll()], given the three lengths it reads from the window. *)
Definition handleScroll (innerHeight scrollY offsetHeight : Z)
    (reply : Reply) (v : View) (s : Run) : Run * View :=
  if (offsetHeight - 1000 <=? innerHeight + scrollY) && negb (isLoading v)
  then loadImages reply (set_currentPage (currentPage v + 1) v) s
  else (s, v).

End Platform.

End GalleryManager.

(** ** [debounce] and [throttle] (api.js) *)

Module Timers.
Section Timers.
Context {A : Type}.

(** A call of the returned function: the time it is made at and the
    arguments it is made with. *)
Definition Call : Type := (Z * A)%type.



End Timers.
End Timers.

(** ** Statements about the cache and the histories they are tried on *)

Module CacheSpec.
Import CacheManager.

(** The entries lie in the map in the order of their timestamps. *)
Fixpoint time_ordered (c : CacheManager.t) : Prop :=
  match c with
  | [] => True
  | (_, e) :: rest =>
      Forall (fun p => timestamp e <= timestamp (snd p)) rest
      /\ time_ordered rest
  end.

(** [has] is a pure existence check: the cache is as before and the
    answer tells whether an entry that has not expired is there. *)
Definition has_is_pure (c : CacheManager.t) (now : Z) (k : string) : Prop :=
  fst (has c now k) = c
  /\ (snd (has c now k) = true <->
      exists e, JsMap.get c k = Some e /\ expired now e = false).

(** Going from [c] to [c'] evicted nothing but an oldest-inserted entry:
    whatever key lost its entry, no entry of [c] was inserted before
    it. *)
Definition evicts_only_oldest (c c' : CacheManager.t) : Prop :=
  forall k e, JsMap.get c k = Some e -> JsMap.get c' k = None ->
  forall k' e', JsMap.get c k' = Some e' -> timestamp e <= timestamp e'.

Definition key_of (n : nat) : string :=
  "img" +:+ NilEmpty.string_of_uint (Nat.to_uint n).

(** [set(key_of i, JNum i)] for [i = from, from+1, ...], [n] times, one
    call per millisecond starting at [now]. *)
Fixpoint fill (c : CacheManager.t) (now : Z) (from n : nat)
    : CacheManager.t :=
  match n with
  | O => c
  | S n' =>
      fill (set c now (key_of from) (JNum (Z.of_nat from)) None)
        (now + 1) (S from) n'
  end.

(** A full cache whose first key was written twice: [a] at time 1, [b] at
    time 2, [a] again at time 3, then 98 other keys. *)
Definition rewritten_first : CacheManager.t :=
  fill (set (set (set new 1 "a" (JNum 1) None) 2 "b" (JNum 2) None)
           3 "a" (JNum 3) None)
    4 0 98.

(** A full cache of 100 keys each written once. *)
Definition written_once : CacheManager.t := fill new 1 0 100.

(** The calls a client of the cache can make. *)
Inductive Call : Type :=
| CallSet (now : Z) (key : string) (v : JsValue) (age : option Z)
| CallGet (now : Z) (key : string)
| CallHas (now : Z) (key : string)
| CallDelete (key : string)
| CallClear.

Definition call (c : CacheManager.t) (op : Call) : CacheManager.t :=
  match op with
  | CallSet now key v age => set c now key v age
  | CallGet now key => fst (get c now key)
  | CallHas now key => fst (has c now key)
  | CallDelete key => delete c key
  | CallClear => clear c
  end.

(** The cache after a sequence of calls on a new cache. *)
Definition after (ops : list Call) : CacheManager.t :=
  fold_left call ops new.

End CacheSpec.

(** ** Statements about requests and the runs they are tried on *)

Module HttpSpec.
Import HttpClient.

(** A run that starts now: nothing logged, no timer pending. *)
Definition init (st : Storage) : Run :=
  {| storage := st; clock := 0; timer := None; log := [] |}.

Definition is_fetch (ev : Event) : bool :=
  match ev with
  | EvFetch _ _ => true
  | _ => false
  end.

(** The network calls of a log, in order. *)
Definition fetches (l : list Event) : list Event := List.filter is_fetch l.

(** The time asked of [delay] over a log. *)
Fixpoint total_delay (l : list Event) : Z :=
  match l with
  | [] => 0
  | EvDelay ms :: l' => ms + total_delay l'
  | _ :: l' => total_delay l'
  end.

(** No response interceptor of the list throws. *)
Definition return_normally (fs : list ResponseInterceptor) : Prop :=
  Forall (fun f => forall r st, snd (f r st) = Return tt) fs.

(** The calls of the response interceptors [i, i+1, ..., i+n-1] on [r]. *)
Definition interceptor_calls (i n : nat) (r : Response.t) : list Event :=
  map (fun j => EvResponseInterceptor j r) (seq i n).

Definition respond (st : Z) (text : string) : Response.t :=
  {| Response.status := st; Response.statusText := text;
     Response.contentType := Some "application/json";
     Response.text := "{}"; Response.json := Some (JObj []) |}.

(** Every call is answered after [ms] with status [st]. *)
Definition always (ms : Z) (st : Z) (text : string) : Network :=
  fun _ => {| latency := ms; outcome := Resolves (respond st text) |}.

(** Two answers 503, then 200. *)
Definition twice_503 : Network :=
  fun i =>
    match i with
    | 0%nat | 1%nat =>
        {| latency := 20;
           outcome := Resolves (respond 503 "Service Unavailable") |}
    | _ => {| latency := 20; outcome := Resolves (respond 200 "OK") |}
    end.

(** C1 as stated: when the first call outlasts the timeout and the
    client may retry, a second call follows. *)
Definition timeout_is_retried (c : HttpClient.t) (net : Network)
    (url : string) (options : Options) (st : Storage) : Prop :=
  timeout c <= latency (net 0%nat) -> 0 < retryAttempts c ->
  (2 <= length (fetches (log (fst (request c net url options (init st))))))%nat.

(** C2 as stated: a response interceptor is only ever called on a
    response with a success status. *)
Definition interceptors_only_on_success (l : list Event) : Prop :=
  forall i r, EvResponseInterceptor i r ∈ l -> Response.ok r = true.

Definition token : Storage := {[ ApiService.token_key := "secret" ]}.

(** The pending timeout, if any, leaves the reply of call [i] time to
    arrive. *)
Definition in_time (net : Network) (i : nat) (s : Run) : Prop :=
  match timer s with
  | Some d => clock s + Z.max 0 (latency (net i)) < d
  | None => True
  end.

(** No request interceptor of the list throws. *)
Definition requests_pass (fs : list RequestInterceptor) : Prop :=
  Forall (fun f => forall cfg st, exists cfg', snd (f cfg st) = Return cfg')
    fs.

(** A response the retry loop tries again after: not a success and not a
    client error. *)
Definition retryable (r : Response.t) : Prop :=
  Response.ok r = false
  /\ ~ (400 <= Response.status r < 500).

(** The [config] that [request] starts from. *)
Definition initial_config (c : HttpClient.t) (options : Options) : Config :=
  {| method := default "GET" (opt_method options);
     headers := default (defaultHeaders c) (opt_headers options);
     body := opt_body options |}.

Definition fullURL (c : HttpClient.t) (url : string) : string :=
  if startsWith url "http" then url else baseURL c +:+ url.

(** Every call is answered 500 after 20 ms. *)
Definition always_500 : Network := always 20 500 "Internal Server Error".

(** The network fails at the first call, after [ms]. *)
Definition fails_first (ms : Z) : Network :=
  fun i =>
    match i with
    | 0%nat => {| latency := ms; outcome := Rejects JsError.NetworkError |}
    | _ => {| latency := 20; outcome := Resolves (respond 200 "OK") |}
    end.

(** What [post] hands to [request]. *)
Definition post_options (data : option PostData) (options : Options)
    : Options :=
  match data with
  | Some (FormData entries) =>
      {| opt_method := Some (default "POST" (opt_method options));
         opt_headers := base.delete "Content-Type" <$> opt_headers options;
         opt_body := Some (BodyFormData entries) |}
  | Some (PlainData d) =>
      {| opt_method := Some (default "POST" (opt_method options));
         opt_headers := opt_headers options;
         opt_body := if truthy d then Some (BodyJson d)
                     else opt_body options |}
  | None =>
      {| opt_method := Some (default "POST" (opt_method options));
         opt_headers := opt_headers options;
         opt_body := opt_body options |}
  end.

(** The headers the auth interceptor leaves: the stored token, unless
    missing or empty, goes into [Authorization]. *)
Definition with_token (st : Storage) (h : Headers) : Headers :=
  match ApiService.getAuthToken st with
  | Some token =>
      if String.eqb token EmptyString then h
      else <[ "Authorization" := "Bearer " +:+ token ]> h
  | None => h
  end.

Definition login_reply (fields : list (string * JsValue)) : Network :=
  fun _ => {| latency := 20;
              outcome := Resolves
                {| Response.status := 200; Response.statusText := "OK";
                   Response.contentType := Some "application/json";
                   Response.text := "{}";
                   Response.json := Some (JObj fields) |} |}.

(** A request interceptor that refuses every request. *)
Definition refusing : RequestInterceptor :=
  fun cfg st => (st, Throw (JsError.Error "offline")).

Definition guarded : HttpClient.t :=
  addRequestInterceptor (HttpClient.new no_settings) refusing.

(** A 503 at once, then a success after an hour. *)
Definition slow_second : Network :=
  fun i =>
    match i with
    | 0%nat => {| latency := 20;
                  outcome := Resolves (respond 503 "Service Unavailable") |}
    | _ => {| latency := 3600000; outcome := Resolves (respond 200 "OK") |}
    end.

End HttpSpec.

(** ** Statements about the upload queue and the gallery *)

Module UploadSpec.
Import UploadManager.

(** The request [uploadFile] sends for an item. *)
Definition upload_request (it : UploadItem) : Event :=
  EvFetch (API_BASE_URL +:+ "/api/upload")
    {| method := "POST"; headers := ∅;
       body := Some (BodyFormData (formData it)) |}.

Definition is_milestone (ev : Event) : bool :=
  match ev with
  | EvFetch _ _ | EvStatus _ _ _ => true
  | _ => false
  end.

(** The network calls and status changes of a log, in order. *)
Definition milestones (l : list Event) : list Event :=
  List.filter is_milestone l.

Definition png (name : string) (size : Z) : File :=
  {| file_name := name; file_type := "image/png"; file_size := size |}.

Definition queued (i : string) (f : File) : UploadItem :=
  {| id := i; file := f; preview := None; status := Status.pending;
     progress := 0; error := None;
     metadata := {| title := "T"; description := "D"; tags := ["x"] |} |}.

Definition created : Response.t :=
  {| Response.status := 201; Response.statusText := "Created";
     Response.contentType := Some "application/json";
     Response.text := "{}"; Response.json := Some (JObj []) |}.

Definition broken : Response.t :=
  {| Response.status := 500; Response.statusText := "Internal Server Error";
     Response.contentType := None;
     Response.text := "oops"; Response.json := None |}.

(** The second upload is answered 500, the others 201. *)
Definition second_fails : Network :=
  fun i =>
    match i with
    | 1%nat => {| latency := 30; outcome := Resolves broken |}
    | _ => {| latency := 30; outcome := Resolves created |}
    end.

Definition three_files : UploadManager.t :=
  {| uploadQueue := [ queued "u1" (png "a.png" 1000);
                      queued "u2" (png "b.png" 2000);
                      queued "u3" (png "c.png" 3000) ];
     isUploading := false |}.

Definition ids : nat -> string := fun _ => "mock".


Definition is_uploaded (ev : Event) : bool :=
  match ev with
  | EvImageUploaded _ => true
  | _ => false
  end.

(** The [imageUploaded] events of a log, in order. *)
Definition uploaded (l : list Event) : list Event :=
  List.filter is_uploaded l.

Definition no_preview : File -> option string := fun _ => None.

Definition big_jpeg : File :=
  {| file_name := "big.jpg"; file_type := "image/jpeg";
     file_size := 12 * 1024 * 1024 |}.

Definition notes : File :=
  {| file_name := "notes.txt"; file_type := "text/plain"; file_size := 10 |}.

Definition idle : UploadManager.t :=
  {| uploadQueue := []; isUploading := false |}.

(** The network is down: every call rejects as in Chrome. *)
Definition offline : Network :=
  fun _ => {| latency := 5; outcome := Rejects JsError.NetworkError |}.

(** The upload page between two events: the manager, the calls of
    [queueFiles] started so far, each waiting for a preview or over
    ([None]), and the number of ids drawn. *)
Record Page : Type := mkPage {
  manager : UploadManager.t;
  calls : list (option Waiting);
  draws : nat
}.

(** What happens on the page: files are handed to [handleFiles], or the
    preview that the [k]-th call of [queueFiles] waits for settles. *)
Inductive PageEvent : Type :=
| FilesChosen (files : list File)
| PreviewSettled (k : nat).

(** The number of ids drawn once [w] has been started. *)
Definition drawn (w : option Waiting) (n : nat) : nat :=
  match w with
  | Some _ => S n
  | None => n
  end.

(** One event on the page; [generateId n] is the [n]-th id drawn and
    [createImagePreview f] the preview of [f], [None] where it fails. *)
Definition page_step (generateId : nat -> string)
    (createImagePreview : File -> option string) (st : Run * Page)
    (ev : PageEvent) : Run * Page :=
  let '(s, pg) := st in
  match ev with
  | FilesChosen files =>
      let '(s, w) := handleFiles (generateId (draws pg)) files s in
      (s, {| manager := manager pg;
             calls := match w with
                      | Some _ => calls pg ++ [w]
                      | None => calls pg
                      end;
             draws := drawn w (draws pg) |})
  | PreviewSettled k =>
      match calls pg !! k with
      | Some (Some w) =>
          let '(queue, next) :=
            queueFiles_resume (generateId (draws pg))
              (createImagePreview (file (item w))) w
              (uploadQueue (manager pg)) in
          (s, {| manager := {| uploadQueue := queue;
                               isUploading := isUploading (manager pg) |};
                 calls := <[k := next]> (calls pg);
                 draws := drawn next (draws pg) |})
      | _ => (s, pg)
      end
  end.

Definition page_run (generateId : nat -> string)
    (createImagePreview : File -> option string) (evs : list PageEvent)
    (st : Run * Page) : Run * Page :=
  fold_left (page_step generateId createImagePreview) evs st.

(** The valid files of each [handleFiles] that had some, in the order of
    the calls. *)
Fixpoint chosen (evs : list PageEvent) : list (list File) :=
  match evs with
  | [] => []
  | FilesChosen files :: evs' =>
      match List.filter validateFile files with
      | [] => chosen evs'
      | valid => valid :: chosen evs'
      end
  | PreviewSettled _ :: evs' => chosen evs'
  end.

(** The items of the files [files], with the ids drawn from the [n]-th
    on. *)
Fixpoint items_for (generateId : nat -> string)
    (createImagePreview : File -> option string) (n : nat)
    (files : list File) : list UploadItem :=
  match files with
  | [] => []
  | f :: rest =>
      new_item (generateId n) f (createImagePreview f)
      :: items_for generateId createImagePreview (S n) rest
  end.

(** An item as [queueFiles] pushes it: pending, with its preview and the
    empty metadata, for a file that passes validation. *)
Definition as_queued (createImagePreview : File -> option string)
    (it : UploadItem) : Prop :=
  it = new_item (id it) (file it) (createImagePreview (file it))
  /\ validateFile (file it) = true.

(** A page on which no call of [queueFiles] has been started, [n] ids
    having been drawn. *)
Definition at_rest (m : UploadManager.t) (n : nat) : Page :=
  {| manager := m; calls := []; draws := n |}.

(** The files a call has yet to push. *)
Definition unpushed (w : option Waiting) : list File :=
  match w with
  | Some w => file (item w) :: remaining w
  | None => []
  end.

(** What holds of the page after the events [evs], the queue having been
    [old] at first: [added] are the items pushed since, and [dones], call
    by call, the files pushed so far. *)
Definition page_inv (createImagePreview : File -> option string)
    (old : list UploadItem) (flag : bool) (evs : list PageEvent)
    (pg : Page) (added : list UploadItem) (dones : list (list File))
    : Prop :=
  uploadQueue (manager pg) = old ++ added
  /\ isUploading (manager pg) = flag
  /\ length (calls pg) = length (chosen evs)
  /\ length dones = length (chosen evs)
  /\ (forall k fs w d,
        chosen evs !! k = Some fs -> calls pg !! k = Some w ->
        dones !! k = Some d -> fs = d ++ unpushed w)
  /\ (forall k w, calls pg !! k = Some (Some w) ->
                  item w = new_item (id (item w)) (file (item w)) None)
  /\ Forall (fun d => d `sublist_of` map file added) dones
  /\ map file added ≡ₚ concat dones
  /\ Forall (as_queued createImagePreview) added.

(** The ids [id0], [id1], ... *)
Definition numbered (n : nat) : string :=
  "id" +:+ NilEmpty.string_of_uint (Nat.to_uint n).

(** Two batches of files are chosen one after the other, and the previews
    of the two calls settle in turn. *)
Definition two_batches : list PageEvent :=
  [ FilesChosen [png "a.png" 1; notes; png "b.png" 2; png "c.png" 3];
    FilesChosen [png "d.png" 4; big_jpeg; png "e.png" 5];
    PreviewSettled 0; PreviewSettled 1; PreviewSettled 0;
    PreviewSettled 1; PreviewSettled 0 ].

End UploadSpec.

Module GallerySpec.
Import GalleryManager.

Definition image (i t : string) : ImageRecord :=
  {| id := i; url := "https://picsum.photos/400/400"; title := t;
     description := "demo"; tags := ["art"]; uploadDate := 0;
     size := 156789; filename := "demo.jpg" |}.

Definition demo : GalleryManager.t :=
  {| images := [image "1" "Landscape"; image "2" "City"; image "3" "Art"];
     filteredImages := [image "1" "Landscape"; image "3" "Art"] |}.

Definition answers (st : Z) (text : string) : Reply :=
  {| latency := 15; outcome := Resolves (HttpSpec.respond st text) |}.


(** Lower case on the letters A to Z. *)
Definition lower_char (c : Ascii.ascii) : Ascii.ascii :=
  let n := Ascii.nat_of_ascii c in
  if (65 <=? n)%nat && (n <=? 90)%nat then Ascii.ascii_of_nat (n + 32)
  else c.

Fixpoint ascii_lower (s : string) : string :=
  match s with
  | EmptyString => EmptyString
  | String c s' => String (lower_char c) (ascii_lower s')
  end.

(** [a] comes no later than [b] in the order [sortImages] sorts by. *)
Definition in_order (toLowerCase : string -> string)
    (sortBy sortOrder : string) (a b : ImageRecord) : Prop :=
  comparator toLowerCase sortBy sortOrder a b <= 0.

(** The reply brings the records [loaded]: it is a response with a status
    from 200 to 299 whose body parses and reads as these records. *)
Definition delivers (read_images : JsValue -> Completion (list ImageRecord))
    (reply : Reply) (loaded : list ImageRecord) : Prop :=
  exists r data,
    outcome reply = Resolves r /\ Response.ok r = true
    /\ Response.json r = Some data /\ read_images data = Return loaded.

(** The request [loadImages] sends for page [n]. *)
Definition page_request (v : View) (n : Z) : Event :=
  EvFetch
    (API_BASE_URL +:+ "/api/images?page=" +:+ show n +:+ "&limit="
     +:+ show (itemsPerPage v))
    {| method := "GET"; headers := ∅; body := None |}.

(** A reader for bodies that list their images by title. *)
Definition read_titles (data : JsValue) : Completion (list ImageRecord) :=
  match ApiService.get_property data "images" with
  | Return (JArr items) =>
      Return (map (fun x => image (to_string x) (to_string x)) items)
  | Return v =>
      if truthy v then Throw (JsError.Error "images is not iterable")
      else Return []
  | Throw e => Throw e
  | ThrowUndefined => ThrowUndefined
  end.

(** A reply 200 that lists the images of the given titles. *)
Definition listing (titles : list string) : Reply :=
  {| latency := 20;
     outcome :=
       Resolves
         {| Response.status := 200; Response.statusText := "OK";
            Response.contentType := Some "application/json";
            Response.text := "{...}";
            Response.json :=
              Some (JObj [("images", JArr (map JStr titles))]) |} |}.

(** The manager as its constructor leaves it, with the given lists and
    page. *)
Definition view (g : GalleryManager.t) (page : Z) : View :=
  {| lists := g; galleryGrid := true; currentPage := page;
     itemsPerPage := 20;
     isLoading := false; sortBy := "date"; sortOrder := "desc" |}.

Fixpoint count_quotes (s : string) : nat :=
  match s with
  | EmptyString => O
  | String c s' =>
      if Ascii.eqb c (Ascii.ascii_of_nat 34) then S (count_quotes s')
      else count_quotes s'
  end.

(** A parser that takes the selector of a card when its only quotes are
    the two around the id. *)
Definition quotes_paired (selector : string) : bool :=
  (count_quotes selector =? 2)%nat.

(** A title with a quote in it. *)
Definition quoted_title : string :=
  "a" +:+ String (Ascii.ascii_of_nat 34) EmptyString +:+ "b".



(** [displayImages()] returns when these records are displayed: there is
    no grid element, or the card of each can be looked up. *)
Definition displayable (css : string -> bool) (v : View)
    (shown : list ImageRecord) : bool :=
  negb (galleryGrid v)
  || forallb (fun image => selector_ok css (id image)) shown.

End GallerySpec.

(** ** Statements about the mock pages *)

Module MockSpec.
Import ApiService.

(** [v.name], [undefined] where reading it throws. *)
Definition field (v : JsValue) (name : string) : JsValue :=
  match get_property v name with
  | Return x => x
  | _ => JUndefined
  end.

(** The records on a mock page. *)
Definition images_of (v : JsValue) : list JsValue :=
  match field v "images" with
  | JArr items => items
  | _ => []
  end.

(** The mock pages 1 to [n] for page size [limit], one after the other. *)
Definition pages_up_to (now limit : Z) (n : nat) : list JsValue :=
  concat
    (map (fun k =>
            images_of
              (getMockImageData now (Some (Z.of_nat k)) (Some limit)))
       (seq 1 n)).

End MockSpec.

(** ** Statements about [throttle] and [debounce] *)

Module TimerSpec.
Import Timers.




End TimerSpec.

(** * Properties *)

(** ** The ordered map *)

Section JsMapFacts.
Context {V : Type}.
Implicit Types (m : JsMap.t V) (k : string) (v : V).

Lemma JsMap_get_set_eq m k v : JsMap.get (JsMap.set m k v) k = Some v.
Proof.
  induction m as [|[k' v'] m IH]; simpl.
  - by rewrite String.eqb_refl.
  - destruct (String.eqb_spec k' k) as [->|Hne]; simpl.
    + by rewrite String.eqb_refl.
    + destruct (String.eqb_spec k' k); [done | apply IH].
Qed.

Lemma JsMap_get_set_ne m k k' v :
  k ≠ k' → JsMap.get (JsMap.set m k v) k' = JsMap.get m k'.
Proof.
  intros Hne. induction m as [|[k1 v1] m IH]; simpl.
  - destruct (String.eqb_spec k k'); [done | reflexivity].
  - destruct (String.eqb_spec k1 k) as [->|Hk]; simpl.
    + destruct (String.eqb_spec k k'); [done | reflexivity].
    + destruct (String.eqb_spec k1 k'); [reflexivity | apply IH].
Qed.

Lemma JsMap_get_delete_ne m k k' :
  k ≠ k' → JsMap.get (JsMap.delete m k) k' = JsMap.get m k'.
Proof.
  intros Hne. induction m as [|[k1 v1] m IH]; simpl; [done|].
  destruct (String.eqb_spec k1 k) as [->|Hk]; simpl.
  - destruct (String.eqb_spec k k'); [done | reflexivity].
  - destruct (String.eqb_spec k1 k'); [reflexivity | apply IH].
Qed.

Lemma JsMap_get_None m k : JsMap.get m k = None ↔ k ∉ JsMap.keys m.
Proof.
  induction m as [|[k1 v1] m IH]; simpl.
  - split; [intros _; apply not_elem_of_nil | done].
  - rewrite not_elem_of_cons.
    destruct (String.eqb_spec k1 k) as [->|Hk]; split.
    + done.
    + intros [? _]; done.
    + intros H; split; [congruence | by apply IH].
    + intros [_ H]; by apply IH.
Qed.

Lemma JsMap_get_Some_elem m k v :
  JsMap.get m k = Some v → (k, v) ∈ m.
Proof.
  induction m as [|[k1 v1] m IH]; simpl; [done|].
  destruct (String.eqb_spec k1 k) as [->|Hk].
  - intros [= ->]. apply list_elem_of_here.
  - intros H. apply list_elem_of_further, IH, H.
Qed.

Lemma JsMap_get_delete_eq m k :
  NoDup (JsMap.keys m) → JsMap.get (JsMap.delete m k) k = None.
Proof.
  induction m as [|[k1 v1] m IH]; simpl; [done|].
  rewrite NoDup_cons. intros [Hnotin Hnd].
  destruct (String.eqb_spec k1 k) as [->|Hk]; simpl.
  - by apply JsMap_get_None.
  - destruct (String.eqb_spec k1 k); [done | by apply IH].
Qed.

Lemma JsMap_keys_delete m k k' :
  k' ∈ JsMap.keys (JsMap.delete m k) → k' ∈ JsMap.keys m.
Proof.
  induction m as [|[k1 v1] m IH]; simpl; [done|].
  destruct (String.eqb_spec k1 k) as [->|Hk]; simpl.
  - intros H. by apply list_elem_of_further.
  - rewrite !elem_of_cons. intros [->|H]; [by left | right; by apply IH].
Qed.

Lemma JsMap_keys_set m k v k' :
  k' ∈ JsMap.keys (JsMap.set m k v) → k' = k ∨ k' ∈ JsMap.keys m.
Proof.
  induction m as [|[k1 v1] m IH]; simpl.
  - rewrite list_elem_of_singleton. by left.
  - destruct (String.eqb_spec k1 k) as [->|Hk]; simpl;
      rewrite !elem_of_cons.
    + intros [->|H]; [by left | right; by right].
    + intros [->|H]; [right; by left|].
      destruct (IH H) as [->|?]; [by left | right; by right].
Qed.

Lemma JsMap_NoDup_delete m k :
  NoDup (JsMap.keys m) → NoDup (JsMap.keys (JsMap.delete m k)).
Proof.
  induction m as [|[k1 v1] m IH]; simpl; [done|].
  rewrite NoDup_cons. intros [Hnotin Hnd].
  destruct (String.eqb_spec k1 k) as [->|Hk]; simpl; [done|].
  apply NoDup_cons. split; [|by apply IH].
  intros H. by apply Hnotin, (JsMap_keys_delete _ k).
Qed.

Lemma JsMap_NoDup_set m k v :
  NoDup (JsMap.keys m) → NoDup (JsMap.keys (JsMap.set m k v)).
Proof.
  induction m as [|[k1 v1] m IH]; simpl.
  - intros _. apply NoDup_singleton.
  - rewrite NoDup_cons. intros [Hnotin Hnd].
    destruct (String.eqb_spec k1 k) as [->|Hk]; simpl.
    + by apply NoDup_cons.
    + apply NoDup_cons. split; [|by apply IH].
      intros H. destruct (JsMap_keys_set _ _ _ _ H); done.
Qed.

End JsMapFacts.

(** ** The cache *)

Section CacheFacts.
Import CacheManager CacheSpec.
Implicit Types (c : CacheManager.t) (k : string) (v : JsValue).

Lemma set_unfold_full c now k v age k0 e0 rest :
  c = (k0, e0) :: rest → JsMap.size c >= maxSize → NoDup (JsMap.keys c) →
  set c now k v age
  = JsMap.set rest k
      {| value := v; timestamp := now;
         maxAge := default default_maxAge age |}.
Proof.
  intros -> Hfull Hnd. unfold set.
  destruct (Z.geb_spec (JsMap.size ((k0, e0) :: rest)) maxSize); [|lia].
  simpl. by rewrite String.eqb_refl.
Qed.

Lemma set_keeps_NoDup c now k v age :
  NoDup (JsMap.keys c) → NoDup (JsMap.keys (set c now k v age)).
Proof.
  intros Hnd. unfold set. apply JsMap_NoDup_set.
  destruct (JsMap.size c >=? maxSize); [|done].
  destruct (JsMap.first_key c); [by apply JsMap_NoDup_delete | done].
Qed.

Lemma get_set_same c now k v age :
  JsMap.get (set c now k v age) k
  = Some {| value := v; timestamp := now;
            maxAge := default default_maxAge age |}.
Proof. unfold set. apply JsMap_get_set_eq. Qed.

Lemma time_ordered_head c k0 e0 rest :
  c = (k0, e0) :: rest → time_ordered c →
  ∀ k e, JsMap.get c k = Some e → timestamp e0 <= timestamp e.
Proof.
  intros -> [Hall _] k e. simpl.
  destruct (String.eqb_spec k0 k) as [->|Hne].
  - intros [= ->]. lia.
  - intros Hget. apply JsMap_get_Some_elem in Hget.
    rewrite Forall_forall in Hall. apply (Hall _ Hget).
Qed.

Lemma JsMap_set_absent {V} (m : JsMap.t V) k (v : V) :
  JsMap.get m k = None → JsMap.set m k v = m ++ [(k, v)].
Proof.
  induction m as [|[k1 v1] m IH]; simpl; [done|].
  destruct (String.eqb_spec k1 k); [done|].
  intros H. by rewrite IH.
Qed.

Lemma Forall_JsMap_delete {V} (P : string * V → Prop) (m : JsMap.t V) k :
  Forall P m → Forall P (JsMap.delete m k).
Proof.
  induction m as [|[k1 v1] m IH]; simpl; [done|].
  intros H. apply Forall_cons in H as [H1 H].
  destruct (String.eqb k1 k); [done|].
  apply Forall_cons. split; [done | by apply IH].
Qed.

Lemma time_ordered_delete c k :
  time_ordered c → time_ordered (JsMap.delete c k).
Proof.
  induction c as [|[k1 e1] c IH]; simpl; [done|].
  intros [Hall Hord]. destruct (String.eqb k1 k); [done|].
  simpl. split; [by apply Forall_JsMap_delete | by apply IH].
Qed.

Lemma time_ordered_snoc c k e :
  time_ordered c → Forall (λ p, timestamp (snd p) <= timestamp e) c →
  time_ordered (c ++ [(k, e)]).
Proof.
  induction c as [|[k1 e1] c IH]; simpl.
  - intros _ _. split; [constructor | done].
  - intros [Hall Hord] Hle. apply Forall_cons in Hle as [Hle1 Hle].
    split; [|by apply IH].
    apply Forall_app. split; [done|]. by repeat constructor.
Qed.

(** Timestamp order is kept as long as [set] only ever stores keys that
    are not in the cache, the clock not running backwards. *)
Lemma set_fresh_keeps_time_order c now k v age :
  time_ordered c → JsMap.get c k = None →
  Forall (λ p, timestamp (snd p) <= now) c →
  time_ordered (set c now k v age).
Proof.
  intros Hord Habs Hpast. unfold set.
  match goal with |- context [JsMap.set ?m _ _] => set (c1 := m) end.
  assert (H1 : time_ordered c1 ∧ JsMap.get c1 k = None
               ∧ Forall (λ p, timestamp (snd p) <= now) c1).
  { subst c1. destruct (JsMap.size c >=? maxSize); [|done].
    destruct c as [|[k0 e0] rest]; [done|]. simpl.
    rewrite String.eqb_refl. simpl in *.
    destruct (String.eqb_spec k0 k); [done|].
    destruct Hord as [_ Hord]. apply Forall_cons in Hpast as [_ Hpast]. done. }
  destruct H1 as (Hord1 & Habs1 & Hpast1).
  rewrite JsMap_set_absent by done.
  by apply time_ordered_snoc.
Qed.

End CacheFacts.

(** C6. Right after [set(k, v)], [get(k)] returns [v]. Once more than
    [maxAge] has passed since the entry was stored, [get(k)] returns
    [null] and deletes the entry, and [has(k)] afterwards is [false]. *)
Theorem cache_set_get_expire (c : CacheManager.t) (now t t' : Z)
    (k : string) (v : JsValue) :
  NoDup (JsMap.keys c) →
  t - now > CacheManager.default_maxAge →
  let c1 := CacheManager.set c now k v None in
  CacheManager.get c1 now k = (c1, v)
  ∧ CacheManager.get c1 t k = (JsMap.delete c1 k, JNull)
  ∧ JsMap.get (JsMap.delete c1 k) k = None
  ∧ CacheManager.has (JsMap.delete c1 k) t' k = (JsMap.delete c1 k, false).
Proof.
  intros Hnd Hlate c1.
  assert (Hget : JsMap.get c1 k
                 = Some (CacheManager.mkEntry v now CacheManager.default_maxAge))
    by apply get_set_same.
  assert (Hgone : JsMap.get (JsMap.delete c1 k) k = None)
    by (apply JsMap_get_delete_eq, set_keeps_NoDup, Hnd).
  repeat split.
  - unfold CacheManager.get. rewrite Hget. unfold CacheManager.expired; simpl.
    destruct (Z.gtb_spec (now - now) CacheManager.default_maxAge) as [H|_];
      [|reflexivity].
    unfold CacheManager.default_maxAge in H. lia.
  - unfold CacheManager.get. rewrite Hget. unfold CacheManager.expired; simpl.
    destruct (Z.gtb_spec (t - now) CacheManager.default_maxAge); [done | lia].
  - exact Hgone.
  - unfold CacheManager.has, CacheManager.get. by rewrite Hgone.
Qed.

Lemma cache_set_get_expire_witness :
  NoDup (JsMap.keys CacheManager.new)
  ∧ 300001 - 0 > CacheManager.default_maxAge
  ∧ CacheManager.get
      (CacheManager.set CacheManager.new 0 "k" (JStr "v") None) 300001 "k"
    = ([], JNull).
Proof.
  split; [apply NoDup_nil_2|]. split; [reflexivity|].
  refine (proj1 (proj2
    (cache_set_get_expire CacheManager.new 0 300001 300002 "k" (JStr "v")
       _ _))).
  - apply NoDup_nil_2.
  - reflexivity.
Defined.

(** X30. A [set] on a cache at capacity evicts exactly one entry before
    storing: the entry of the first key in the map's insertion order. That
    entry carries the oldest timestamp whenever the entries lie in
    timestamp order. *)
Theorem cache_set_evicts_first (c : CacheManager.t) (now : Z) (k : string)
    (v : JsValue) (age : option Z) (k0 : string) (e0 : CacheManager.Entry)
    (rest : CacheManager.t) :
  c = (k0, e0) :: rest →
  NoDup (JsMap.keys c) →
  CacheManager.maxSize <= JsMap.size c →
  let entry := CacheManager.mkEntry v now
                 (default CacheManager.default_maxAge age) in
  let c' := CacheManager.set c now k v age in
  c' = JsMap.set rest k entry
  ∧ JsMap.get c' k = Some entry
  ∧ (k ≠ k0 → JsMap.get c' k0 = None)
  ∧ (∀ k', k' ≠ k0 → k' ≠ k → JsMap.get c' k' = JsMap.get c k')
  ∧ (CacheSpec.time_ordered c →
     ∀ k' e', JsMap.get c k' = Some e' →
              CacheManager.timestamp e0 <= CacheManager.timestamp e').
Proof.
  intros Hc Hnd Hfull entry c'.
  assert (Hset : c' = JsMap.set rest k entry)
    by (apply (set_unfold_full c now k v age k0 e0 rest); [done | lia | done]).
  subst c. simpl in Hnd. apply NoDup_cons in Hnd as [Hk0 Hrest].
  repeat split.
  - exact Hset.
  - apply get_set_same.
  - intros Hne. rewrite Hset, JsMap_get_set_ne by done.
    by apply JsMap_get_None.
  - intros k' Hk0' Hk'. rewrite Hset, JsMap_get_set_ne by done. simpl.
    destruct (String.eqb_spec k0 k'); [congruence | reflexivity].
  - intros Hord. by apply (time_ordered_head _ k0 e0 rest).
Qed.

Lemma cache_set_evicts_first_witness :
  CacheManager.maxSize <= JsMap.size CacheSpec.written_once
  ∧ JsMap.get (CacheManager.set CacheSpec.written_once 500 "z" JNull None)
      "img0" = None.
Proof.
  split; [vm_compute; discriminate|].
  refine (proj1 (proj2 (proj2
    (cache_set_evicts_first CacheSpec.written_once 500 "z" JNull None
       "img0" (CacheManager.mkEntry (JNum 0) 1 300000)
       (tl CacheSpec.written_once) _ _ _))) _).
  - vm_compute. reflexivity.
  - apply (bool_decide_unpack _). vm_compute. reflexivity.
  - vm_compute. discriminate.
  - discriminate.
Defined.

(** C7. The code at the failing input: in a full cache whose first key
    [a] was written a second time (at time 3, after [b] at time 2), [set]
    evicts the entry of [a] although the older entry of [b] is still in the
    cache; what is evicted is not the oldest entry. *)
Lemma cache_set_evicts_newer_entry :
  JsMap.size CacheSpec.rewritten_first = CacheManager.maxSize
  ∧ ¬ CacheSpec.evicts_only_oldest CacheSpec.rewritten_first
        (CacheManager.set CacheSpec.rewritten_first 200 "z" JNull None).
Proof.
  split; [vm_compute; reflexivity|].
  intros H.
  specialize (H "a" (CacheManager.mkEntry (JNum 3) 3 300000)).
  specialize (H ltac:(vm_compute; reflexivity) ltac:(vm_compute; reflexivity)).
  specialize (H "b" (CacheManager.mkEntry (JNum 2) 2 300000)
                ltac:(vm_compute; reflexivity)).
  simpl in H. lia.
Qed.

(** C9, as amended. [has(key)] answers as [get(key)] does and changes the
    cache as [get(key)] does: it is [true] exactly when the key has an
    entry that has not expired and whose value is not [null]; the cache is
    as before when the key has no entry or one that has not expired; an
    expired entry is deleted. *)
Theorem cache_has_like_get (c : CacheManager.t) (now : Z) (k : string) :
  CacheManager.has c now k
  = (fst (CacheManager.get c now k), not_null (snd (CacheManager.get c now k)))
  ∧ (snd (CacheManager.has c now k) = true ↔
     ∃ e, JsMap.get c k = Some e ∧ CacheManager.expired now e = false
          ∧ CacheManager.value e ≠ JNull)
  ∧ ((∀ e, JsMap.get c k = Some e → CacheManager.expired now e = false) →
     fst (CacheManager.has c now k) = c)
  ∧ (∀ e, JsMap.get c k = Some e → CacheManager.expired now e = true →
     CacheManager.has c now k = (JsMap.delete c k, false)).
Proof.
  unfold CacheManager.has, CacheManager.get.
  destruct (JsMap.get c k) as [e|] eqn:Hget.
  - destruct (CacheManager.expired now e) eqn:Hexp; simpl.
    + split; [done|]. split; [|split].
      * split; [intros [=]|].
        intros (e' & [= <-] & Hfresh & _). congruence.
      * intros H. specialize (H e eq_refl). congruence.
      * done.
    + split; [done|]. split; [|split].
      * split.
        -- intros Hnn. exists e. split; [done|]. split; [done|].
           intros Hv. rewrite Hv in Hnn. discriminate.
        -- intros (e' & [= <-] & _ & Hv).
           destruct (CacheManager.value e); done.
      * done.
      * intros e' [= <-] H. congruence.
  - simpl. split; [done|]. split; [|split].
    + split; [intros [=]|]. intros (e & [=] & _).
    + done.
    + intros e [=].
Qed.

Lemma cache_has_like_get_witness :
  CacheManager.has [("k", CacheManager.mkEntry (JStr "v") 0 10)] 11 "k"
  = ([], false).
Proof.
  refine (proj2 (proj2 (proj2
    (cache_has_like_get [("k", CacheManager.mkEntry (JStr "v") 0 10)] 11 "k")))
    (CacheManager.mkEntry (JStr "v") 0 10) _ _); reflexivity.
Defined.

(** C9, as stated, fails: [has] on a key whose entry has expired deletes
    the entry. *)
Lemma cache_has_not_pure :
  ¬ CacheSpec.has_is_pure
      (CacheManager.set CacheManager.new 0 "k" (JStr "v") None) 300001 "k".
Proof. intros [H _]. vm_compute in H. discriminate. Qed.

(** ** The HTTP client *)

Section HttpFacts.
Import HttpClient HttpSpec.

Lemma total_delay_app l1 l2 :
  total_delay (l1 ++ l2) = total_delay l1 + total_delay l2.
Proof.
  induction l1 as [|ev l1 IH]; simpl; [lia|].
  destruct ev; simpl; lia.
Qed.

Lemma total_delay_interceptor_calls i n r :
  total_delay (interceptor_calls i n r) = 0.
Proof.
  unfold interceptor_calls. revert i.
  induction n as [|n IH]; intros i; simpl; [done | apply IH].
Qed.

(** What a pass over the response interceptors leaves behind: calls in
    registration order, up to the first that throws. *)
Lemma apply_response_interceptors_spec fs i r s :
  ∃ n, (n ≤ length fs)%nat
    ∧ log (fst (apply_response_interceptors fs i r s))
      = log s ++ interceptor_calls i n r
    ∧ clock (fst (apply_response_interceptors fs i r s)) = clock s
    ∧ timer (fst (apply_response_interceptors fs i r s)) = timer s
    ∧ (snd (apply_response_interceptors fs i r s) = Return tt →
       n = length fs)
    ∧ (return_normally fs →
       n = length fs
       ∧ snd (apply_response_interceptors fs i r s) = Return tt).
Proof.
  revert i s. induction fs as [|f fs IH]; intros i s.
  - exists 0%nat. unfold interceptor_calls; simpl.
    rewrite app_nil_r. repeat split; done.
  - set (s0 := emit (EvResponseInterceptor i r) s).
    change (apply_response_interceptors (f :: fs) i r s)
      with (match f r (storage s0) with
            | (st, Return _) =>
                apply_response_interceptors fs (S i) r (with_storage st s0)
            | (st, Throw e) => (with_storage st s0, Throw e)
            | (st, ThrowUndefined) => (with_storage st s0, ThrowUndefined)
            end).
    destruct (f r (storage s0)) as [st [[]| e |]] eqn:Hf.
    + destruct (IH (S i) (with_storage st s0))
        as (n & Hn & Hlog & Hclock & Htimer & Hret & Hall).
      exists (S n). split; [simpl; lia|].
      split; [rewrite Hlog; simpl; by rewrite <- app_assoc|].
      split; [by rewrite Hclock|]. split; [by rewrite Htimer|].
      split; [intros H; by rewrite (Hret H)|].
      intros Hok. apply Forall_cons in Hok as [_ Hok].
      destruct (Hall Hok) as [-> Hres]. done.
    + exists 1%nat. simpl. split; [lia|]. split; [done|].
      split; [done|]. split; [done|]. split; [done|].
      intros Hok. apply Forall_cons in Hok as [Hok _].
      specialize (Hok r (storage s0)). rewrite Hf in Hok. discriminate.
    + exists 1%nat. simpl. split; [lia|]. split; [done|].
      split; [done|]. split; [done|]. split; [done|].
      intros Hok. apply Forall_cons in Hok as [Hok _].
      specialize (Hok r (storage s0)). rewrite Hf in Hok. discriminate.
Qed.

Lemma fetch_aborts net i url cfg s d :
  timer s = Some d → d <= clock s + Z.max 0 (latency (net i)) →
  ∃ s', fetch net i url cfg s = (s', Throw JsError.AbortError)
        ∧ log s' = log s ++ [EvFetch url cfg]
        ∧ storage s' = storage s.
Proof.
  intros Ht Hlate. unfold fetch, aborted. simpl. rewrite Ht.
  destruct (Z.leb_spec d (clock s)).
  - eexists; split; [reflexivity|]. done.
  - destruct (Z.leb_spec d (clock s + Z.max 0 (latency (net i)))); [|lia].
    eexists; split; [reflexivity|]. done.
Qed.

Lemma fetch_settles net i url cfg s :
  in_time net i s →
  fetch net i url cfg s
  = (advance (latency (net i)) (emit (EvFetch url cfg) s),
     match outcome (net i) with
     | Resolves r => Return r
     | Rejects e => Throw e
     end).
Proof.
  unfold in_time, fetch, aborted. simpl.
  destruct (timer s) as [d|]; [|done].
  intros Hd.
  destruct (Z.leb_spec d (clock s)); [lia|].
  destruct (Z.leb_spec d (clock s + Z.max 0 (latency (net i)))); [lia|done].
Qed.

(** A turn of the loop whose call is answered, with interceptors that
    return: the timeout is cleared, every interceptor is called on the
    response, and the status decides between returning and throwing. *)
Lemma attempt_once_resolved c net url cfg i s r :
  in_time net i s → outcome (net i) = Resolves r →
  return_normally (response_interceptors c) →
  ∃ s', attempt_once c net url cfg i s
        = (s', if Response.ok r then Return r
               else Throw (JsError.HttpError (Response.status r)
                             (Response.statusText r)))
    ∧ timer s' = None
    ∧ clock s' = clock s + Z.max 0 (latency (net i))
    ∧ log s' = log s ++ EvFetch url cfg
                 :: interceptor_calls 0 (length (response_interceptors c)) r.
Proof.
  intros Htime Hout Hok. unfold attempt_once, bind.
  rewrite (fetch_settles _ _ _ _ _ Htime), Hout.
  set (s1 := clearTimeout _).
  destruct (apply_response_interceptors_spec (response_interceptors c)
              0 r s1) as (n & _ & Hlog & Hclock & Htimer & _ & Hall).
  destruct (Hall Hok) as [-> Hret].
  destruct (apply_response_interceptors (response_interceptors c) 0 r s1)
    as [s2 res]. simpl in *. subst res.
  exists s2. split.
  - destruct (Response.ok r); reflexivity.
  - rewrite Htimer, Hclock, Hlog. subst s1. simpl.
    split; [done|]. split; [done|]. by rewrite <- app_assoc.
Qed.

Lemma apply_request_interceptors_spec fs i cfg s :
  requests_pass fs →
  ∃ s' cfg', apply_request_interceptors fs i cfg s = (s', Return cfg')
    ∧ clock s' = clock s ∧ timer s' = timer s
    ∧ total_delay (log s') = total_delay (log s).
Proof.
  revert i cfg s. induction fs as [|f fs IH]; intros i cfg s Hpass.
  - exists s, cfg. done.
  - apply Forall_cons in Hpass as [Hf Hpass].
    set (s0 := emit (EvRequestInterceptor i) s).
    change (apply_request_interceptors (f :: fs) i cfg s)
      with (match f cfg (storage s0) with
            | (st, Return cfg') =>
                apply_request_interceptors fs (S i) cfg' (with_storage st s0)
            | (st, Throw e) => (with_storage st s0, Throw e)
            | (st, ThrowUndefined) => (with_storage st s0, ThrowUndefined)
            end).
    destruct (Hf cfg (storage s0)) as [cfg1 Hcfg1].
    destruct (f cfg (storage s0)) as [st res]. simpl in Hcfg1. subst res.
    destruct (IH (S i) cfg1 (with_storage st s0) Hpass)
      as (s' & cfg' & -> & Hclock & Htimer & Hdelay).
    exists s', cfg'. split; [done|].
    rewrite Hclock, Htimer, Hdelay. subst s0. simpl.
    rewrite total_delay_app. simpl. split; [done|]. split; [done|]. lia.
Qed.

Lemma retry_loop_S c net url cfg remaining attempt last s :
  retry_loop c net url cfg (S remaining) attempt last s
  = match attempt_once c net url cfg attempt s with
    | (s1, Return response) => (s1, Return response)
    | (s1, Throw error) =>
        if no_retry error then (clearTimeout s1, Throw error)
        else
          retry_loop c net url cfg remaining (S attempt) (Some error)
            (if Z.of_nat attempt <? retryAttempts c
             then delay (retryDelay c * 2 ^ Z.of_nat attempt) s1
             else s1)
    | (s1, ThrowUndefined) =>
        (s1, Throw {| JsError.name := "TypeError";
                      JsError.message :=
                        "Cannot read properties of undefined";
                      JsError.status := None |})
    end.
Proof. reflexivity. Qed.

Lemma fetch_log net i url cfg s :
  log (fst (fetch net i url cfg s)) = log s ++ [EvFetch url cfg].
Proof.
  unfold fetch. destruct (aborted _); [done|].
  destruct (timer _); [destruct (_ <=? _)|]; done.
Qed.

(** One turn of the loop, whatever the network and the interceptors do. *)
Lemma attempt_once_turn c net url config attempt s :
  match fetch net attempt url config s with
  | (s1, Return response) =>
      ∃ n, (n ≤ length (response_interceptors c))%nat
        ∧ log (fst (attempt_once c net url config attempt s))
          = log s1 ++ interceptor_calls 0 n response
        ∧ (return_normally (response_interceptors c) →
           n = length (response_interceptors c))
        ∧ (∀ r, snd (attempt_once c net url config attempt s) = Return r →
                r = response ∧ Response.ok response = true
                ∧ n = length (response_interceptors c))
  | (s1, thrown) =>
      attempt_once c net url config attempt s = (s1, thrown)
      ∧ log s1 = log s ++ [EvFetch url config]
  end.
Proof.
  pose proof (fetch_log net attempt url config s) as Hfl.
  unfold attempt_once, bind.
  destruct (fetch net attempt url config s) as [s1 [response|e|]];
    [|done|done].
  destruct (apply_response_interceptors_spec
              (response_interceptors c) 0 response (clearTimeout s1))
    as (n & Hn & Hlog & _ & _ & Hret & Hall).
  exists n. split; [done|].
  destruct (apply_response_interceptors
              (response_interceptors c) 0 response (clearTimeout s1))
    as [s2 [[]|e|]]; simpl in *.
  - split; [by destruct (Response.ok response)|].
    split; [intros H; by apply Hall|].
    intros r. destruct (Response.ok response); simpl; [|done].
    intros [= <-]. by rewrite Hret.
  - split; [done|]. split; [intros H; by apply Hall|]. done.
  - split; [done|]. split; [intros H; by apply Hall|]. done.
Qed.

Lemma attempt_once_returns c net url config attempt s s' r :
  attempt_once c net url config attempt s = (s', Return r) →
  log s' = log s ++ EvFetch url config
             :: interceptor_calls 0 (length (response_interceptors c)) r
  ∧ Response.ok r = true.
Proof.
  intros Heq.
  pose proof (attempt_once_turn c net url config attempt s) as H.
  pose proof (fetch_log net attempt url config s) as Hfl.
  destruct (fetch net attempt url config s) as [s1 [response|e|]];
    simpl in Hfl.
  - destruct H as (n & _ & Hlog & _ & Hret).
    rewrite Heq in Hlog, Hret. simpl in Hlog, Hret.
    destruct (Hret r eq_refl) as (-> & Hok & ->).
    by rewrite Hlog, Hfl, <- app_assoc.
  - destruct H as [H _]. congruence.
  - destruct H as [H _]. congruence.
Qed.

Lemma retry_loop_returns c net url config remaining attempt last s s' r :
  retry_loop c net url config remaining attempt last s = (s', Return r) →
  ∃ l, log s' = l ++ EvFetch url config
                  :: interceptor_calls 0 (length (response_interceptors c)) r
       ∧ Response.ok r = true.
Proof.
  revert attempt last s.
  induction remaining as [|remaining IH]; intros attempt last s.
  - simpl. destruct last; discriminate.
  - rewrite retry_loop_S.
    destruct (attempt_once c net url config attempt s)
      as [s1 [response|e|]] eqn:Hatt.
    + intros [= <- <-].
      destruct (attempt_once_returns _ _ _ _ _ _ _ _ Hatt) as [Hlog Hok].
      by exists (log s).
    + destruct (no_retry e); [discriminate | apply IH].
    + discriminate.
Qed.


Lemma fetches_app l1 l2 : fetches (l1 ++ l2) = fetches l1 ++ fetches l2.
Proof. unfold fetches. apply List.filter_app. Qed.

Lemma apply_request_interceptors_fetches fs i cfg s :
  fetches (log (fst (apply_request_interceptors fs i cfg s)))
  = fetches (log s).
Proof.
  revert i cfg s. induction fs as [|f fs IH]; intros i cfg s; [done|].
  set (s0 := emit (EvRequestInterceptor i) s).
  change (apply_request_interceptors (f :: fs) i cfg s)
    with (match f cfg (storage s0) with
          | (st, Return cfg') =>
              apply_request_interceptors fs (S i) cfg' (with_storage st s0)
          | (st, Throw e) => (with_storage st s0, Throw e)
          | (st, ThrowUndefined) => (with_storage st s0, ThrowUndefined)
          end).
  assert (H0 : fetches (log s0) = fetches (log s)).
  { subst s0. simpl. rewrite fetches_app. simpl. by rewrite app_nil_r. }
  destruct (f cfg (storage s0)) as [st [cfg'|e|]]; [|done|done].
  by rewrite IH.
Qed.

(** A turn whose call is cut by the timeout ends the loop. *)
Lemma retry_loop_timeout c net url config remaining attempt last s deadline :
  timer s = Some deadline →
  deadline <= clock s + Z.max 0 (latency (net attempt)) →
  ∃ s', retry_loop c net url config (S remaining) attempt last s
        = (s', Throw JsError.AbortError)
        ∧ log s' = log s ++ [EvFetch url config]
        ∧ storage s' = storage s.
Proof.
  intros Ht Hlate.
  destruct (fetch_aborts net attempt url config s deadline Ht Hlate)
    as (s1 & Hfetch & Hlog & Hst).
  exists (clearTimeout s1). split; [|done].
  rewrite retry_loop_S. unfold attempt_once, bind. rewrite Hfetch. reflexivity.
Qed.

Lemma retry_loop_log_prefix c net url config remaining attempt last s :
  ∃ l, log (fst (retry_loop c net url config remaining attempt last s))
       = log s ++ l.
Proof.
  revert attempt last s.
  induction remaining as [|remaining IH]; intros attempt last s.
  - exists []. simpl. by rewrite app_nil_r.
  - rewrite retry_loop_S.
    pose proof (attempt_once_turn c net url config attempt s) as H.
    pose proof (fetch_log net attempt url config s) as Hfl.
    assert (Hpre : ∃ l, log (fst (attempt_once c net url config attempt s))
                        = log s ++ l).
    { destruct (fetch net attempt url config s) as [s1 [response|e|]];
        simpl in Hfl.
      - destruct H as (n & _ & -> & _). rewrite Hfl, <- app_assoc. by eexists.
      - destruct H as [-> _]. by eexists.
      - destruct H as [-> _]. by eexists. }
    destruct Hpre as [l1 Hl1].
    destruct (attempt_once c net url config attempt s) as [s1 [response|e|]];
      simpl in Hl1; [by exists l1| |by exists l1].
    destruct (no_retry e); [by exists l1|].
    destruct (IH (S attempt) (Some e)
                (if Z.of_nat attempt <? retryAttempts c
                 then delay (retryDelay c * 2 ^ Z.of_nat attempt) s1
                 else s1)) as [l2 ->].
    destruct (Z.of_nat attempt <? retryAttempts c); simpl;
      rewrite Hl1, <- ?app_assoc; by eexists.
Qed.

(** With no headers among the options, every client without request
    interceptors sends a [FormData] body under its default headers. *)
Lemma post_formdata_default_headers c net url entries s :
  request_interceptors c = [] → 0 <= retryAttempts c →
  ∃ rest,
    log (fst (post c net url (Some (FormData entries)) no_options s))
    = log s
      ++ EvFetch (if startsWith url "http" then url else baseURL c +:+ url)
           {| method := "POST"; headers := defaultHeaders c;
              body := Some (BodyFormData entries) |}
      :: rest.
Proof.
  intros Hnone Hbudget. unfold post, request, bind. rewrite Hnone. simpl.
  destruct (Z.to_nat (retryAttempts c + 1)) as [|n] eqn:Hn; [lia|].
  set (fullURL := if startsWith url "http" then url else baseURL c +:+ url).
  set (config := {| method := "POST"; headers := defaultHeaders c;
                    body := Some (BodyFormData entries) |}).
  set (s0 := setTimeout (timeout c) s).
  assert (Hloop : ∃ rest,
             log (fst (retry_loop c net fullURL config (S n) 0 None s0))
             = log s ++ EvFetch fullURL config :: rest).
  { rewrite retry_loop_S.
    pose proof (attempt_once_turn c net fullURL config 0 s0) as H.
    pose proof (fetch_log net 0 fullURL config s0) as Hfl.
    assert (Hpre : ∃ l, log (fst (attempt_once c net fullURL config 0 s0))
                        = log s ++ EvFetch fullURL config :: l).
    { destruct (fetch net 0 fullURL config s0) as [s1 [response|e|]];
        simpl in Hfl.
      - destruct H as (k & _ & -> & _). rewrite Hfl, <- app_assoc. by eexists.
      - destruct H as [-> _]. by eexists.
      - destruct H as [-> _]. by eexists. }
    destruct Hpre as [l1 Hl1].
    destruct (attempt_once c net fullURL config 0 s0) as [s1 [response|e|]];
      simpl in Hl1; [by exists l1| |by exists l1].
    destruct (no_retry e); [by exists l1|].
    destruct (retry_loop_log_prefix c net fullURL config n 1 (Some e)
                (if Z.of_nat 0 <? retryAttempts c
                 then delay (retryDelay c * 2 ^ Z.of_nat 0) s1
                 else s1)) as [l2 ->].
    destruct (Z.of_nat 0 <? retryAttempts c); simpl;
      rewrite Hl1, <- ?app_assoc; by eexists. }
  destruct Hloop as [rest Hrest].
  destruct (retry_loop c net fullURL config (S n) 0 None s0)
    as [s' [response|e|]]; simpl in Hrest; [|by exists rest|by exists rest].
  exists rest. unfold parseResponse.
  destruct (Response.contentType response) as [ct|]; [|done].
  destruct (includes ct "application/json"); [|done].
  by destruct (Response.json response).
Qed.

(** A turn answered with 503, with turns to spare: the loop waits
    [retryDelay * 2^attempt] and goes on. *)
Lemma retry_loop_503 c net url cfg remaining attempt last s r :
  in_time net attempt s → outcome (net attempt) = Resolves r →
  return_normally (response_interceptors c) →
  Response.status r = 503 → Z.of_nat attempt < retryAttempts c →
  ∃ s1 e,
    retry_loop c net url cfg (S remaining) attempt last s
    = retry_loop c net url cfg remaining (S attempt) (Some e) s1
    ∧ timer s1 = None
    ∧ clock s1 >= clock s + retryDelay c * 2 ^ Z.of_nat attempt
    ∧ total_delay (log s1)
      = total_delay (log s) + retryDelay c * 2 ^ Z.of_nat attempt.
Proof.
  intros Htime Hout Hok Hst Hbudget.
  destruct (attempt_once_resolved c net url cfg attempt s r Htime Hout Hok)
    as (s1 & Hatt & Htimer & Hclock & Hlog).
  rewrite retry_loop_S, Hatt.
  unfold Response.ok. rewrite Hst. simpl.
  destruct (Z.ltb_spec (Z.of_nat attempt) (retryAttempts c)); [|lia].
  eexists _, _. split; [reflexivity|].
  unfold delay. simpl. rewrite Htimer, Hclock, !total_delay_app, Hlog.
  rewrite total_delay_app. simpl. rewrite total_delay_interceptor_calls.
  simpl. split; [done|]. split; lia.
Qed.

End HttpFacts.

(** C1, as amended. Expiry of the timeout is not retried. Whenever a turn
    of the retry loop has its call cut by the timeout (or finds the signal
    aborted already), the loop ends there and the [AbortError] goes to the
    caller, however many turns remain; no further call and no wait follow.
    So a request whose first call outlasts the timeout makes that one call
    and throws the [AbortError], whatever [retryAttempts] is. *)
Theorem timeout_ends_retry_loop (c : HttpClient.t) (net : Network)
    (url : string) :
  (∀ config remaining attempt lastError s deadline,
     timer s = Some deadline →
     deadline <= clock s + Z.max 0 (latency (net attempt)) →
     ∃ s', HttpClient.retry_loop c net url config (S remaining) attempt
             lastError s
           = (s', Throw JsError.AbortError)
           ∧ log s' = log s ++ [EvFetch url config]
           ∧ storage s' = storage s)
  ∧ (∀ options s,
       HttpSpec.requests_pass (HttpClient.request_interceptors c) →
       0 <= HttpClient.retryAttempts c →
       Z.max 0 (HttpClient.timeout c) <= Z.max 0 (latency (net 0%nat)) →
       ∃ s' fullURL config,
         HttpClient.request c net url options s
         = (s', Throw JsError.AbortError)
         ∧ HttpSpec.fetches (log s')
           = HttpSpec.fetches (log s) ++ [EvFetch fullURL config]
         ∧ HttpSpec.total_delay (log s') = HttpSpec.total_delay (log s)).
Proof.
  split; [intros; by eapply retry_loop_timeout|].
  intros options s Hpass Hbudget Hslow.
  unfold HttpClient.request, bind.
  pose proof (apply_request_interceptors_fetches
                (HttpClient.request_interceptors c) 0
                {| method := default "GET" (opt_method options);
                   headers := default (HttpClient.defaultHeaders c)
                                (opt_headers options);
                   body := opt_body options |} s) as Hf.
  destruct (apply_request_interceptors_spec
              (HttpClient.request_interceptors c) 0
              {| method := default "GET" (opt_method options);
                 headers := default (HttpClient.defaultHeaders c)
                              (opt_headers options);
                 body := opt_body options |} s Hpass)
    as (sa & config & Heq & Hclock & _ & Hdelay).
  rewrite Heq in Hf |- *. simpl in Hf.
  destruct (Z.to_nat (HttpClient.retryAttempts c + 1)) as [|n] eqn:Hn; [lia|].
  edestruct (retry_loop_timeout c net
               (if startsWith url "http" then url
                else HttpClient.baseURL c +:+ url)
               config n 0 None (setTimeout (HttpClient.timeout c) sa))
    as (s' & -> & Hlog & _); [reflexivity | simpl; lia |].
  exists s'. eexists _, _. split; [reflexivity|].
  rewrite Hlog, fetches_app, total_delay_app. simpl.
  rewrite Hf, Hdelay. split; [done | lia].
Qed.

Lemma timeout_ends_retry_loop_witness :
  ∃ s' fullURL config,
    HttpClient.request (ApiService.client ApiService.new)
      (HttpSpec.always 40000 200 "OK") "/api/images" no_options
      (HttpSpec.init ∅)
    = (s', Throw JsError.AbortError)
    ∧ HttpSpec.fetches (log s') = [] ++ [EvFetch fullURL config]
    ∧ HttpSpec.total_delay (log s') = 0.
Proof.
  apply (proj2 (timeout_ends_retry_loop (ApiService.client ApiService.new)
                  (HttpSpec.always 40000 200 "OK") "/api/images")
           no_options (HttpSpec.init ∅)).
  - repeat constructor. intros cfg st.
    unfold ApiService.auth_interceptor.
    destruct (ApiService.getAuthToken st) as [tok|]; [|by eexists].
    destruct (String.eqb tok EmptyString); by eexists.
  - vm_compute. discriminate.
  - vm_compute. discriminate.
Defined.

(** C1, as stated, fails: with the default client (three retries, timeout
    30 s) a first call that takes 40 s is aborted and no second call is
    made. *)
Lemma timeout_is_not_retried :
  ¬ HttpSpec.timeout_is_retried (ApiService.client ApiService.new)
      (HttpSpec.always 40000 200 "OK") "/api/images" no_options ∅.
Proof.
  intros H.
  specialize (H ltac:(vm_compute; discriminate) ltac:(reflexivity)).
  vm_compute in H. lia.
Qed.

(** C2, as amended. In every turn of the retry loop the response
    interceptors are called, in registration order, on the response that
    the call yields, whatever its HTTP status, before the status is looked
    at; every one of them is called unless one throws. When the call
    yields no response (it rejects or is aborted) none is called. A
    response that [request] returns has a success status and is returned
    right after all the interceptors were called on it, in registration
    order. *)
Theorem response_interceptors_order (c : HttpClient.t) (net : Network)
    (url : string) :
  (∀ config attempt s,
     match fetch net attempt url config s with
     | (s1, Return response) =>
         ∃ n, (n ≤ length (HttpClient.response_interceptors c))%nat
           ∧ log (fst (HttpClient.attempt_once c net url config attempt s))
             = log s1 ++ HttpSpec.interceptor_calls 0 n response
           ∧ (HttpSpec.return_normally (HttpClient.response_interceptors c) →
              n = length (HttpClient.response_interceptors c))
           ∧ (∀ r, snd (HttpClient.attempt_once c net url config attempt s)
                   = Return r →
                   r = response ∧ Response.ok response = true
                   ∧ n = length (HttpClient.response_interceptors c))
     | (s1, thrown) =>
         HttpClient.attempt_once c net url config attempt s = (s1, thrown)
         ∧ log s1 = log s ++ [EvFetch url config]
     end)
  ∧ (∀ options s s' r,
       HttpClient.request c net url options s = (s', Return r) →
       Response.ok r = true
       ∧ ∃ l fullURL config,
           log s' = l ++ EvFetch fullURL config
                      :: HttpSpec.interceptor_calls 0
                           (length (HttpClient.response_interceptors c)) r).
Proof.
  split; [intros; apply attempt_once_turn|].
  intros options s s' r. unfold HttpClient.request, bind.
  destruct (HttpClient.apply_request_interceptors _ _ _ _)
    as [s0 [config| |]]; [|discriminate|discriminate].
  intros Hloop. apply retry_loop_returns in Hloop as (l & Hlog & Hok).
  split; [done|]. by eexists _, _, _.
Qed.

Lemma response_interceptors_order_witness :
  log (fst (HttpClient.attempt_once (ApiService.client ApiService.new)
              (HttpSpec.always 10 500 "Internal Server Error") "/api/user"
              (mkConfig "GET" ∅ None) 0 (HttpSpec.init ∅)))
  = [ EvFetch "/api/user" (mkConfig "GET" ∅ None);
      EvResponseInterceptor 0 (HttpSpec.respond 500 "Internal Server Error") ].
Proof.
  pose proof (proj1 (response_interceptors_order
                       (ApiService.client ApiService.new)
                       (HttpSpec.always 10 500 "Internal Server Error")
                       "/api/user")
                (mkConfig "GET" ∅ None) 0%nat (HttpSpec.init ∅)) as H.
  simpl in H. destruct H as (n & _ & Hlog & Hall & _).
  rewrite Hlog, Hall; [reflexivity|].
  repeat constructor.
  intros r st. unfold ApiService.unauthorized_interceptor.
  by destruct (_ =? _).
Defined.

(** C2, as stated, fails: on a 401 answer the response interceptor of the
    API service is called (it removes the stored token) and the request
    then throws the [HttpError]. *)
Lemma response_interceptor_runs_on_401 :
  let run := HttpClient.request (ApiService.client ApiService.new)
               (HttpSpec.always 10 401 "Unauthorized") "/api/user" no_options
               (HttpSpec.init HttpSpec.token) in
  ¬ HttpSpec.interceptors_only_on_success (log (fst run))
  ∧ storage (fst run) !! ApiService.token_key = None
  ∧ snd run = Throw (JsError.HttpError 401 "Unauthorized").
Proof.
  intros run. split; [|split; vm_compute; reflexivity].
  intros H.
  specialize (H 0%nat (HttpSpec.respond 401 "Unauthorized")).
  assert (Hok : Response.ok (HttpSpec.respond 401 "Unauthorized") = true).
  { apply H. apply list_elem_of_In. vm_compute. right. right. left.
    reflexivity. }
  vm_compute in Hok. discriminate.
Qed.

(** C3 fails on the code: [post] with [FormData] and no [options] hands
    [fetch] a request that still carries the default header
    [Content-Type: application/json]. *)
Lemma post_formdata_keeps_json_content_type :
  let entries := [("image", FileValue "cat.png" "image/png" 2048)] in
  log (fst (HttpClient.post (HttpClient.new HttpClient.no_settings)
              (HttpSpec.always 10 200 "OK") "/api/upload"
              (Some (FormData entries)) no_options (HttpSpec.init ∅)))
  = [ EvFetch "http://localhost:5001/api/upload"
        {| method := "POST";
           headers := {[ "Content-Type" := "application/json" ]};
           body := Some (BodyFormData entries) |} ].
Proof. vm_compute. reflexivity. Qed.

(** C10. [logout] always returns, without an error, and the token is gone
    from the store afterwards, whatever the client and whatever the
    network does. *)
Theorem logout_always_removes_token (api : ApiService.t) (net : Network)
    (s : Run) :
  ∃ s', ApiService.logout api net s = (s', Return tt)
        ∧ storage s' !! ApiService.token_key = None.
Proof.
  unfold ApiService.logout.
  destruct (HttpClient.post _ _ _ _ _ _) as [s1 res].
  eexists. split; [reflexivity|]. simpl.
  unfold ApiService.removeAuthToken. apply lookup_delete_eq.
Qed.

(** C5. With [retryAttempts >= 2], a request whose first two calls are
    answered 503 and whose third call is answered with a success status
    returns that third response; the loop has waited [retryDelay] and then
    [2 * retryDelay] on the way, so at least [retryDelay + 2 * retryDelay]
    has passed. (The interceptors are taken not to throw and the first
    answer to arrive before the timeout.) *)
Theorem retry_503_twice_then_success (c : HttpClient.t) (net : Network)
    (url : string) (options : Options) (s : Run) (r0 r1 r2 : Response.t) :
  2 <= HttpClient.retryAttempts c →
  HttpSpec.requests_pass (HttpClient.request_interceptors c) →
  HttpSpec.return_normally (HttpClient.response_interceptors c) →
  Z.max 0 (latency (net 0%nat)) < Z.max 0 (HttpClient.timeout c) →
  outcome (net 0%nat) = Resolves r0 → Response.status r0 = 503 →
  outcome (net 1%nat) = Resolves r1 → Response.status r1 = 503 →
  outcome (net 2%nat) = Resolves r2 → Response.ok r2 = true →
  ∃ s', HttpClient.request c net url options s = (s', Return r2)
    ∧ HttpSpec.total_delay (log s')
      = HttpSpec.total_delay (log s)
        + (HttpClient.retryDelay c + 2 * HttpClient.retryDelay c)
    ∧ clock s' - clock s
      >= HttpClient.retryDelay c + 2 * HttpClient.retryDelay c.
Proof.
  intros Hbudget Hreq Hresp Hfirst H0 Hs0 H1 Hs1 H2 Hok2.
  unfold HttpClient.request, bind.
  destruct (apply_request_interceptors_spec
              (HttpClient.request_interceptors c) 0
              {| method := default "GET" (opt_method options);
                 headers := default (HttpClient.defaultHeaders c)
                              (opt_headers options);
                 body := opt_body options |} s Hreq)
    as (sa & config & -> & Hclock_a & Htimer_a & Hdelay_a).
  set (fullURL := if startsWith url "http" then url
                  else HttpClient.baseURL c +:+ url).
  destruct (Z.to_nat (HttpClient.retryAttempts c + 1)) as [|[|[|n]]] eqn:Hn;
    [lia | lia | lia |].
  destruct (retry_loop_503 c net fullURL config (S (S n)) 0 None
              (setTimeout (HttpClient.timeout c) sa) r0)
    as (s1 & e1 & -> & Htimer1 & Hclock1 & Hdelay1);
    [unfold HttpSpec.in_time; simpl; lia | done | done | done | simpl; lia |].
  destruct (retry_loop_503 c net fullURL config (S n) 1 (Some e1) s1 r1)
    as (s2 & e2 & -> & Htimer2 & Hclock2 & Hdelay2);
    [unfold HttpSpec.in_time; by rewrite Htimer1 | done | done | done
    | simpl; lia |].
  destruct (attempt_once_resolved c net fullURL config 2 s2 r2)
    as (s3 & Hatt & Htimer3 & Hclock3 & Hlog3);
    [unfold HttpSpec.in_time; by rewrite Htimer2 | done | done |].
  exists s3. rewrite retry_loop_S, Hatt, Hok2. split; [done|].
  rewrite Hlog3, total_delay_app. simpl.
  rewrite total_delay_interceptor_calls, Hdelay2, Hdelay1. simpl in *.
  rewrite Hdelay_a. split; [lia|].
  change (2 ^ Z.of_nat 1) with 2 in Hclock2.
  change (2 ^ 0) with 1 in Hclock1. lia.
Qed.

Lemma retry_503_twice_then_success_witness :
  ∃ s', HttpClient.request (ApiService.client ApiService.new)
          HttpSpec.twice_503 "/api/images" no_options
          (HttpSpec.init HttpSpec.token)
        = (s', Return (HttpSpec.respond 200 "OK"))
    ∧ HttpSpec.total_delay (log s') = 0 + (1000 + 2 * 1000)
    ∧ clock s' - 0 >= 1000 + 2 * 1000.
Proof.
  apply (retry_503_twice_then_success (ApiService.client ApiService.new)
           HttpSpec.twice_503 "/api/images" no_options
           (HttpSpec.init HttpSpec.token)
           (HttpSpec.respond 503 "Service Unavailable")
           (HttpSpec.respond 503 "Service Unavailable")
           (HttpSpec.respond 200 "OK")).
  - vm_compute. discriminate.
  - repeat constructor. intros cfg st.
    unfold ApiService.auth_interceptor.
    destruct (ApiService.getAuthToken st) as [tok|]; [|by eexists].
    destruct (String.eqb tok EmptyString); by eexists.
  - repeat constructor. intros r st.
    unfold ApiService.unauthorized_interceptor. by destruct (_ =? _).
  - vm_compute. reflexivity.
  - reflexivity.
  - reflexivity.
  - reflexivity.
  - reflexivity.
  - reflexivity.
  - reflexivity.
Defined.

(** ** The gallery *)

Section GalleryFacts.
Import GalleryManager.


End GalleryFacts.




(** ** The upload queue *)

Section UploadFacts.
Import UploadManager UploadSpec.

Lemma milestones_app l1 l2 :
  milestones (l1 ++ l2) = milestones l1 ++ milestones l2.
Proof. unfold milestones. apply List.filter_app. Qed.

Lemma simulate_spec steps it s :
  milestones (log (fst (simulate steps it s))) = milestones (log s)
  ∧ id (snd (simulate steps it s)) = id it
  ∧ status (snd (simulate steps it s)) = status it
  ∧ error (snd (simulate steps it s)) = error it.
Proof.
  revert it s. induction steps as [|i steps IH]; intros it s; [done|].
  simpl. destruct (IH (set_progress it i) (delay 100 s))
    as (Hlog & Hid & Hst & Herr).
  rewrite Hlog, Hid, Hst, Herr. unfold delay. simpl.
  rewrite milestones_app. simpl. by rewrite app_nil_r.
Qed.

(** What one [uploadFile] leaves behind: the item is shown as uploading,
    one request is sent, and the item is shown as completed exactly when
    the call returns. *)
Lemma uploadFile_spec mockId reply it s :
  ∃ s' it' res,
    uploadFile mockId reply it s = (s', it', res)
    ∧ id it' = id it ∧ error it' = error it
    ∧ match res with
      | Return _ =>
          status it' = Status.completed
          ∧ milestones (log s')
            = milestones (log s)
              ++ [ EvStatus (id it) Status.uploading "Uploading...";
                   upload_request it;
                   EvStatus (id it) Status.completed "Upload complete" ]
      | _ =>
          status it' = Status.uploading
          ∧ milestones (log s')
            = milestones (log s)
              ++ [ EvStatus (id it) Status.uploading "Uploading...";
                   upload_request it ]
      end.
Proof.
  unfold uploadFile, plain_fetch, updateUploadItemStatus.
  set (it0 := set_status it Status.uploading).
  set (s0 := advance _ _).
  assert (Hs0 : milestones (log s0)
                = milestones (log s)
                  ++ [ EvStatus (id it) Status.uploading "Uploading...";
                       upload_request it ]).
  { subst s0. simpl. rewrite <- app_assoc, milestones_app. reflexivity. }
  destruct (simulate_spec progress_steps it0 s0) as (Hlog & Hid & _ & Herr).
  destruct (simulate progress_steps it0 s0) as [s1 it1] eqn:Hsim.
  cbn [fst snd] in Hlog, Hid, Herr.
  destruct (outcome reply) as [r|e]; simpl;
    [destruct (Response.ok r); simpl;
     [destruct (Response.json r) as [v|]; simpl|]|];
    try rewrite Hsim;
    repeat match goal with
           | |- context [includes ?m "fetch"] =>
               destruct (includes m "fetch")
           end;
    eexists _, _, _; (split; [reflexivity|]); simpl;
    rewrite ?Hid, ?Herr;
    (split; [done|]); (split; [done|]); (split; [done|]);
    rewrite ?milestones_app, ?Hlog, ?Hs0; simpl;
    rewrite <- ?app_assoc; done.
Qed.

Lemma upload_each_cons gid net i it rest counts s :
  upload_each gid net i (it :: rest) counts s
  = match uploadFile (gid i) (net i) it s with
    | (s1, it1, Return _) =>
        let '(s2, rest', counts') :=
          upload_each gid net (S i) rest (fst counts + 1, snd counts) s1 in
        (s2, it1 :: rest', counts')
    | (s1, it1, Throw e) =>
        let it2 := set_error (set_status it1 Status.error)
                     (JsError.message e) in
        let s1 := updateUploadItemStatus it2 s1 in
        let '(s2, rest', counts') :=
          upload_each gid net (S i) rest (fst counts, snd counts + 1) s1 in
        (s2, it2 :: rest', counts')
    | (s1, it1, ThrowUndefined) => (s1, it1 :: rest, counts)
    end.
Proof. reflexivity. Qed.

End UploadFacts.

(** C8. A queue of three valid files whose second upload fails while the
    others succeed is worked through in order, one upload after the other:
    the failure does not stop the batch, the third file is uploaded, and
    the items end as completed, error (with the message of the failure),
    completed. *)
Theorem upload_batch_survives_failure (generateId : nat -> string)
    (net : Network) (m : UploadManager.t) (s : Run)
    (it1 it2 it3 : UploadManager.UploadItem) (e : JsError.t) :
  UploadManager.uploadQueue m = [it1; it2; it3] →
  UploadManager.isUploading m = false →
  UploadManager.validateFile (UploadManager.file it1) = true →
  UploadManager.validateFile (UploadManager.file it2) = true →
  UploadManager.validateFile (UploadManager.file it3) = true →
  (∀ s0, ∃ v, snd (UploadManager.uploadFile (generateId 0%nat) (net 0%nat)
                     it1 s0) = Return v) →
  (∀ s0, snd (UploadManager.uploadFile (generateId 1%nat) (net 1%nat) it2 s0)
         = Throw e) →
  (∀ s0, ∃ v, snd (UploadManager.uploadFile (generateId 2%nat) (net 2%nat)
                     it3 s0) = Return v) →
  let run := UploadManager.startUpload generateId net m s in
  map UploadManager.status (UploadManager.uploadQueue (snd run))
  = [Status.completed; Status.error; Status.completed]
  ∧ map UploadManager.id (UploadManager.uploadQueue (snd run))
    = [UploadManager.id it1; UploadManager.id it2; UploadManager.id it3]
  ∧ map UploadManager.error (UploadManager.uploadQueue (snd run))
    = [UploadManager.error it1; Some (JsError.message e);
       UploadManager.error it3]
  ∧ UploadManager.isUploading (snd run) = false
  ∧ UploadSpec.milestones (log (fst run))
    = UploadSpec.milestones (log s)
      ++ [ EvStatus (UploadManager.id it1) Status.uploading "Uploading...";
           UploadSpec.upload_request it1;
           EvStatus (UploadManager.id it1) Status.completed "Upload complete";
           EvStatus (UploadManager.id it2) Status.uploading "Uploading...";
           UploadSpec.upload_request it2;
           EvStatus (UploadManager.id it2) Status.error
             (UploadManager.getStatusText Status.error
                (Some (JsError.message e)));
           EvStatus (UploadManager.id it3) Status.uploading "Uploading...";
           UploadSpec.upload_request it3;
           EvStatus (UploadManager.id it3) Status.completed "Upload complete" ].
Proof.
  intros Hq Hidle _ _ _ Hfirst Hsecond Hthird run. subst run.
  unfold UploadManager.startUpload. rewrite Hq, Hidle.
  cbn [orb length Nat.eqb].
  destruct (uploadFile_spec (generateId 0%nat) (net 0%nat) it1 s)
    as (s1 & f1 & res1 & E1 & Hid1 & Herr1 & H1).
  destruct (Hfirst s) as [v1 Hv1]. rewrite E1 in Hv1. simpl in Hv1.
  subst res1. destruct H1 as [Hst1 Hlog1].
  rewrite upload_each_cons, E1.
  destruct (uploadFile_spec (generateId 1%nat) (net 1%nat) it2 s1)
    as (s2 & f2 & res2 & E2 & Hid2 & Herr2 & H2).
  specialize (Hsecond s1). rewrite E2 in Hsecond. simpl in Hsecond.
  subst res2. destruct H2 as [Hst2 Hlog2].
  rewrite upload_each_cons, E2. cbv zeta.
  set (f2' := UploadManager.set_error _ _).
  set (s2' := UploadManager.updateUploadItemStatus f2' s2).
  destruct (uploadFile_spec (generateId 2%nat) (net 2%nat) it3 s2')
    as (s3 & f3 & res3 & E3 & Hid3 & Herr3 & H3).
  destruct (Hthird s2') as [v3 Hv3]. rewrite E3 in Hv3. simpl in Hv3.
  subst res3. destruct H3 as [Hst3 Hlog3].
  rewrite upload_each_cons, E3. simpl.
  rewrite Hst1, Hst3, Hid1, Hid2, Hid3, Herr1, Herr3.
  repeat (split; [reflexivity|]).
  rewrite (milestones_app (log s3)). simpl. rewrite app_nil_r, Hlog3.
  subst s2'. unfold UploadManager.updateUploadItemStatus. simpl.
  rewrite (milestones_app (log s2)), Hlog2, Hlog1, Hid2. simpl.
  by rewrite <- !app_assoc.
Qed.

Lemma upload_batch_survives_failure_witness :
  let run := UploadManager.startUpload UploadSpec.ids UploadSpec.second_fails
               UploadSpec.three_files (HttpSpec.init ∅) in
  map UploadManager.status (UploadManager.uploadQueue (snd run))
  = [Status.completed; Status.error; Status.completed]
  ∧ map UploadManager.error (UploadManager.uploadQueue (snd run))
    = [None; Some "Upload failed: Internal Server Error"; None].
Proof.
  pose proof (upload_batch_survives_failure UploadSpec.ids
                UploadSpec.second_fails UploadSpec.three_files
                (HttpSpec.init ∅)
                (UploadSpec.queued "u1" (UploadSpec.png "a.png" 1000))
                (UploadSpec.queued "u2" (UploadSpec.png "b.png" 2000))
                (UploadSpec.queued "u3" (UploadSpec.png "c.png" 3000))
                (JsError.Error "Upload failed: Internal Server Error")
                eq_refl eq_refl eq_refl eq_refl eq_refl) as H.
  destruct H as (Hst & _ & Herr & _).
  - intros s0. by eexists.
  - intros s0. reflexivity.
  - intros s0. by eexists.
  - split; [exact Hst | exact Herr].
Defined.

(** * Further properties *)

(** ** The cache *)

Section CacheMore.
Import CacheManager CacheSpec.
Implicit Types (c : CacheManager.t) (k : string) (v : JsValue).

Lemma JsMap_length_set {V} (m : JsMap.t V) k (x : V) :
  length (JsMap.set m k x)
  = match JsMap.get m k with
    | Some _ => length m
    | None => S (length m)
    end.
Proof.
  induction m as [|[k1 v1] m IH]; simpl; [done|].
  destruct (String.eqb_spec k1 k); simpl; [done|].
  rewrite IH. by destruct (JsMap.get m k).
Qed.

Lemma JsMap_length_delete {V} (m : JsMap.t V) k :
  length (JsMap.delete m k)
  = match JsMap.get m k with
    | Some _ => pred (length m)
    | None => length m
    end.
Proof.
  induction m as [|[k1 v1] m IH]; simpl; [done|].
  destruct (String.eqb_spec k1 k); simpl; [done|].
  rewrite IH. destruct (JsMap.get m k) eqn:Hget; [|done].
  destruct m; [done | reflexivity].
Qed.

Lemma JsMap_length_delete_le {V} (m : JsMap.t V) k :
  (length (JsMap.delete m k) ≤ length m)%nat.
Proof.
  rewrite JsMap_length_delete. destruct (JsMap.get m k); lia.
Qed.

Lemma set_size_le c now k v age :
  JsMap.size c <= maxSize → JsMap.size (set c now k v age) <= maxSize.
Proof.
  unfold set, JsMap.size, maxSize. intros Hle.
  destruct (Z.geb_spec (Z.of_nat (length c)) 100) as [Hfull|Hroom].
  - destruct c as [|[k0 e0] rest]; simpl in *; [lia|].
    rewrite String.eqb_refl, JsMap_length_set.
    destruct (JsMap.get rest k); lia.
  - rewrite JsMap_length_set. destruct (JsMap.get c k); lia.
Qed.

Lemma get_size_le c now k :
  JsMap.size (fst (get c now k)) <= JsMap.size c.
Proof.
  unfold get, JsMap.size.
  destruct (JsMap.get c k) as [e|]; [|simpl; lia].
  destruct (expired now e); simpl; [|lia].
  pose proof (JsMap_length_delete_le c k). lia.
Qed.

Lemma get_keeps_NoDup c now k :
  NoDup (JsMap.keys c) → NoDup (JsMap.keys (fst (get c now k))).
Proof.
  intros Hnd. unfold get.
  destruct (JsMap.get c k) as [e|]; [|done].
  destruct (expired now e); simpl; [by apply JsMap_NoDup_delete | done].
Qed.

Lemma has_fst c now k : fst (has c now k) = fst (get c now k).
Proof. unfold has. by destruct (get c now k). Qed.

End CacheMore.

(** X1. Whatever calls are made on a new cache, in whatever order and at
    whatever times, it never holds more than [maxSize] (100) entries and
    never two entries for one key. *)
Theorem cache_never_exceeds_capacity (ops : list CacheSpec.Call) :
  JsMap.size (CacheSpec.after ops) <= CacheManager.maxSize
  ∧ NoDup (JsMap.keys (CacheSpec.after ops)).
Proof.
  unfold CacheSpec.after.
  assert (H0 : JsMap.size CacheManager.new <= CacheManager.maxSize
               ∧ NoDup (JsMap.keys CacheManager.new)).
  { split; [vm_compute; discriminate | apply NoDup_nil_2]. }
  revert H0. generalize CacheManager.new as c.
  induction ops as [|op ops IH]; intros c [Hsize Hnd]; [done|].
  simpl. apply IH. destruct op as [now k v age|now k|now k|k|]; simpl.
  - split; [by apply set_size_le | by apply set_keeps_NoDup].
  - split; [|by apply get_keeps_NoDup].
    pose proof (get_size_le c now k). lia.
  - rewrite has_fst. split; [|by apply get_keeps_NoDup].
    pose proof (get_size_le c now k). lia.
  - unfold CacheManager.delete. split; [|by apply JsMap_NoDup_delete].
    unfold JsMap.size in *. pose proof (JsMap_length_delete_le c k). lia.
  - split; [vm_compute; discriminate | apply NoDup_nil_2].
Qed.

(** ** The cache key *)

Section KeyFacts.

Lemma string_leb_trans s1 s2 s3 :
  String.leb s1 s2 = true → String.leb s2 s3 = true → String.leb s1 s3 = true.
Proof.
  unfold String.leb. revert s2 s3.
  induction s1 as [|a s1 IH]; intros [|b s2] [|c s3]; simpl; try done.
  unfold Ascii.compare.
  destruct (N.compare_spec (Ascii.N_of_ascii a) (Ascii.N_of_ascii b)),
           (N.compare_spec (Ascii.N_of_ascii b) (Ascii.N_of_ascii c)),
           (N.compare_spec (Ascii.N_of_ascii a) (Ascii.N_of_ascii c));
    try done; try lia.
  apply IH.
Qed.

Lemma sort_insert_Permutation k l : sort_insert k l ≡ₚ k :: l.
Proof.
  induction l as [|k' l IH]; simpl; [done|].
  destruct (String.leb k k'); [done|].
  rewrite IH. apply Permutation_swap.
Qed.

Lemma sort_strings_Permutation l : sort_strings l ≡ₚ l.
Proof.
  induction l as [|k l IH]; simpl; [done|].
  by rewrite sort_insert_Permutation, IH.
Qed.

Lemma sort_insert_sorted k l :
  StronglySorted string_le l → StronglySorted string_le (sort_insert k l).
Proof.
  induction l as [|k' l IH]; simpl; intros Hs.
  - repeat constructor.
  - apply StronglySorted_inv in Hs as [Hs Hall].
    destruct (String.leb k k') eqn:Hle.
    + constructor; [by constructor|].
      constructor; [done|].
      eapply Forall_impl; [exact Hall|].
      intros x Hx. by apply (string_leb_trans k k' x).
    + constructor; [by apply IH|].
      rewrite sort_insert_Permutation. constructor; [|done].
      destruct (String.leb_total k k') as [H|H]; [congruence | done].
Qed.

Lemma sort_strings_sorted l : StronglySorted string_le (sort_strings l).
Proof.
  induction l as [|k l IH]; simpl; [constructor | by apply sort_insert_sorted].
Qed.

Lemma sort_strings_unique l1 l2 :
  l1 ≡ₚ l2 → sort_strings l1 = sort_strings l2.
Proof.
  intros Hp.
  apply (StronglySorted_unique_strong string_le).
  - intros x1 x2 _ _. apply String.leb_antisym.
  - apply sort_strings_sorted.
  - apply sort_strings_sorted.
  - by rewrite !sort_strings_Permutation.
Qed.

Lemma JsMap_elem_get {V} (m : JsMap.t V) k (x : V) :
  NoDup (JsMap.keys m) → (k, x) ∈ m → JsMap.get m k = Some x.
Proof.
  induction m as [|[k1 v1] m IH]; simpl; [by rewrite elem_of_nil|].
  rewrite NoDup_cons, elem_of_cons. intros [Hnotin Hnd] [[= -> ->]|Hin].
  - by rewrite String.eqb_refl.
  - destruct (String.eqb_spec k1 k) as [->|_]; [|by apply IH].
    exfalso. apply Hnotin. unfold JsMap.keys.
    apply list_elem_of_fmap. by exists (k, x).
Qed.

Lemma JsMap_get_Permutation {V} (m1 m2 : JsMap.t V) k :
  NoDup (JsMap.keys m1) → m1 ≡ₚ m2 → JsMap.get m1 k = JsMap.get m2 k.
Proof.
  intros Hnd Hp.
  assert (Hnd2 : NoDup (JsMap.keys m2)).
  { unfold JsMap.keys in *. by rewrite <- Hp. }
  destruct (JsMap.get m1 k) as [x|] eqn:H1.
  - symmetry. apply JsMap_elem_get; [done|].
    rewrite <- Hp. by apply JsMap_get_Some_elem.
  - symmetry. apply JsMap_get_None. apply JsMap_get_None in H1.
    unfold JsMap.keys in *. by rewrite <- Hp.
Qed.

End KeyFacts.

(** X2. [generateKey] does not depend on the order in which the
    parameter object lists its properties: two objects with the same
    properties give the same key. *)
Theorem generateKey_order_independent (endpoint : string)
    (p1 p2 : JsMap.t JsValue) :
  NoDup (JsMap.keys p1) → p1 ≡ₚ p2 →
  CacheManager.generateKey endpoint p1 = CacheManager.generateKey endpoint p2.
Proof.
  intros Hnd Hp. unfold CacheManager.generateKey.
  rewrite (sort_strings_unique (JsMap.keys p1) (JsMap.keys p2))
    by (unfold JsMap.keys; by rewrite Hp).
  do 3 f_equal. apply map_ext. intros key.
  by rewrite (JsMap_get_Permutation p1 p2 key Hnd Hp).
Qed.

Lemma generateKey_order_independent_witness :
  CacheManager.generateKey "e" [("b", JNum 2); ("a", JNum 1)]
  = CacheManager.generateKey "e" [("a", JNum 1); ("b", JNum 2)]
  ∧ CacheManager.generateKey "e" [("a", JNum 1); ("b", JNum 2)] = "e?a=1&b=2".
Proof.
  split; [|reflexivity].
  apply generateKey_order_independent.
  - apply (bool_decide_unpack _). vm_compute. reflexivity.
  - apply Permutation_swap.
Defined.

(** X3. After [set(k, v, maxAge)] a read of [k] at time [t] returns [v]
    exactly while [t - now <= maxAge] (five minutes when the argument is
    left out) and is a miss that deletes the entry afterwards; below
    capacity, a read of any other key returns what it returned before. *)
Theorem cache_read_after_set (c : CacheManager.t) (now t : Z) (k k' : string)
    (v : JsValue) (age : option Z) :
  let c1 := CacheManager.set c now k v age in
  CacheManager.get c1 t k
  = (if t - now >? default CacheManager.default_maxAge age
     then (JsMap.delete c1 k, JNull) else (c1, v))
  ∧ (k' ≠ k → JsMap.size c < CacheManager.maxSize →
     JsMap.get c1 k' = JsMap.get c k'
     ∧ snd (CacheManager.get c1 t k') = snd (CacheManager.get c t k')).
Proof.
  intros c1. split.
  - unfold CacheManager.get. subst c1. rewrite get_set_same.
    unfold CacheManager.expired. simpl.
    by destruct (t - now >? default CacheManager.default_maxAge age).
  - intros Hne Hroom.
    assert (Hsame : JsMap.get c1 k' = JsMap.get c k').
    { subst c1. unfold CacheManager.set.
      destruct (Z.geb_spec (JsMap.size c) CacheManager.maxSize); [lia|].
      by apply JsMap_get_set_ne. }
    split; [done|]. unfold CacheManager.get. rewrite Hsame.
    destruct (JsMap.get c k') as [e|]; [|done].
    by destruct (CacheManager.expired t e).
Qed.

Lemma cache_read_after_set_witness :
  CacheManager.get (CacheManager.set CacheManager.new 100 "k" (JStr "v")
                      (Some 0)) 100 "k"
  = ([("k", CacheManager.mkEntry (JStr "v") 100 0)], JStr "v")
  ∧ snd (CacheManager.get
           (CacheManager.set
              (CacheManager.set CacheManager.new 100 "k" (JStr "v") None)
              200 "other" JNull None) 300 "k") = JStr "v".
Proof.
  split.
  - exact (proj1 (cache_read_after_set CacheManager.new 100 100 "k" "k"
                    (JStr "v") (Some 0))).
  - refine (eq_trans
      (proj2 (proj2 (cache_read_after_set
                (CacheManager.set CacheManager.new 100 "k" (JStr "v") None)
                200 300 "other" "k" JNull None) _ _)) _).
    + discriminate.
    + reflexivity.
    + reflexivity.
Defined.

(** X4. Writing a key that is already in a full cache still evicts: when
    the key is not the first one, the first key loses its entry and the
    cache shrinks by one; when it is the first one, its old entry is
    dropped and the key moves behind all others. *)
Theorem cache_overwrite_when_full (c : CacheManager.t) (now : Z) (k : string)
    (v : JsValue) (age : option Z) (k0 : string) (e0 : CacheManager.Entry)
    (rest : CacheManager.t) :
  c = (k0, e0) :: rest →
  NoDup (JsMap.keys c) →
  CacheManager.maxSize <= JsMap.size c →
  is_Some (JsMap.get c k) →
  let c' := CacheManager.set c now k v age in
  if String.eqb k0 k
  then JsMap.keys c' = JsMap.keys rest ++ [k] ∧ JsMap.size c' = JsMap.size c
  else JsMap.get c' k0 = None
       ∧ JsMap.keys c' = JsMap.keys rest
       ∧ JsMap.size c' = JsMap.size c - 1.
Proof.
  intros Hc Hnd Hfull Hin c'.
  assert (Hset : c' = JsMap.set rest k
                        (CacheManager.mkEntry v now
                           (default CacheManager.default_maxAge age)))
    by (apply (set_unfold_full c now k v age k0 e0 rest); [done | lia | done]).
  subst c. simpl in Hnd, Hin. apply NoDup_cons in Hnd as [Hk0 Hrest].
  assert (Hkeys : ∀ (m : CacheManager.t) x, is_Some (JsMap.get m k) →
            JsMap.keys (JsMap.set m k x) = JsMap.keys m).
  { intros m x. induction m as [|[k1 e1] m IH]; simpl.
    - by intros [? [=]].
    - destruct (String.eqb_spec k1 k) as [->|]; simpl; [done|].
      intros H. by rewrite IH. }
  destruct (String.eqb_spec k0 k) as [->|Hne].
  - apply JsMap_get_None in Hk0.
    rewrite Hset, (JsMap_set_absent rest k _ Hk0). unfold JsMap.keys, JsMap.size.
    rewrite fmap_app, length_app. simpl. split; [done | lia].
  - rewrite Hset. split; [|split].
    + rewrite JsMap_get_set_ne by done. by apply JsMap_get_None.
    + by apply Hkeys.
    + unfold JsMap.size. rewrite JsMap_length_set.
      destruct Hin as [e ->]. simpl. lia.
Qed.

Lemma cache_overwrite_when_full_witness :
  JsMap.get (CacheManager.set CacheSpec.written_once 500 "img7" JNull None)
    "img0" = None
  ∧ JsMap.size (CacheManager.set CacheSpec.written_once 500 "img7" JNull None)
    = 100 - 1.
Proof.
  assert (H : if String.eqb "img0" "img7"
              then JsMap.keys (CacheManager.set CacheSpec.written_once 500
                                 "img7" JNull None)
                   = JsMap.keys (tl CacheSpec.written_once) ++ ["img7"]
                   ∧ JsMap.size (CacheManager.set CacheSpec.written_once 500
                                   "img7" JNull None)
                     = JsMap.size CacheSpec.written_once
              else JsMap.get (CacheManager.set CacheSpec.written_once 500
                                "img7" JNull None) "img0" = None
                   ∧ JsMap.keys (CacheManager.set CacheSpec.written_once 500
                                   "img7" JNull None)
                     = JsMap.keys (tl CacheSpec.written_once)
                   ∧ JsMap.size (CacheManager.set CacheSpec.written_once 500
                                   "img7" JNull None)
                     = JsMap.size CacheSpec.written_once - 1).
  { apply (cache_overwrite_when_full CacheSpec.written_once 500 "img7"
             JNull None "img0" (CacheManager.mkEntry (JNum 0) 1 300000)
             (tl CacheSpec.written_once)).
    - vm_compute. reflexivity.
    - apply (bool_decide_unpack _). vm_compute. reflexivity.
    - vm_compute. discriminate.
    - vm_compute. by eexists. }
  change (String.eqb "img0" "img7") with false in H.
  destruct H as (Hgone & _ & Hsize).
  split; [exact Hgone|].
  rewrite Hsize. vm_compute. reflexivity.
Defined.

(** X5. [delete(k)] makes [k] a miss ([get] returns [null], [has] is
    [false]) and leaves the entry of every other key as it was; [clear()]
    makes every key a miss. *)
Theorem cache_delete_and_clear (c : CacheManager.t) (now : Z) (k k' : string) :
  NoDup (JsMap.keys c) →
  CacheManager.get (CacheManager.delete c k) now k
  = (CacheManager.delete c k, JNull)
  ∧ CacheManager.has (CacheManager.delete c k) now k
    = (CacheManager.delete c k, false)
  ∧ (k' ≠ k → JsMap.get (CacheManager.delete c k) k' = JsMap.get c k')
  ∧ CacheManager.get (CacheManager.clear c) now k' = ([], JNull).
Proof.
  intros Hnd. unfold CacheManager.delete, CacheManager.has, CacheManager.get.
  rewrite (JsMap_get_delete_eq c k Hnd).
  split; [done|]. split; [done|]. split; [|done].
  intros Hne. by apply JsMap_get_delete_ne.
Qed.

Lemma cache_delete_and_clear_witness :
  CacheManager.has
    (CacheManager.delete
       (CacheManager.set CacheManager.new 0 "k" (JStr "v") None) "k") 1 "k"
  = ([], false).
Proof.
  refine (proj1 (proj2 (cache_delete_and_clear
            (CacheManager.set CacheManager.new 0 "k" (JStr "v") None)
            1 "k" "k" _))).
  apply (bool_decide_unpack _). vm_compute. reflexivity.
Defined.

(** ** The HTTP client *)

Section HttpMore.
Import HttpClient HttpSpec.

Lemma attempt_once_rejected c net url cfg i s e :
  in_time net i s → outcome (net i) = Rejects e →
  attempt_once c net url cfg i s
  = (advance (latency (net i)) (emit (EvFetch url cfg) s), Throw e).
Proof.
  intros Htime Hout. unfold attempt_once, bind.
  by rewrite (fetch_settles _ _ _ _ _ Htime), Hout.
Qed.

Lemma request_unfold c net url options s :
  request c net url options s
  = match apply_request_interceptors (request_interceptors c) 0
            (initial_config c options) s with
    | (s0, Return config) =>
        retry_loop c net (fullURL c url) config
          (Z.to_nat (retryAttempts c + 1)) 0 None (setTimeout (timeout c) s0)
    | (s0, Throw e) => (s0, Throw e)
    | (s0, ThrowUndefined) => (s0, ThrowUndefined)
    end.
Proof. reflexivity. Qed.

Lemma no_retry_HttpError st text :
  ¬ (400 <= st < 500) → no_retry (JsError.HttpError st text) = false.
Proof.
  intros H. unfold no_retry. simpl.
  destruct (Z.leb_spec 400 st), (Z.ltb_spec st 500); simpl; try done. lia.
Qed.

(** A turn answered by a response that calls for a retry. *)
Lemma retry_loop_retryable c net url cfg remaining attempt last s r :
  in_time net attempt s → outcome (net attempt) = Resolves r →
  return_normally (response_interceptors c) → retryable r →
  ∃ s1,
    retry_loop c net url cfg (S remaining) attempt last s
    = retry_loop c net url cfg remaining (S attempt)
        (Some (JsError.HttpError (Response.status r) (Response.statusText r)))
        (if Z.of_nat attempt <? retryAttempts c
         then delay (retryDelay c * 2 ^ Z.of_nat attempt) s1 else s1)
    ∧ timer s1 = None
    ∧ fetches (log s1) = fetches (log s) ++ [EvFetch url cfg]
    ∧ total_delay (log s1) = total_delay (log s)
    ∧ clock s1 = clock s + Z.max 0 (latency (net attempt)).
Proof.
  intros Htime Hout Hok [Hbad Hnot4].
  destruct (attempt_once_resolved c net url cfg attempt s r Htime Hout Hok)
    as (s1 & Hatt & Htimer & Hclock & Hlog).
  rewrite retry_loop_S, Hatt, Hbad, (no_retry_HttpError _ _ Hnot4).
  exists s1. split; [done|]. split; [done|].
  rewrite Hlog, fetches_app, total_delay_app. simpl.
  rewrite total_delay_interceptor_calls.
  assert (Hnone : ∀ n i, fetches (interceptor_calls i n r) = []).
  { unfold interceptor_calls. induction n as [|n IH]; intros i; simpl; auto. }
  rewrite Hnone. split; [done|]. split; [lia | done].
Qed.

(** The loop from turn [attempt] on when every call from there on is
    answered by a response that calls for a retry. *)
Lemma retry_loop_all_retryable c net url cfg (replies : nat → Response.t) :
  return_normally (response_interceptors c) →
  (∀ i, outcome (net i) = Resolves (replies i)) →
  (∀ i, retryable (replies i)) →
  ∀ remaining attempt last s,
    in_time net attempt s →
    Z.of_nat attempt + Z.of_nat (S remaining) = retryAttempts c + 1 →
    ∃ s',
      retry_loop c net url cfg (S remaining) attempt last s
      = (s', Throw (JsError.HttpError
                      (Response.status (replies (attempt + remaining)%nat))
                      (Response.statusText (replies (attempt + remaining)%nat))))
      ∧ fetches (log s')
        = fetches (log s) ++ replicate (S remaining) (EvFetch url cfg)
      ∧ total_delay (log s')
        = total_delay (log s)
          + retryDelay c * (2 ^ retryAttempts c - 2 ^ Z.of_nat attempt).
Proof.
  intros Hok Hnet Hretry remaining.
  induction remaining as [|remaining IH]; intros attempt last s Htime Hsum.
  - destruct (retry_loop_retryable c net url cfg 0 attempt last s
                (replies attempt) Htime (Hnet attempt) Hok (Hretry attempt))
      as (s1 & -> & Htimer & Hf & Hd & _).
    destruct (Z.ltb_spec (Z.of_nat attempt) (retryAttempts c)); [lia|].
    rewrite Nat.add_0_r. eexists. split; [reflexivity|]. simpl.
    rewrite Hf, Hd. split; [done|].
    replace (retryAttempts c) with (Z.of_nat attempt) by lia. lia.
  - destruct (retry_loop_retryable c net url cfg (S remaining) attempt last s
                (replies attempt) Htime (Hnet attempt) Hok (Hretry attempt))
      as (s1 & -> & Htimer & Hf & Hd & _).
    destruct (Z.ltb_spec (Z.of_nat attempt) (retryAttempts c)); [|lia].
    destruct (IH (S attempt)
                (Some (JsError.HttpError (Response.status (replies attempt))
                         (Response.statusText (replies attempt))))
                (delay (retryDelay c * 2 ^ Z.of_nat attempt) s1))
      as (s' & -> & Hf' & Hd').
    { unfold in_time, delay. simpl. by rewrite Htimer. }
    { lia. }
    exists s'. replace (S attempt + remaining)%nat
      with (attempt + S remaining)%nat by lia.
    split; [done|]. rewrite Hf', Hd'. unfold delay. simpl.
    rewrite fetches_app, total_delay_app, Hf, Hd. simpl.
    rewrite app_nil_r, <- app_assoc. split; [done|].
    rewrite Nat2Z.inj_succ, Z.pow_succ_r by lia. lia.
Qed.

End HttpMore.

(** X6. A request whose first call is answered with a 4xx status is not
    retried: it throws the [HttpError] carrying that status after this one
    call and without any wait, whatever [retryAttempts] is. *)
Theorem request_client_error_not_retried (c : HttpClient.t) (net : Network)
    (url : string) (options : Options) (s : Run) (r : Response.t) :
  HttpSpec.requests_pass (HttpClient.request_interceptors c) →
  HttpSpec.return_normally (HttpClient.response_interceptors c) →
  0 <= HttpClient.retryAttempts c →
  Z.max 0 (latency (net 0%nat)) < Z.max 0 (HttpClient.timeout c) →
  outcome (net 0%nat) = Resolves r →
  400 <= Response.status r < 500 →
  ∃ s' config,
    HttpClient.request c net url options s
    = (s', Throw (JsError.HttpError (Response.status r)
                    (Response.statusText r)))
    ∧ HttpSpec.fetches (log s')
      = HttpSpec.fetches (log s) ++ [EvFetch (HttpSpec.fullURL c url) config]
    ∧ HttpSpec.total_delay (log s') = HttpSpec.total_delay (log s).
Proof.
  intros Hreq Hresp Hbudget Hfirst Hout Hst.
  rewrite request_unfold.
  pose proof (apply_request_interceptors_fetches
                (HttpClient.request_interceptors c) 0
                (HttpSpec.initial_config c options) s) as Hf.
  destruct (apply_request_interceptors_spec
              (HttpClient.request_interceptors c) 0
              (HttpSpec.initial_config c options) s Hreq)
    as (sa & config & Heq & Hclock & _ & Hdelay).
  rewrite Heq in Hf |- *. simpl in Hf.
  destruct (Z.to_nat (HttpClient.retryAttempts c + 1)) as [|n] eqn:Hn; [lia|].
  destruct (attempt_once_resolved c net (HttpSpec.fullURL c url) config 0
              (setTimeout (HttpClient.timeout c) sa) r)
    as (s1 & Hatt & _ & _ & Hlog);
    [unfold HttpSpec.in_time; simpl; lia | done | done |].
  rewrite retry_loop_S, Hatt.
  assert (Hbad : Response.ok r = false).
  { unfold Response.ok.
    destruct (Z.leb_spec (Response.status r) 299); [lia|].
    apply andb_false_r. }
  assert (Hno : HttpClient.no_retry
                  (JsError.HttpError (Response.status r)
                     (Response.statusText r)) = true).
  { unfold HttpClient.no_retry. simpl.
    destruct (Z.leb_spec 400 (Response.status r)); [|lia].
    destruct (Z.ltb_spec (Response.status r) 500); [done | lia]. }
  rewrite Hbad, Hno. eexists _, config. split; [reflexivity|]. simpl.
  rewrite Hlog, fetches_app, total_delay_app. simpl.
  rewrite total_delay_interceptor_calls, Hf, Hdelay.
  assert (Hnone : ∀ n i, HttpSpec.fetches (HttpSpec.interceptor_calls i n r)
                         = []).
  { unfold HttpSpec.interceptor_calls.
    induction n0 as [|n0 IH]; intros i; simpl; auto. }
  rewrite Hnone. split; [done | lia].
Qed.

Lemma request_client_error_not_retried_witness :
  ∃ s' config,
    HttpClient.request (ApiService.client ApiService.new)
      (HttpSpec.always 20 404 "Not Found") "/api/images/9" no_options
      (HttpSpec.init ∅)
    = (s', Throw (JsError.HttpError 404 "Not Found"))
    ∧ HttpSpec.fetches (log s')
      = [] ++ [EvFetch "http://localhost:5001/api/images/9" config]
    ∧ HttpSpec.total_delay (log s') = 0.
Proof.
  apply (request_client_error_not_retried (ApiService.client ApiService.new)
           (HttpSpec.always 20 404 "Not Found") "/api/images/9" no_options
           (HttpSpec.init ∅) (HttpSpec.respond 404 "Not Found")).
  - repeat constructor. intros cfg st.
    unfold ApiService.auth_interceptor.
    destruct (ApiService.getAuthToken st) as [tok|]; [|by eexists].
    destruct (String.eqb tok EmptyString); by eexists.
  - repeat constructor. intros r st.
    unfold ApiService.unauthorized_interceptor. by destruct (_ =? _).
  - vm_compute. discriminate.
  - vm_compute. reflexivity.
  - reflexivity.
  - simpl. lia.
Defined.

(** X7. When every call is answered by a response that is neither a
    success nor a 4xx, a request makes exactly [retryAttempts + 1] calls,
    waits [retryDelay * (2^retryAttempts - 1)] in all between them (the
    delays double from [retryDelay], none after the last call) and throws
    the [HttpError] of the last answer. *)
Theorem request_exhausts_retries (c : HttpClient.t) (net : Network)
    (url : string) (options : Options) (s : Run)
    (replies : nat → Response.t) :
  HttpSpec.requests_pass (HttpClient.request_interceptors c) →
  HttpSpec.return_normally (HttpClient.response_interceptors c) →
  0 <= HttpClient.retryAttempts c →
  Z.max 0 (latency (net 0%nat)) < Z.max 0 (HttpClient.timeout c) →
  (∀ i, outcome (net i) = Resolves (replies i)) →
  (∀ i, HttpSpec.retryable (replies i)) →
  ∃ s' config,
    HttpClient.request c net url options s
    = (s', Throw (JsError.HttpError
                    (Response.status
                       (replies (Z.to_nat (HttpClient.retryAttempts c))))
                    (Response.statusText
                       (replies (Z.to_nat (HttpClient.retryAttempts c))))))
    ∧ HttpSpec.fetches (log s')
      = HttpSpec.fetches (log s)
        ++ replicate (Z.to_nat (HttpClient.retryAttempts c + 1))
             (EvFetch (HttpSpec.fullURL c url) config)
    ∧ HttpSpec.total_delay (log s')
      = HttpSpec.total_delay (log s)
        + HttpClient.retryDelay c * (2 ^ HttpClient.retryAttempts c - 1).
Proof.
  intros Hreq Hresp Hbudget Hfirst Hnet Hretry.
  rewrite request_unfold.
  pose proof (apply_request_interceptors_fetches
                (HttpClient.request_interceptors c) 0
                (HttpSpec.initial_config c options) s) as Hf.
  destruct (apply_request_interceptors_spec
              (HttpClient.request_interceptors c) 0
              (HttpSpec.initial_config c options) s Hreq)
    as (sa & config & Heq & Hclock & _ & Hdelay).
  rewrite Heq in Hf |- *. simpl in Hf.
  destruct (Z.to_nat (HttpClient.retryAttempts c + 1)) as [|n] eqn:Hn; [lia|].
  destruct (retry_loop_all_retryable c net (HttpSpec.fullURL c url) config
              replies Hresp Hnet Hretry n 0 None
              (setTimeout (HttpClient.timeout c) sa))
    as (s' & -> & Hf' & Hd');
    [unfold HttpSpec.in_time; simpl; lia | lia |].
  exists s', config. simpl in *.
  replace (Z.to_nat (HttpClient.retryAttempts c)) with n by lia.
  split; [done|]. rewrite Hf', Hd', Hf, Hdelay. split; [done | lia].
Qed.

Lemma request_exhausts_retries_witness :
  ∃ s' config,
    HttpClient.request (ApiService.client ApiService.new)
      HttpSpec.always_500 "/api/images" no_options (HttpSpec.init ∅)
    = (s', Throw (JsError.HttpError 500 "Internal Server Error"))
    ∧ HttpSpec.fetches (log s')
      = [] ++ replicate 4 (EvFetch "http://localhost:5001/api/images" config)
    ∧ HttpSpec.total_delay (log s') = 0 + 1000 * (2 ^ 3 - 1).
Proof.
  apply (request_exhausts_retries (ApiService.client ApiService.new)
           HttpSpec.always_500 "/api/images" no_options (HttpSpec.init ∅)
           (fun _ => HttpSpec.respond 500 "Internal Server Error")).
  - repeat constructor. intros cfg st.
    unfold ApiService.auth_interceptor.
    destruct (ApiService.getAuthToken st) as [tok|]; [|by eexists].
    destruct (String.eqb tok EmptyString); by eexists.
  - repeat constructor. intros r st.
    unfold ApiService.unauthorized_interceptor. by destruct (_ =? _).
  - vm_compute. discriminate.
  - vm_compute. reflexivity.
  - reflexivity.
  - intros _. split; [reflexivity|]. simpl. lia.
Defined.

(** X8. The timeout only guards the wait for the first response: once a
    response has arrived (here one that calls for a retry) the timer is
    cleared, and the next call is waited for however long it takes. *)
Theorem retry_is_not_timed_out (c : HttpClient.t) (net : Network)
    (url : string) (options : Options) (s : Run) (r0 r1 : Response.t) :
  HttpSpec.requests_pass (HttpClient.request_interceptors c) →
  HttpSpec.return_normally (HttpClient.response_interceptors c) →
  1 <= HttpClient.retryAttempts c →
  Z.max 0 (latency (net 0%nat)) < Z.max 0 (HttpClient.timeout c) →
  outcome (net 0%nat) = Resolves r0 → HttpSpec.retryable r0 →
  outcome (net 1%nat) = Resolves r1 → Response.ok r1 = true →
  ∃ s', HttpClient.request c net url options s = (s', Return r1)
        ∧ clock s' >= clock s + Z.max 0 (latency (net 1%nat)).
Proof.
  intros Hreq Hresp Hbudget Hfirst H0 Hr0 H1 Hok1.
  rewrite request_unfold.
  destruct (apply_request_interceptors_spec
              (HttpClient.request_interceptors c) 0
              (HttpSpec.initial_config c options) s Hreq)
    as (sa & config & -> & Hclock & _ & _).
  destruct (Z.to_nat (HttpClient.retryAttempts c + 1)) as [|[|n]] eqn:Hn;
    [lia | lia |].
  destruct (retry_loop_retryable c net (HttpSpec.fullURL c url) config (S n)
              0 None (setTimeout (HttpClient.timeout c) sa) r0)
    as (s1 & -> & Htimer & _ & _ & Hclock1);
    [unfold HttpSpec.in_time; simpl; lia | done | done | done |].
  destruct (Z.ltb_spec (Z.of_nat 0) (HttpClient.retryAttempts c)); [|lia].
  destruct (attempt_once_resolved c net (HttpSpec.fullURL c url) config 1
              (delay (HttpClient.retryDelay c * 2 ^ Z.of_nat 0) s1) r1)
    as (s2 & Hatt & _ & Hclock2 & _);
    [unfold HttpSpec.in_time, delay; simpl; by rewrite Htimer | done | done |].
  rewrite retry_loop_S, Hatt, Hok1. exists s2. split; [done|].
  rewrite Hclock2. unfold delay. simpl. rewrite Hclock1. simpl. lia.
Qed.

Lemma retry_is_not_timed_out_witness :
  ∃ s', HttpClient.request (ApiService.client ApiService.new)
          HttpSpec.slow_second "/api/images" no_options (HttpSpec.init ∅)
        = (s', Return (HttpSpec.respond 200 "OK"))
        ∧ clock s' >= 0 + Z.max 0 3600000.
Proof.
  apply (retry_is_not_timed_out (ApiService.client ApiService.new)
           HttpSpec.slow_second "/api/images" no_options (HttpSpec.init ∅)
           (HttpSpec.respond 503 "Service Unavailable")
           (HttpSpec.respond 200 "OK")).
  - repeat constructor. intros cfg st.
    unfold ApiService.auth_interceptor.
    destruct (ApiService.getAuthToken st) as [tok|]; [|by eexists].
    destruct (String.eqb tok EmptyString); by eexists.
  - repeat constructor. intros r st.
    unfold ApiService.unauthorized_interceptor. by destruct (_ =? _).
  - vm_compute. discriminate.
  - vm_compute. reflexivity.
  - reflexivity.
  - split; [reflexivity|]. simpl. lia.
  - reflexivity.
  - reflexivity.
Defined.

(** X9. A call that fails on the network leaves the timeout running, and
    it goes on running through the wait before the retry: when the
    deadline passes during that wait, the retry is aborted as soon as it
    starts and the request throws the [AbortError], after two calls and
    one wait. *)
Theorem timeout_spans_network_failure (c : HttpClient.t) (net : Network)
    (url : string) (options : Options) (s : Run) (e : JsError.t) :
  HttpSpec.requests_pass (HttpClient.request_interceptors c) →
  1 <= HttpClient.retryAttempts c →
  outcome (net 0%nat) = Rejects e → HttpClient.no_retry e = false →
  Z.max 0 (latency (net 0%nat)) < Z.max 0 (HttpClient.timeout c) →
  Z.max 0 (HttpClient.timeout c)
  <= Z.max 0 (latency (net 0%nat)) + Z.max 0 (HttpClient.retryDelay c) →
  ∃ s' config,
    HttpClient.request c net url options s = (s', Throw JsError.AbortError)
    ∧ HttpSpec.fetches (log s')
      = HttpSpec.fetches (log s)
        ++ [EvFetch (HttpSpec.fullURL c url) config;
            EvFetch (HttpSpec.fullURL c url) config]
    ∧ HttpSpec.total_delay (log s')
      = HttpSpec.total_delay (log s) + HttpClient.retryDelay c.
Proof.
  intros Hreq Hbudget Hout Hretry Hfirst Hlate.
  rewrite request_unfold.
  pose proof (apply_request_interceptors_fetches
                (HttpClient.request_interceptors c) 0
                (HttpSpec.initial_config c options) s) as Hf.
  destruct (apply_request_interceptors_spec
              (HttpClient.request_interceptors c) 0
              (HttpSpec.initial_config c options) s Hreq)
    as (sa & config & Heq & Hclock & _ & Hdelay).
  rewrite Heq in Hf |- *. simpl in Hf.
  destruct (Z.to_nat (HttpClient.retryAttempts c + 1)) as [|[|n]] eqn:Hn;
    [lia | lia |].
  rewrite retry_loop_S, (attempt_once_rejected _ _ _ _ _ _ e), Hretry;
    [|unfold HttpSpec.in_time; simpl; lia | done].
  destruct (Z.ltb_spec (Z.of_nat 0) (HttpClient.retryAttempts c)); [|lia].
  edestruct (retry_loop_timeout c net (HttpSpec.fullURL c url) config n 1
               (Some e)) as (s' & -> & Hlog & _).
  { unfold delay. simpl. reflexivity. }
  { unfold delay. simpl. change (2 ^ 0) with 1. lia. }
  exists s', config. split; [done|].
  rewrite Hlog, fetches_app, total_delay_app. unfold delay. simpl.
  rewrite !fetches_app, !total_delay_app. simpl.
  rewrite Hf, Hdelay, app_nil_r, <- app_assoc.
  change (2 ^ 0) with 1. split; [done | lia].
Qed.

Lemma timeout_spans_network_failure_witness :
  ∃ s' config,
    HttpClient.request (ApiService.client ApiService.new)
      (HttpSpec.fails_first 29500) "/api/images" no_options (HttpSpec.init ∅)
    = (s', Throw JsError.AbortError)
    ∧ HttpSpec.fetches (log s')
      = [] ++ [EvFetch "http://localhost:5001/api/images" config;
               EvFetch "http://localhost:5001/api/images" config]
    ∧ HttpSpec.total_delay (log s') = 0 + 1000.
Proof.
  apply (timeout_spans_network_failure (ApiService.client ApiService.new)
           (HttpSpec.fails_first 29500) "/api/images" no_options
           (HttpSpec.init ∅) JsError.NetworkError).
  - repeat constructor. intros cfg st.
    unfold ApiService.auth_interceptor.
    destruct (ApiService.getAuthToken st) as [tok|]; [|by eexists].
    destruct (String.eqb tok EmptyString); by eexists.
  - vm_compute. discriminate.
  - reflexivity.
  - reflexivity.
  - vm_compute. reflexivity.
  - vm_compute. discriminate.
Defined.

(** X10. When a request interceptor throws, [request] throws that error
    and nothing is sent: no call of [fetch] is made. *)
Theorem request_interceptor_throw_sends_nothing (c : HttpClient.t)
    (net : Network) (url : string) (options : Options) (s s0 : Run)
    (e : JsError.t) :
  HttpClient.apply_request_interceptors (HttpClient.request_interceptors c) 0
    (HttpSpec.initial_config c options) s = (s0, Throw e) →
  HttpClient.request c net url options s = (s0, Throw e)
  ∧ HttpSpec.fetches (log s0) = HttpSpec.fetches (log s).
Proof.
  intros Hthrow. rewrite request_unfold, Hthrow. split; [done|].
  pose proof (apply_request_interceptors_fetches
                (HttpClient.request_interceptors c) 0
                (HttpSpec.initial_config c options) s) as Hf.
  by rewrite Hthrow in Hf.
Qed.

Lemma request_interceptor_throw_sends_nothing_witness :
  HttpClient.request HttpSpec.guarded (HttpSpec.always 20 200 "OK")
    "/api/images" no_options (HttpSpec.init ∅)
  = (emit (EvRequestInterceptor 0) (HttpSpec.init ∅),
     Throw (JsError.Error "offline"))
  ∧ HttpSpec.fetches (log (emit (EvRequestInterceptor 0) (HttpSpec.init ∅)))
    = HttpSpec.fetches (log (HttpSpec.init ∅)).
Proof.
  apply (request_interceptor_throw_sends_nothing HttpSpec.guarded
           (HttpSpec.always 20 200 "OK") "/api/images" no_options
           (HttpSpec.init ∅)).
  reflexivity.
Defined.

(** X11. The constructor's [||] defaults: a setting that is missing, zero
    or the empty string is replaced by the default, so no client has
    [retryAttempts], [timeout] or [retryDelay] equal to 0 (asking for zero
    retries gives three); any other value is taken as given. The default
    headers carry [Content-Type: application/json] unless the settings'
    headers give another value, and a new client has no interceptors. *)
Theorem client_settings_defaults (settings : HttpClient.Settings) :
  let c := HttpClient.new settings in
  HttpClient.retryAttempts c ≠ 0 ∧ HttpClient.timeout c ≠ 0
  ∧ HttpClient.retryDelay c ≠ 0 ∧ HttpClient.baseURL c ≠ EmptyString
  ∧ (HttpClient.set_retryAttempts settings = Some 0 →
     HttpClient.retryAttempts c = 3)
  ∧ (∀ v, v ≠ 0 → HttpClient.set_retryAttempts settings = Some v →
          HttpClient.retryAttempts c = v)
  ∧ (∀ v, v ≠ 0 → HttpClient.set_timeout settings = Some v →
          HttpClient.timeout c = v)
  ∧ HttpClient.defaultHeaders c !! "Content-Type"
    = Some (default "application/json"
              (HttpClient.set_headers settings ≫= (.!! "Content-Type")))
  ∧ HttpClient.request_interceptors c = []
  ∧ HttpClient.response_interceptors c = [].
Proof.
  destruct settings as [b t r d h]. simpl.
  assert (Hnum : ∀ x dflt, dflt ≠ 0 → HttpClient.or_number x dflt ≠ 0).
  { intros [v|] dflt Hd; simpl; [|done].
    destruct (Z.eqb_spec v 0); done. }
  split; [by apply Hnum|]. split; [by apply Hnum|]. split; [by apply Hnum|].
  split.
  { destruct b as [v|]; simpl; [|done].
    destruct (String.eqb_spec v EmptyString); done. }
  split; [by intros ->|].
  split.
  { intros v Hv ->. simpl. destruct (Z.eqb_spec v 0); done. }
  split.
  { intros v Hv ->. simpl. destruct (Z.eqb_spec v 0); done. }
  split; [|done].
  rewrite lookup_union. destruct h as [h|]; simpl.
  - rewrite lookup_singleton_eq. by destruct (h !! "Content-Type").
  - by rewrite lookup_empty, lookup_singleton_eq.
Qed.

Lemma client_settings_defaults_witness :
  HttpClient.retryAttempts
    (HttpClient.new (HttpClient.mkSettings None None (Some 0) None None)) = 3.
Proof.
  exact (proj1 (proj2 (proj2 (proj2 (proj2
    (client_settings_defaults
       (HttpClient.mkSettings None None (Some 0) None None)))))) eq_refl).
Defined.

Section ServiceFacts.
Import HttpClient HttpSpec.

Lemma retry_loop_first_fetch c net url cfg n attempt last s :
  ∃ rest, log (fst (retry_loop c net url cfg (S n) attempt last s))
          = log s ++ EvFetch url cfg :: rest.
Proof.
  rewrite retry_loop_S.
  pose proof (attempt_once_turn c net url cfg attempt s) as H.
  pose proof (fetch_log net attempt url cfg s) as Hfl.
  assert (Hpre : ∃ l, log (fst (attempt_once c net url cfg attempt s))
                      = log s ++ EvFetch url cfg :: l).
  { destruct (fetch net attempt url cfg s) as [s1 [response|e|]];
      simpl in Hfl.
    - destruct H as (k & _ & -> & _). rewrite Hfl, <- app_assoc. by eexists.
    - destruct H as [-> _]. by eexists.
    - destruct H as [-> _]. by eexists. }
  destruct Hpre as [l1 Hl1].
  destruct (attempt_once c net url cfg attempt s) as [s1 [response|e|]];
    simpl in Hl1; [by exists l1| |by exists l1].
  destruct (no_retry e); [by exists l1|].
  destruct (retry_loop_log_prefix c net url cfg n (S attempt) (Some e)
              (if Z.of_nat attempt <? retryAttempts c
               then delay (retryDelay c * 2 ^ Z.of_nat attempt) s1
               else s1)) as [l2 ->].
  destruct (Z.of_nat attempt <? retryAttempts c); simpl;
    rewrite Hl1, <- ?app_assoc; by eexists.
Qed.

(** The first thing a request sends is the [config] its request
    interceptors leave. *)
Lemma request_first_fetch c net url options s s0 cfg :
  0 <= retryAttempts c →
  apply_request_interceptors (request_interceptors c) 0
    (initial_config c options) s = (s0, Return cfg) →
  ∃ rest, log (fst (request c net url options s))
          = log s0 ++ EvFetch (fullURL c url) cfg :: rest.
Proof.
  intros Hbudget Hreq. rewrite request_unfold, Hreq.
  destruct (Z.to_nat (retryAttempts c + 1)) as [|n] eqn:Hn; [lia|].
  apply (retry_loop_first_fetch c net (fullURL c url) cfg n 0 None
           (setTimeout (timeout c) s0)).
Qed.

Lemma parseResponse_state response s : fst (parseResponse response s) = s.
Proof.
  unfold parseResponse.
  destruct (Response.contentType response) as [ct|]; [|done].
  destruct (includes ct "application/json"); [|done].
  by destruct (Response.json response).
Qed.

Lemma post_unfold c net url data options s :
  post c net url data options s
  = match request c net url (post_options data options) s with
    | (s', Return response) => parseResponse response s'
    | (s', Throw e) => (s', Throw e)
    | (s', ThrowUndefined) => (s', ThrowUndefined)
    end.
Proof.
  unfold post, post_options, bind.
  destruct data as [[entries|d]|]; [done| |done].
  by destruct (truthy d).
Qed.

Lemma post_state c net url data options s :
  fst (post c net url data options s)
  = fst (request c net url (post_options data options) s).
Proof.
  rewrite post_unfold.
  destruct (request c net url (post_options data options) s)
    as [s' [response|e|]]; [|done|done].
  simpl. apply parseResponse_state.
Qed.

End ServiceFacts.

Section ServiceMore.
Import HttpClient HttpSpec.

Lemma api_interceptors_pass :
  requests_pass (request_interceptors (ApiService.client ApiService.new))
  ∧ return_normally (response_interceptors (ApiService.client ApiService.new)).
Proof.
  split.
  - repeat constructor. intros cfg st. unfold ApiService.auth_interceptor.
    destruct (ApiService.getAuthToken st) as [tok|]; [|by eexists].
    destruct (String.eqb tok EmptyString); by eexists.
  - repeat constructor. intros r st.
    unfold ApiService.unauthorized_interceptor. by destruct (_ =? _).
Qed.

Lemma api_request_interceptors options s :
  apply_request_interceptors
    (request_interceptors (ApiService.client ApiService.new)) 0
    (initial_config (ApiService.client ApiService.new) options) s
  = (emit (EvRequestInterceptor 0) s,
     Return {| method := default "GET" (opt_method options);
               headers := with_token (storage s)
                            (default (defaultHeaders
                                        (ApiService.client ApiService.new))
                               (opt_headers options));
               body := opt_body options |}).
Proof.
  unfold with_token. simpl. unfold ApiService.auth_interceptor. simpl.
  destruct (ApiService.getAuthToken (storage s)) as [tok|];
    [destruct (String.eqb tok EmptyString)|]; by destruct s.
Qed.

Lemma api_first_fetch net url options s :
  ∃ rest,
    log (fst (request (ApiService.client ApiService.new) net url options s))
    = log s
      ++ EvRequestInterceptor 0
      :: EvFetch (fullURL (ApiService.client ApiService.new) url)
           {| method := default "GET" (opt_method options);
              headers := with_token (storage s)
                           (default (defaultHeaders
                                       (ApiService.client ApiService.new))
                              (opt_headers options));
              body := opt_body options |}
      :: rest.
Proof.
  destruct (request_first_fetch (ApiService.client ApiService.new) net url
              options s _ _ ltac:(vm_compute; discriminate)
              (api_request_interceptors options s)) as [rest ->].
  exists rest. simpl. by rewrite <- app_assoc.
Qed.

End ServiceMore.

(** X12. What [post] sends when the client has no request interceptors:
    the method is POST unless the options name another; a [FormData]
    payload is the body and, when the options carry headers, these are
    used without their [Content-Type]; any other payload is sent as JSON
    under the options' headers or else the default headers, but only if it
    is truthy: for a falsy payload (0, false, the empty string, null) the
    body is what the options hold, none by default. *)
Theorem post_payload (c : HttpClient.t) (net : Network) (url : string)
    (data : option PostData) (options : Options) (s : Run) :
  HttpClient.request_interceptors c = [] →
  0 <= HttpClient.retryAttempts c →
  ∃ cfg rest,
    log (fst (HttpClient.post c net url data options s))
    = log s ++ EvFetch (HttpSpec.fullURL c url) cfg :: rest
    ∧ method cfg = default "POST" (opt_method options)
    ∧ match data with
      | Some (FormData entries) =>
          body cfg = Some (BodyFormData entries)
          ∧ headers cfg
            = match opt_headers options with
              | Some h => base.delete "Content-Type" h
              | None => HttpClient.defaultHeaders c
              end
      | Some (PlainData d) =>
          body cfg = (if truthy d then Some (BodyJson d)
                      else opt_body options)
          ∧ headers cfg
            = default (HttpClient.defaultHeaders c) (opt_headers options)
      | None =>
          body cfg = opt_body options
          ∧ headers cfg
            = default (HttpClient.defaultHeaders c) (opt_headers options)
      end.
Proof.
  intros Hnone Hbudget. rewrite post_state.
  destruct (request_first_fetch c net url (HttpSpec.post_options data options)
              s s (HttpSpec.initial_config c
                     (HttpSpec.post_options data options)) Hbudget)
    as [rest Hrest]; [by rewrite Hnone|].
  eexists _, rest. split; [exact Hrest|].
  destruct data as [[entries|d]|]; simpl; [|done|done].
  split; [done|]. split; [done|]. by destruct (opt_headers options).
Qed.

Lemma post_payload_witness :
  ∃ cfg rest,
    log (fst (HttpClient.post (HttpClient.new HttpClient.no_settings)
                (HttpSpec.always 20 200 "OK") "/api/counter"
                (Some (PlainData (JNum 0))) no_options (HttpSpec.init ∅)))
    = [] ++ EvFetch "http://localhost:5001/api/counter" cfg :: rest
    ∧ method cfg = "POST"
    ∧ body cfg = None
      ∧ headers cfg = {[ "Content-Type" := "application/json" ]}.
Proof.
  destruct (post_payload (HttpClient.new HttpClient.no_settings)
              (HttpSpec.always 20 200 "OK") "/api/counter"
              (Some (PlainData (JNum 0))) no_options (HttpSpec.init ∅))
    as (cfg & rest & Hlog & Hm & Hb & Hh).
  - reflexivity.
  - vm_compute. discriminate.
  - exists cfg, rest. split; [exact Hlog|]. split; [exact Hm|].
    split; [exact Hb|]. rewrite Hh. vm_compute. reflexivity.
Defined.

(** X13. Every request made through the API service sends, after its
    request interceptor ran, the caller's or default headers with
    [Authorization: Bearer <token>] set from the stored token, replacing
    any [Authorization] the caller gave; when no token or an empty token
    is stored the headers are sent as they are. *)
Theorem api_request_authorization (net : Network) (url : string)
    (options : Options) (s : Run) :
  ∃ rest,
    log (fst (HttpClient.request (ApiService.client ApiService.new) net url
                options s))
    = log s
      ++ EvRequestInterceptor 0
      :: EvFetch (HttpSpec.fullURL (ApiService.client ApiService.new) url)
           {| method := default "GET" (opt_method options);
              headers :=
                match storage s !! ApiService.token_key with
                | Some token =>
                    if String.eqb token EmptyString
                    then default {[ "Content-Type" := "application/json" ]}
                           (opt_headers options)
                    else <[ "Authorization" := "Bearer " +:+ token ]>
                           (default {[ "Content-Type" := "application/json" ]}
                              (opt_headers options))
                | None =>
                    default {[ "Content-Type" := "application/json" ]}
                      (opt_headers options)
                end;
              body := opt_body options |}
      :: rest.
Proof.
  destruct (api_first_fetch net url options s) as [rest Hrest].
  exists rest. rewrite Hrest. unfold HttpSpec.with_token.
  unfold ApiService.getAuthToken.
  assert (Hd : HttpClient.defaultHeaders (ApiService.client ApiService.new)
               = {[ "Content-Type" := "application/json" ]}).
  { simpl. by rewrite (left_id_L ∅ (∪)). }
  by rewrite Hd.
Qed.

(** X14. A request through the API service that is answered 401 removes
    the stored token and throws the [HttpError] 401 after this one call:
    it is not retried. *)
Theorem api_unauthorized_clears_token (net : Network) (url : string)
    (options : Options) (s : Run) (r : Response.t) :
  Z.max 0 (latency (net 0%nat)) < 30000 →
  outcome (net 0%nat) = Resolves r →
  Response.status r = 401 →
  ∃ s', HttpClient.request (ApiService.client ApiService.new) net url
          options s
        = (s', Throw (JsError.HttpError 401 (Response.statusText r)))
    ∧ storage s' !! ApiService.token_key = None
    ∧ length (HttpSpec.fetches (log s'))
      = S (length (HttpSpec.fetches (log s))).
Proof.
  intros Hfirst Hout Hst.
  rewrite request_unfold, api_request_interceptors.
  change (Z.to_nat (HttpClient.retryAttempts
                      (ApiService.client ApiService.new) + 1)) with 4%nat.
  rewrite retry_loop_S. unfold HttpClient.attempt_once, bind.
  rewrite fetch_settles
    by (unfold HttpSpec.in_time; simpl; unfold API_CONFIG.timeout; lia).
  rewrite Hout. simpl.
  unfold ApiService.unauthorized_interceptor, Response.ok.
  rewrite Hst. simpl.
  eexists. split; [reflexivity|]. simpl.
  split; [apply lookup_delete_eq|].
  rewrite !fetches_app, !length_app. simpl. lia.
Qed.

Lemma api_unauthorized_clears_token_witness :
  ∃ s', HttpClient.request (ApiService.client ApiService.new)
          (HttpSpec.always 10 401 "Unauthorized") "/api/user" no_options
          (HttpSpec.init HttpSpec.token)
        = (s', Throw (JsError.HttpError 401 "Unauthorized"))
    ∧ storage s' !! ApiService.token_key = None
    ∧ length (HttpSpec.fetches (log s')) = 1%nat.
Proof.
  apply (api_unauthorized_clears_token (HttpSpec.always 10 401 "Unauthorized")
           "/api/user" no_options (HttpSpec.init HttpSpec.token)
           (HttpSpec.respond 401 "Unauthorized")).
  - vm_compute. reflexivity.
  - reflexivity.
  - reflexivity.
Defined.

(** X15. When the login call returns an object whose [token] is truthy,
    [login] stores that token and returns the object, and the next request
    through the service carries it as [Authorization: Bearer <token>];
    when the login call throws, [login] throws the same error and stores
    nothing. *)
Theorem login_token_is_sent (net net' : Network) (credentials : JsValue)
    (url : string) (options : Options) (s : Run) :
  (∀ s1 fields tok,
     HttpClient.post (ApiService.client ApiService.new) net
       "/api/auth/login" (Some (PlainData credentials)) no_options s
     = (s1, Return (JObj fields)) →
     JsMap.get fields "token" = Some tok → truthy tok = true →
     to_string tok ≠ EmptyString →
     ∃ s2,
       ApiService.login ApiService.new net credentials s
       = (s2, Return (JObj fields))
       ∧ ApiService.getAuthToken (storage s2) = Some (to_string tok)
       ∧ ∃ cfg rest,
           log (fst (HttpClient.request (ApiService.client ApiService.new)
                       net' url options s2))
           = log s2 ++ EvRequestInterceptor 0
               :: EvFetch (HttpSpec.fullURL (ApiService.client ApiService.new)
                             url) cfg
               :: rest
           ∧ headers cfg !! "Authorization"
             = Some ("Bearer " +:+ to_string tok))
  ∧ (∀ s1 e,
       HttpClient.post (ApiService.client ApiService.new) net
         "/api/auth/login" (Some (PlainData credentials)) no_options s
       = (s1, Throw e) →
       ApiService.login ApiService.new net credentials s = (s1, Throw e)).
Proof.
  split.
  - intros s1 fields tok Hpost Htok Htruthy Hnonempty.
    unfold ApiService.login, bind.
    change (API_CONFIG.endpoints_auth +:+ "/login") with "/api/auth/login".
    rewrite Hpost. simpl. rewrite Htok. simpl. rewrite Htruthy.
    eexists. split; [reflexivity|]. simpl.
    assert (Hstored : ApiService.getAuthToken
                        (ApiService.setAuthToken (to_string tok) (storage s1))
                      = Some (to_string tok)) by apply lookup_insert_eq.
    split; [exact Hstored|].
    edestruct (api_first_fetch net' url options) as [rest Hrest].
    eexists _, rest. split; [exact Hrest|]. simpl.
    unfold HttpSpec.with_token. simpl. rewrite Hstored.
    destruct (String.eqb_spec (to_string tok) EmptyString); [done|].
    apply lookup_insert_eq.
  - intros s1 e Hpost. unfold ApiService.login, bind.
    change (API_CONFIG.endpoints_auth +:+ "/login") with "/api/auth/login".
    by rewrite Hpost.
Qed.

Lemma login_token_is_sent_witness :
  ∃ s2,
    ApiService.login ApiService.new
      (HttpSpec.login_reply [("token", JStr "abc")]) (JObj []) (HttpSpec.init ∅)
    = (s2, Return (JObj [("token", JStr "abc")]))
    ∧ ApiService.getAuthToken (storage s2) = Some "abc"
    ∧ ∃ cfg rest,
        log (fst (HttpClient.request (ApiService.client ApiService.new)
                    (HttpSpec.always 20 200 "OK") "/api/user" no_options s2))
        = log s2 ++ EvRequestInterceptor 0
            :: EvFetch "http://localhost:5001/api/user" cfg :: rest
        ∧ headers cfg !! "Authorization" = Some "Bearer abc".
Proof.
  eapply (proj1 (login_token_is_sent
                   (HttpSpec.login_reply [("token", JStr "abc")])
                   (HttpSpec.always 20 200 "OK") (JObj []) "/api/user"
                   no_options (HttpSpec.init ∅))
            _ [("token", JStr "abc")] (JStr "abc")).
  - vm_compute. reflexivity.
  - reflexivity.
  - reflexivity.
  - discriminate.
Defined.

(** ** The upload queue *)

Section UploadMore.
Import UploadManager UploadSpec.

Lemma validateFile_error_None f :
  validateFile_error f = None ↔ validateFile f = true.
Proof.
  unfold validateFile_error, validateFile.
  destruct (negb _); [done|]. by destruct (file_size f >? maxFileSize).
Qed.

Lemma rejections_nil files :
  rejections files = [] ↔ Forall (λ f, validateFile f = true) files.
Proof.
  induction files as [|f files IH]; simpl; [done|].
  rewrite Forall_cons, <- IH, <- validateFile_error_None.
  destruct (validateFile_error f); [|tauto].
  split; [done | by intros [? _]].
Qed.

Lemma filter_valid files :
  Forall (λ f, validateFile f = true) (List.filter validateFile files).
Proof.
  apply Forall_forall. intros f Hin.
  apply list_elem_of_In, filter_In in Hin. tauto.
Qed.

End UploadMore.

Section PageFacts.
Import UploadManager UploadSpec.
Variable generateId : nat → string.
Variable createImagePreview : File → option string.

Lemma queueFiles_unpushed newId files :
  unpushed (queueFiles newId files) = files.
Proof. by destruct files. Qed.

Lemma queueFiles_item newId files w :
  queueFiles newId files = Some w →
  item w = new_item (id (item w)) (file (item w)) None.
Proof. destruct files; [done|]. by intros [= <-]. Qed.

Lemma handleFiles_spec newId files s :
  let run := handleFiles newId files s in
  snd run = queueFiles newId (List.filter validateFile files)
  ∧ (Forall (λ f, validateFile f = true) files → fst run = s)
  ∧ (¬ Forall (λ f, validateFile f = true) files →
     ∃ msg, log (fst run) = log s ++ [EvToast "error" msg])
  ∧ HttpSpec.fetches (log (fst run)) = HttpSpec.fetches (log s).
Proof.
  intros run. subst run. unfold handleFiles.
  pose proof (rejections_nil files) as Hrej.
  split; [by destruct (List.filter validateFile files)|].
  assert (∀ (s1 : Run) (w : option Waiting),
            fst (match List.filter validateFile files with
                 | [] => (s1, None)
                 | _ => (s1, w)
                 end) = s1) as Hfst
    by (intros; by destruct (List.filter validateFile files)).
  rewrite Hfst. clear Hfst.
  destruct (rejections files) as [|r rs].
  - split; [done|]. split; [|done]. intros Hn. by destruct Hn; apply Hrej.
  - split; [intros H; apply Hrej in H; discriminate|].
    split; [intros _; by eexists|].
    simpl. rewrite fetches_app. simpl. by rewrite app_nil_r.
Qed.

Lemma page_run_snoc evs ev st :
  page_run generateId createImagePreview (evs ++ [ev]) st
  = page_step generateId createImagePreview
      (page_run generateId createImagePreview evs st) ev.
Proof. unfold page_run. by rewrite fold_left_app. Qed.

Lemma chosen_app evs evs' : chosen (evs ++ evs') = chosen evs ++ chosen evs'.
Proof.
  induction evs as [|[files|k] evs IH]; simpl; [done| |done].
  destruct (List.filter validateFile files); [done|]. by rewrite IH.
Qed.

Lemma chosen_valid evs :
  Forall (Forall (λ f, validateFile f = true)) (chosen evs).
Proof.
  induction evs as [|[files|k] evs IH]; simpl; [constructor| |done].
  pose proof (filter_valid files) as Hv.
  destruct (List.filter validateFile files); [done|]. by constructor.
Qed.

Lemma concat_insert_snoc {A} (ls : list (list A)) k l x :
  ls !! k = Some l →
  concat (<[k := l ++ [x]]> ls) ≡ₚ concat ls ++ [x].
Proof.
  revert k. induction ls as [|l0 ls IH]; intros [|k]; simpl; try done.
  - intros [= ->]. rewrite <- !app_assoc. f_equiv. apply Permutation_app_comm.
  - intros Hk. rewrite (IH k Hk). by rewrite app_assoc.
Qed.

Lemma page_run_inv evs s pg0 :
  calls pg0 = [] →
  ∃ added dones,
    page_inv createImagePreview (uploadQueue (manager pg0))
      (isUploading (manager pg0)) evs
      (snd (page_run generateId createImagePreview evs (s, pg0)))
      added dones.
Proof.
  intros Hrest. induction evs as [|ev evs IH] using rev_ind.
  { exists [], []. unfold page_inv. simpl. rewrite Hrest, app_nil_r.
    repeat split; try done; try constructor. }
  destruct IH as (added & dones & Hq & Hflag & Hlen & Hlend & Hsplit & Hitem
                  & Hsub & Hperm & Hall).
  rewrite page_run_snoc.
  destruct (page_run generateId createImagePreview evs (s, pg0)) as [s1 pg].
  simpl in Hq, Hflag, Hlen, Hsplit, Hitem.
  pose proof (chosen_valid (evs ++ [ev])) as Hvalid.
  unfold page_inv. rewrite chosen_app in *.
  destruct ev as [files|k]; simpl.
  - (* handleFiles *)
    pose proof (handleFiles_spec (generateId (draws pg)) files s1) as (Hw & _).
    destruct (handleFiles (generateId (draws pg)) files s1) as [s2 w].
    simpl in Hw. subst w. simpl.
    destruct (List.filter validateFile files) as [|f rest] eqn:Hf; simpl.
    + exists added, dones. simpl. rewrite !app_nil_r. done.
    + exists added, (dones ++ [[]]). simpl.
      rewrite !length_app, Hlen, Hlend. simpl.
      split; [done|]. split; [done|]. split; [done|]. split; [done|].
      split; [|split; [|split; [|split]]].
      * intros k fs w d Hk Hw Hd.
        destruct (decide (k < length (chosen evs))%nat) as [Hlt|Hge].
        -- rewrite lookup_app_l in Hk by done.
           rewrite lookup_app_l in Hw by lia.
           rewrite lookup_app_l in Hd by lia.
           by apply (Hsplit k).
        -- rewrite lookup_app_r in Hk by lia.
           rewrite lookup_app_r in Hw by lia.
           rewrite lookup_app_r in Hd by lia.
           rewrite Hlen in Hw. rewrite Hlend in Hd.
           destruct (k - length (chosen evs))%nat; [|done].
           simpl in *. by injection Hk as <-; injection Hw as <-;
             injection Hd as <-.
      * intros k w Hw.
        apply lookup_app_Some in Hw as [Hw|[_ Hw]]; [by apply (Hitem k)|].
        destruct (k - length (calls pg))%nat; [|done].
        simpl in Hw. by injection Hw as <-.
      * apply Forall_app. split; [done|]. constructor; [|done].
        apply sublist_nil_l.
      * rewrite concat_app. simpl. by rewrite app_nil_r.
      * done.
  - (* a preview settles *)
    destruct (calls pg !! k) as [[w|]|] eqn:Hk; simpl;
      [|exists added, dones; by rewrite app_nil_r..].
    rewrite app_nil_r in *.
    assert (∃ fs, chosen evs !! k = Some fs) as [fs Hfs].
    { apply lookup_lt_is_Some. rewrite <- Hlen. by eapply lookup_lt_Some. }
    assert (∃ d, dones !! k = Some d) as [d Hd].
    { apply lookup_lt_is_Some. rewrite Hlend, <- Hlen.
      by eapply lookup_lt_Some. }
    pose proof (Hsplit k fs (Some w) d Hfs Hk Hd) as Hfsd. simpl in Hfsd.
    exists (added ++ [set_preview (item w)
                        (createImagePreview (file (item w)))]),
      (<[k := d ++ [file (item w)]]> dones).
    simpl.
    rewrite !length_insert, map_app. simpl.
    split; [by rewrite Hq, app_assoc|].
    split; [done|]. split; [done|]. split; [done|].
    split; [|split; [|split; [|split]]].
    + intros j fs' w' d' Hj Hw' Hd'.
      destruct (decide (j = k)) as [->|Hne].
      * rewrite list_lookup_insert_eq in Hw' by (by eapply lookup_lt_Some).
        rewrite list_lookup_insert_eq in Hd' by (by eapply lookup_lt_Some).
        injection Hw' as <-. injection Hd' as <-.
        rewrite Hfs in Hj. injection Hj as <-.
        rewrite queueFiles_unpushed, <- app_assoc. done.
      * rewrite list_lookup_insert_ne in Hw' by done.
        rewrite list_lookup_insert_ne in Hd' by done.
        by apply (Hsplit j).
    + intros j w' Hw'.
      destruct (decide (j = k)) as [->|Hne].
      * rewrite list_lookup_insert_eq in Hw' by (by eapply lookup_lt_Some).
        injection Hw' as Hw'. by eapply queueFiles_item.
      * rewrite list_lookup_insert_ne in Hw' by done. by apply (Hitem j).
    + apply Forall_insert.
      * eapply Forall_impl; [exact Hsub|]. intros d' Hd'.
        by apply sublist_inserts_r.
      * apply sublist_app; [|done].
        rewrite Forall_forall in Hsub. apply Hsub.
        by eapply list_elem_of_lookup_2.
    + rewrite concat_insert_snoc by done. by rewrite Hperm.
    + apply Forall_app. split; [done|]. constructor; [|done].
      pose proof (Hitem k w Hk) as Hit.
      split.
      * rewrite Hit at 1. done.
      * simpl. rewrite Forall_forall in Hvalid.
        assert (Hin : fs ∈ chosen evs) by (by eapply list_elem_of_lookup_2).
        apply Hvalid in Hin. rewrite Hfsd in Hin.
        apply Forall_app in Hin as [_ Hin].
        by apply Forall_cons in Hin as [? _].
Qed.

Lemma page_run_fetches evs st :
  HttpSpec.fetches
    (log (fst (page_run generateId createImagePreview evs st)))
  = HttpSpec.fetches (log (fst st)).
Proof.
  induction evs as [|ev evs IH] using rev_ind; [done|].
  rewrite page_run_snoc, <- IH.
  destruct (page_run generateId createImagePreview evs st) as [s1 pg].
  destruct ev as [files|k]; simpl.
  - pose proof (handleFiles_spec (generateId (draws pg)) files s1)
      as (_ & _ & _ & Hf).
    by destruct (handleFiles (generateId (draws pg)) files s1).
  - by destruct (calls pg !! k) as [[w|]|].
Qed.

(** With every call over, the files pushed are the files chosen. *)
Lemma page_inv_over old flag evs pg added dones :
  page_inv createImagePreview old flag evs pg added dones →
  Forall (λ w, w = None) (calls pg) →
  dones = chosen evs.
Proof.
  intros (_ & _ & Hlen & Hlend & Hsplit & _) Hover.
  apply list_eq_same_length with (length (chosen evs)); [done..|].
  intros k d fs Hk Hd Hfs.
  assert (∃ w, calls pg !! k = Some w) as [w Hw]
    by (apply lookup_lt_is_Some; lia).
  rewrite (Hsplit k fs w d Hfs Hw Hd).
  rewrite Forall_forall in Hover.
  rewrite (Hover w) by (by eapply list_elem_of_lookup_2).
  simpl. by rewrite app_nil_r.
Qed.

Lemma page_run_cons ev evs st :
  page_run generateId createImagePreview (ev :: evs) st
  = page_run generateId createImagePreview evs
      (page_step generateId createImagePreview st ev).
Proof. done. Qed.

Lemma page_step_settled s pg k w :
  calls pg !! k = Some (Some w) →
  page_step generateId createImagePreview (s, pg) (PreviewSettled k)
  = (s, {| manager :=
             {| uploadQueue :=
                  uploadQueue (manager pg)
                  ++ [set_preview (item w)
                        (createImagePreview (file (item w)))];
                isUploading := isUploading (manager pg) |};
           calls :=
             <[k := queueFiles (generateId (draws pg)) (remaining w)]>
               (calls pg);
           draws :=
             drawn (queueFiles (generateId (draws pg)) (remaining w))
               (draws pg) |}).
Proof. intros Hk. unfold page_step. by rewrite Hk. Qed.

(** A call that is left alone takes one settled preview per file. *)
Lemma settle_all k rest : ∀ f n queue flag cs s,
  cs !! k = Some (Some {| item := new_item (generateId n) f None;
                          remaining := rest |}) →
  page_run generateId createImagePreview
    (replicate (S (length rest)) (PreviewSettled k))
    (s, {| manager := {| uploadQueue := queue; isUploading := flag |};
           calls := cs; draws := S n |})
  = (s, {| manager :=
             {| uploadQueue :=
                  queue ++ items_for generateId createImagePreview n
                             (f :: rest);
                isUploading := flag |};
           calls := <[k := None]> cs;
           draws := (S n + length rest)%nat |}).
Proof.
  induction rest as [|f' rest IH]; intros f n queue flag cs s Hk.
  - simpl. rewrite Hk. simpl. by rewrite Nat.add_0_r.
  - change (replicate (S (length (f' :: rest))) (PreviewSettled k))
      with (PreviewSettled k :: replicate (S (length rest)) (PreviewSettled k)).
    rewrite page_run_cons.
    rewrite (page_step_settled s
               {| manager := {| uploadQueue := queue; isUploading := flag |};
                  calls := cs; draws := S n |} k _ Hk).
    cbn [calls queueFiles remaining item file new_item set_preview manager
         uploadQueue isUploading draws drawn id preview status progress
         error metadata].
    rewrite (IH f' (S n)).
    + rewrite list_insert_insert_eq, <- app_assoc. simpl.
      do 3 f_equal. lia.
    + apply list_lookup_insert_eq. by eapply lookup_lt_Some.
Qed.

End PageFacts.

(** X16. [handleFiles] does not queue anything itself: it shows the error
    toast exactly when some file was rejected, sends nothing, and leaves a
    call of [queueFiles] waiting for the first preview; the queue is as
    before when it returns.  The items come later, one for each preview
    that settles.  Whatever the order in which files are chosen and
    previews settle: the queue only grows at its end, by items as
    [queueFiles] builds them for files that pass validation, and once no
    call is waiting any more each valid file of each call has been queued
    once, the files of one call in the order given, those of different
    calls interleaved as their previews settled.  A call that is left
    alone queues its valid files in order, with the ids drawn in order. *)
Theorem handle_files_queues_valid_only (generateId : nat → string)
    (createImagePreview : UploadManager.File → option string)
    (evs : list UploadSpec.PageEvent) (m : UploadManager.t) (n : nat)
    (s : Run) :
  let run :=
    UploadSpec.page_run generateId createImagePreview evs
      (s, UploadSpec.at_rest m n) in
  let pg := snd run in
  (∀ files,
     let after :=
       UploadSpec.page_step generateId createImagePreview run
         (UploadSpec.FilesChosen files) in
     UploadSpec.manager (snd after) = UploadSpec.manager pg
     ∧ (Forall (λ f, UploadManager.validateFile f = true) files →
        fst after = fst run)
     ∧ (¬ Forall (λ f, UploadManager.validateFile f = true) files →
        ∃ msg, log (fst after) = log (fst run) ++ [EvToast "error" msg]))
  ∧ HttpSpec.fetches (log (fst run)) = HttpSpec.fetches (log s)
  ∧ UploadManager.isUploading (UploadSpec.manager pg)
    = UploadManager.isUploading m
  ∧ (∃ added,
       UploadManager.uploadQueue (UploadSpec.manager pg)
       = UploadManager.uploadQueue m ++ added
       ∧ Forall (UploadSpec.as_queued createImagePreview) added
       ∧ (Forall (λ w, w = None) (UploadSpec.calls pg) →
          map UploadManager.file added ≡ₚ concat (UploadSpec.chosen evs)
          ∧ Forall (λ fs, fs `sublist_of` map UploadManager.file added)
              (UploadSpec.chosen evs)))
  ∧ (∀ files,
       let valid := List.filter UploadManager.validateFile files in
       UploadManager.uploadQueue
         (UploadSpec.manager
            (snd (UploadSpec.page_run generateId createImagePreview
                    (UploadSpec.FilesChosen files
                     :: replicate (length valid)
                          (UploadSpec.PreviewSettled 0))
                    (s, UploadSpec.at_rest m n))))
       = UploadManager.uploadQueue m
         ++ UploadSpec.items_for generateId createImagePreview n valid).
Proof.
  intros run pg. subst pg run.
  split; [|split; [|split; [|split]]].
  - intros files after. subst after.
    destruct (UploadSpec.page_run generateId createImagePreview evs
                (s, UploadSpec.at_rest m n)) as [s1 pg].
    simpl.
    pose proof (handleFiles_spec (generateId (UploadSpec.draws pg)) files s1)
      as (_ & Hok & Hrej & _).
    destruct (UploadManager.handleFiles (generateId (UploadSpec.draws pg))
                files s1) as [s2 w].
    done.
  - apply page_run_fetches.
  - destruct (page_run_inv generateId createImagePreview evs s
                (UploadSpec.at_rest m n) eq_refl)
      as (added & dones & _ & Hflag & _). exact Hflag.
  - destruct (page_run_inv generateId createImagePreview evs s
                (UploadSpec.at_rest m n) eq_refl)
      as (added & dones & Hinv).
    exists added.
    pose proof Hinv as (Hq & _ & _ & _ & _ & _ & Hsub & Hperm & Hall).
    split; [exact Hq|]. split; [exact Hall|].
    intros Hover.
    rewrite (page_inv_over createImagePreview _ _ _ _ _ _ Hinv Hover)
      in Hsub, Hperm.
    done.
  - intros files valid. subst valid.
    rewrite page_run_cons.
    unfold UploadSpec.page_step at 1, UploadManager.handleFiles.
    destruct (List.filter UploadManager.validateFile files) as [|f rest].
    + simpl. by rewrite app_nil_r.
    + cbn [UploadManager.queueFiles UploadSpec.at_rest UploadSpec.manager
           UploadSpec.calls UploadSpec.draws UploadSpec.drawn app].
      destruct m as [queue flag].
      by rewrite (settle_all generateId createImagePreview 0 rest f n).
Qed.

Lemma handle_files_queues_valid_only_witness :
  let pg :=
    snd (UploadSpec.page_run UploadSpec.numbered UploadSpec.no_preview
           UploadSpec.two_batches
           (HttpSpec.init ∅, UploadSpec.at_rest UploadSpec.idle 0)) in
  map (λ it, UploadManager.file_name (UploadManager.file it))
    (UploadManager.uploadQueue (UploadSpec.manager pg))
  = ["a.png"; "d.png"; "b.png"; "e.png"; "c.png"]
  ∧ map UploadManager.id (UploadManager.uploadQueue (UploadSpec.manager pg))
    = ["id0"; "id1"; "id2"; "id3"; "id4"]
  ∧ ∃ added,
      UploadManager.uploadQueue (UploadSpec.manager pg) = [] ++ added
      ∧ Forall (UploadSpec.as_queued UploadSpec.no_preview) added.
Proof.
  split; [reflexivity|]. split; [reflexivity|].
  destruct (handle_files_queues_valid_only UploadSpec.numbered
              UploadSpec.no_preview UploadSpec.two_batches UploadSpec.idle
              0%nat (HttpSpec.init ∅))
    as (_ & _ & _ & (added & Hq & Hall & _) & _).
  exists added. split; [exact Hq | exact Hall].
Defined.

Section UploadFileFacts.
Import UploadManager UploadSpec HttpSpec.

Lemma uploaded_app l1 l2 : uploaded (l1 ++ l2) = uploaded l1 ++ uploaded l2.
Proof. unfold uploaded. apply List.filter_app. Qed.

Lemma last_cons_default {A} (a : A) l d d' :
  List.last (a :: l) d = List.last (a :: l) d'.
Proof.
  revert a. induction l as [|b l IH]; intros a; [done|].
  change (List.last (a :: b :: l) d) with (List.last (b :: l) d).
  change (List.last (a :: b :: l) d') with (List.last (b :: l) d').
  apply IH.
Qed.

Lemma simulate_more steps it s :
  uploaded (log (fst (simulate steps it s))) = uploaded (log s)
  ∧ fetches (log (fst (simulate steps it s))) = fetches (log s)
  ∧ total_delay (log (fst (simulate steps it s)))
    = total_delay (log s) + 100 * Z.of_nat (length steps)
  ∧ progress (snd (simulate steps it s)) = List.last steps (progress it).
Proof.
  revert it s. induction steps as [|i steps IH]; intros it s.
  - simpl. repeat split; lia.
  - destruct (IH (set_progress it i) (delay 100 s)) as (Hu & Hf & Hd & Hp).
    change (simulate (i :: steps) it s)
      with (simulate steps (set_progress it i) (delay 100 s)).
    rewrite Hu, Hf, Hd, Hp. unfold delay. simpl log.
    rewrite uploaded_app, fetches_app, total_delay_app. simpl.
    rewrite !app_nil_r. split; [done|]. split; [done|]. split; [lia|].
    destruct steps as [|j steps]; [done|].
    change (List.last (i :: j :: steps) (progress it))
      with (List.last (j :: steps) (progress it)).
    apply last_cons_default.
Qed.

Lemma simulate_keeps steps it s :
  file (snd (simulate steps it s)) = file it
  ∧ metadata (snd (simulate steps it s)) = metadata it.
Proof.
  revert it s. induction steps as [|i steps IH]; intros it s; [done|].
  apply (IH (set_progress it i) (delay 100 s)).
Qed.

(** What one [uploadFile] does to the item, the network and the page. *)
Lemma uploadFile_outcome mockId reply it s :
  ∃ s' it' res,
    uploadFile mockId reply it s = (s', it', res)
    ∧ id it' = id it ∧ error it' = error it ∧ file it' = file it
    ∧ fetches (log s') = fetches (log s) ++ [upload_request it]
    ∧ match res with
      | Return v =>
          status it' = Status.completed ∧ progress it' = 100
          ∧ uploaded (log s') = uploaded (log s) ++ [EvImageUploaded v]
      | Throw e =>
          status it' = Status.uploading ∧ progress it' = progress it
          ∧ uploaded (log s') = uploaded (log s)
      | ThrowUndefined => False
      end.
Proof.
  unfold uploadFile, plain_fetch, updateUploadItemStatus.
  set (it0 := set_status it Status.uploading).
  set (s0 := advance _ _).
  assert (Hs0 : fetches (log s0) = fetches (log s) ++ [upload_request it]
                ∧ uploaded (log s0) = uploaded (log s)).
  { subst s0. simpl. rewrite <- app_assoc, fetches_app, uploaded_app. simpl.
    by rewrite app_nil_r. }
  destruct Hs0 as [Hf0 Hu0].
  destruct (simulate_more progress_steps it0 s0) as (Hu & Hf & _ & Hp).
  pose proof (simulate_spec progress_steps it0 s0) as (_ & Hid & _ & Herr).
  assert (Hfile : file (snd (simulate progress_steps it0 s0)) = file it).
  { generalize progress_steps, it0, s0, (eq_refl : file it0 = file it).
    intros steps. induction steps as [|i steps IH]; intros x y Hx; [done|].
    simpl. by apply IH. }
  destruct (simulate progress_steps it0 s0) as [s1 it1] eqn:Hsim.
  cbn [fst snd] in Hu, Hf, Hp, Hid, Herr, Hfile.
  change (List.last progress_steps (progress it0)) with 100 in Hp.
  destruct (outcome reply) as [r|e]; simpl;
    [destruct (Response.ok r); simpl;
     [destruct (Response.json r) as [v|]; simpl|]|];
    try rewrite Hsim;
    repeat match goal with
           | |- context [includes ?m "fetch"] =>
               destruct (includes m "fetch")
           end;
    eexists _, _, _; (split; [reflexivity|]); simpl;
    rewrite ?Hid, ?Herr, ?Hfile, ?Hp;
    (split; [done|]); (split; [done|]); (split; [done|]);
    rewrite ?fetches_app, ?uploaded_app, ?Hf, ?Hu, ?Hf0, ?Hu0; simpl;
    rewrite ?app_nil_r; done.
Qed.

End UploadFileFacts.

Section UploadBatchFacts.
Import UploadManager UploadSpec HttpSpec.


End UploadBatchFacts.



(** X18. Every [uploadFile] sends exactly one upload request. When it
    returns, the item is completed with progress 100 and exactly one
    [imageUploaded] event was dispatched, carrying the record returned;
    when it throws, the item is left as uploading with its progress
    untouched and no event was dispatched. The item keeps its id, file
    and error field either way. *)
Theorem upload_file_dispatches_once (mockId : string) (reply : Reply)
    (it : UploadManager.UploadItem) (s : Run) :
  ∃ s' it' res,
    UploadManager.uploadFile mockId reply it s = (s', it', res)
    ∧ UploadManager.id it' = UploadManager.id it
    ∧ UploadManager.error it' = UploadManager.error it
    ∧ UploadManager.file it' = UploadManager.file it
    ∧ HttpSpec.fetches (log s')
      = HttpSpec.fetches (log s) ++ [UploadSpec.upload_request it]
    ∧ match res with
      | Return v =>
          UploadManager.status it' = Status.completed
          ∧ UploadManager.progress it' = 100
          ∧ UploadSpec.uploaded (log s')
            = UploadSpec.uploaded (log s) ++ [EvImageUploaded v]
      | Throw e =>
          UploadManager.status it' = Status.uploading
          ∧ UploadManager.progress it' = UploadManager.progress it
          ∧ UploadSpec.uploaded (log s') = UploadSpec.uploaded (log s)
      | ThrowUndefined => False
      end.
Proof. apply uploadFile_outcome. Qed.

(** X19. When the upload request fails with an error whose message
    contains "fetch" (a network failure as Chrome and Firefox report it),
    [uploadFile] does not fail: it waits eleven times 100 ms, marks the
    item completed with progress 100 and returns a made-up record built
    from the item (the title falling back to the file name). *)
Theorem upload_network_failure_is_simulated (mockId : string) (reply : Reply)
    (it : UploadManager.UploadItem) (s : Run) (e : JsError.t) :
  outcome reply = Rejects e →
  includes (JsError.message e) "fetch" = true →
  ∃ s' it',
    UploadManager.uploadFile mockId reply it s
    = (s', it', Return (UploadManager.mockResult mockId (clock s') it'))
    ∧ UploadManager.status it' = Status.completed
    ∧ UploadManager.progress it' = 100
    ∧ UploadManager.file it' = UploadManager.file it
    ∧ UploadManager.metadata it' = UploadManager.metadata it
    ∧ HttpSpec.total_delay (log s') = HttpSpec.total_delay (log s) + 1100.
Proof.
  intros Hout Hinc.
  unfold UploadManager.uploadFile, plain_fetch,
    UploadManager.updateUploadItemStatus.
  rewrite Hout. cbv beta iota zeta. rewrite Hinc.
  set (it0 := UploadManager.set_status it Status.uploading).
  set (s0 := advance _ _).
  destruct (simulate_more UploadManager.progress_steps it0 s0)
    as (_ & _ & Hd & Hp).
  pose proof (simulate_keeps UploadManager.progress_steps it0 s0)
    as [Hfile Hmeta].
  destruct (UploadManager.simulate UploadManager.progress_steps it0 s0)
    as [s1 it1].
  cbn [fst snd] in Hd, Hp, Hfile, Hmeta.
  change (List.last UploadManager.progress_steps (UploadManager.progress it0))
    with 100 in Hp.
  change (Z.of_nat (length UploadManager.progress_steps)) with 11 in Hd.
  eexists (emit _ (emit _ s1)), (UploadManager.set_status it1 Status.completed).
  split; [reflexivity|].
  split; [done|]. split; [exact Hp|]. split; [exact Hfile|].
  split; [exact Hmeta|].
  cbn [log emit]. rewrite !total_delay_app, Hd. subst s0. cbn [log emit advance].
  rewrite !total_delay_app. cbn [HttpSpec.total_delay]. lia.
Qed.

Lemma upload_network_failure_is_simulated_witness :
  ∃ s' it',
    UploadManager.uploadFile "mock" (UploadSpec.offline 0%nat)
      (UploadSpec.queued "u1" (UploadSpec.png "a.png" 1000)) (HttpSpec.init ∅)
    = (s', it', Return (UploadManager.mockResult "mock" (clock s') it'))
    ∧ UploadManager.status it' = Status.completed
    ∧ UploadManager.progress it' = 100
    ∧ UploadManager.file it' = UploadSpec.png "a.png" 1000
    ∧ UploadManager.metadata it'
      = UploadManager.metadata
          (UploadSpec.queued "u1" (UploadSpec.png "a.png" 1000))
    ∧ HttpSpec.total_delay (log s') = 0 + 1100.
Proof.
  apply (upload_network_failure_is_simulated "mock" (UploadSpec.offline 0%nat)
           (UploadSpec.queued "u1" (UploadSpec.png "a.png" 1000))
           (HttpSpec.init ∅) JsError.NetworkError); reflexivity.
Defined.

(** ** The gallery: sorting, searching, adding, loading *)

Section SortFacts.
Import GalleryManager.
Context {A : Type} (compareFn : A → A → Z).

Lemma sort_insert_by_Permutation x l :
  sort_insert_by compareFn x l ≡ₚ x :: l.
Proof.
  induction l as [|y l IH]; simpl; [done|].
  destruct (compareFn x y <=? 0); [done|].
  rewrite IH. apply Permutation_swap.
Qed.

Lemma Array_sort_Permutation l : Array_sort compareFn l ≡ₚ l.
Proof.
  induction l as [|x l IH]; simpl; [done|].
  change (foldr (sort_insert_by compareFn) [] l) with (Array_sort compareFn l).
  by rewrite sort_insert_by_Permutation, IH.
Qed.

Lemma Array_sort_of_sorted l :
  StronglySorted (λ a b, compareFn a b <= 0) l → Array_sort compareFn l = l.
Proof.
  induction 1 as [|x l Hl IH Hx]; simpl; [done|].
  change (foldr (sort_insert_by compareFn) [] l) with (Array_sort compareFn l).
  rewrite IH. destruct l as [|y l]; simpl; [done|].
  apply Forall_cons in Hx as [Hxy _].
  by apply Z.leb_le in Hxy as ->.
Qed.

Hypothesis total : ∀ a b, compareFn a b <= 0 ∨ compareFn b a <= 0.
Hypothesis trans :
  ∀ a b c, compareFn a b <= 0 → compareFn b c <= 0 → compareFn a c <= 0.

Lemma sort_insert_by_sorted x l :
  StronglySorted (λ a b, compareFn a b <= 0) l →
  StronglySorted (λ a b, compareFn a b <= 0) (sort_insert_by compareFn x l).
Proof.
  induction 1 as [|y l Hl IH Hy]; simpl.
  - repeat constructor.
  - destruct (Z.leb_spec (compareFn x y) 0) as [Hxy|Hxy].
    + constructor; [by constructor|].
      constructor; [done|].
      eapply Forall_impl; [exact Hy|]. intros z Hz. by eapply trans.
    + constructor; [done|].
      rewrite sort_insert_by_Permutation. constructor; [|done].
      destruct (total x y); [lia|done].
Qed.

Lemma Array_sort_sorted l :
  StronglySorted (λ a b, compareFn a b <= 0) (Array_sort compareFn l).
Proof.
  induction l as [|x l IH]; simpl; [constructor|].
  by apply sort_insert_by_sorted.
Qed.

End SortFacts.

Section OrderFacts.
Import GalleryManager.
Variable toLowerCase : string → string.

Lemma string_compare_trans s1 s2 s3 :
  String.compare s1 s2 ≠ Gt → String.compare s2 s3 ≠ Gt →
  String.compare s1 s3 ≠ Gt.
Proof.
  intros H1 H2.
  pose proof (string_leb_trans s1 s2 s3) as H. unfold String.leb in H.
  destruct (String.compare s1 s2), (String.compare s2 s3),
    (String.compare s1 s3); try done; by (discriminate H).
Qed.

Lemma compare_by_antisym sortBy a b :
  compare_by toLowerCase sortBy a b
  = CompOpp (compare_by toLowerCase sortBy b a).
Proof.
  unfold compare_by.
  destruct (String.eqb sortBy "name"); [apply String.compare_antisym|].
  destruct (String.eqb sortBy "size"); apply Z.compare_antisym.
Qed.

Lemma compare_by_trans sortBy a b c :
  compare_by toLowerCase sortBy a b ≠ Gt →
  compare_by toLowerCase sortBy b c ≠ Gt →
  compare_by toLowerCase sortBy a c ≠ Gt.
Proof.
  unfold compare_by.
  destruct (String.eqb sortBy "name"); [apply string_compare_trans|].
  destruct (String.eqb sortBy "size"); rewrite !Z.compare_le_iff; lia.
Qed.

Lemma comparator_asc sortBy a b :
  comparator toLowerCase sortBy "asc" a b <= 0
  ↔ compare_by toLowerCase sortBy a b ≠ Gt.
Proof.
  unfold comparator. simpl.
  destruct (compare_by toLowerCase sortBy a b); split; (done || lia).
Qed.

Lemma comparator_desc sortBy sortOrder a b :
  sortOrder ≠ "asc" →
  comparator toLowerCase sortBy sortOrder a b <= 0
  ↔ compare_by toLowerCase sortBy b a ≠ Gt.
Proof.
  intros Hne. unfold comparator.
  apply String.eqb_neq in Hne as ->.
  rewrite (compare_by_antisym sortBy a b).
  destruct (compare_by toLowerCase sortBy b a); simpl; split; (done || lia).
Qed.

Lemma comparator_total sortBy sortOrder a b :
  comparator toLowerCase sortBy sortOrder a b <= 0
  ∨ comparator toLowerCase sortBy sortOrder b a <= 0.
Proof.
  unfold comparator. rewrite (compare_by_antisym sortBy a b).
  destruct (compare_by toLowerCase sortBy b a), (String.eqb sortOrder "asc");
    simpl; lia.
Qed.

Lemma comparator_trans sortBy sortOrder a b c :
  comparator toLowerCase sortBy sortOrder a b <= 0 →
  comparator toLowerCase sortBy sortOrder b c <= 0 →
  comparator toLowerCase sortBy sortOrder a c <= 0.
Proof.
  destruct (decide (sortOrder = "asc")) as [->|Hne].
  - rewrite !comparator_asc. apply compare_by_trans.
  - rewrite !comparator_desc by done. intros H1 H2.
    by apply (compare_by_trans sortBy c b a).
Qed.

End OrderFacts.

Section GalleryMore.
Import GalleryManager GallerySpec.
Variable toLowerCase : string → string.

Lemma StronglySorted_weaken {A} (R R' : A → A → Prop) l :
  (∀ a b, R a b → R' a b) → StronglySorted R l → StronglySorted R' l.
Proof.
  intros HR. induction 1 as [|x l Hl IH Hx]; constructor; [done|].
  eapply Forall_impl; [exact Hx|]. intros; by apply HR.
Qed.

Lemma sortImages_sorted sortBy sortOrder g :
  StronglySorted (in_order toLowerCase sortBy sortOrder)
    (filteredImages (sortImages toLowerCase sortBy sortOrder g)).
Proof.
  apply Array_sort_sorted.
  - apply comparator_total.
  - apply comparator_trans.
Qed.

Lemma matches_filter (q : string) g x :
  x ∈ List.filter (matches toLowerCase q) (images g)
  ↔ x ∈ images g ∧ matches toLowerCase q x = true.
Proof. rewrite !list_elem_of_In. apply filter_In. Qed.

Lemma List_filter_sublist {A} (f : A → bool) l : List.filter f l `sublist_of` l.
Proof.
  induction l as [|x l IH]; simpl; [done|].
  destruct (f x); by constructor.
Qed.

Lemma filterImages_images query g :
  images (filterImages toLowerCase query g) = images g.
Proof. unfold filterImages. by destruct (String.eqb query EmptyString). Qed.

End GalleryMore.

(** X20. [sortImages] leaves the backing list alone and rearranges the
    displayed list, losing and adding nothing, into the order asked for:
    each record comes no later than those after it.  Sorting again changes
    nothing.  By size ascending the sizes never fall, by name ascending the
    lower-cased titles (file names where there is no title) never fall, and
    by date descending (the setting of the constructor) the dates never
    rise. *)
Theorem gallery_sort_images (toLowerCase : string → string)
    (sortBy sortOrder : string) (g : GalleryManager.t) :
  let g' := GalleryManager.sortImages toLowerCase sortBy sortOrder g in
  GalleryManager.images g' = GalleryManager.images g
  ∧ GalleryManager.filteredImages g' ≡ₚ GalleryManager.filteredImages g
  ∧ StronglySorted (GallerySpec.in_order toLowerCase sortBy sortOrder)
      (GalleryManager.filteredImages g')
  ∧ GalleryManager.sortImages toLowerCase sortBy sortOrder g' = g'
  ∧ StronglySorted
      (λ a b, GalleryManager.size a <= GalleryManager.size b)
      (GalleryManager.filteredImages
         (GalleryManager.sortImages toLowerCase "size" "asc" g))
  ∧ StronglySorted
      (λ a b,
         string_le
           (toLowerCase (GalleryManager.or_str (GalleryManager.title a)
                           (GalleryManager.filename a)))
           (toLowerCase (GalleryManager.or_str (GalleryManager.title b)
                           (GalleryManager.filename b))))
      (GalleryManager.filteredImages
         (GalleryManager.sortImages toLowerCase "name" "asc" g))
  ∧ StronglySorted
      (λ a b, GalleryManager.uploadDate b <= GalleryManager.uploadDate a)
      (GalleryManager.filteredImages
         (GalleryManager.sortImages toLowerCase "date" "desc" g)).
Proof.
  intros g'. subst g'.
  split; [done|]. split; [apply Array_sort_Permutation|].
  split; [apply sortImages_sorted|].
  split.
  { pose proof (sortImages_sorted toLowerCase sortBy sortOrder g) as Hs.
    apply Array_sort_of_sorted in Hs.
    unfold GalleryManager.sortImages in *. simpl in *. by rewrite Hs. }
  split; [|split].
  - eapply StronglySorted_weaken; [|apply sortImages_sorted].
    intros a b. unfold GallerySpec.in_order. rewrite comparator_asc.
    unfold GalleryManager.compare_by. simpl. by rewrite Z.compare_le_iff.
  - eapply StronglySorted_weaken; [|apply sortImages_sorted].
    intros a b. unfold GallerySpec.in_order. rewrite comparator_asc.
    unfold GalleryManager.compare_by, string_le, String.leb. simpl.
    by destruct (String.compare _ _).
  - eapply StronglySorted_weaken; [|apply sortImages_sorted].
    intros a b. unfold GallerySpec.in_order.
    rewrite comparator_desc by done.
    unfold GalleryManager.compare_by. simpl. by rewrite Z.compare_le_iff.
Qed.

(** X21. [filterImages] never touches the backing list, and what it shows
    is picked from the backing list, in the order of that list, whatever
    was shown before: with an empty query all of it, otherwise exactly the
    records that match the lower-cased query.  So a second search does not
    narrow the first, and two queries with the same lower-case form show
    the same. *)
Theorem gallery_filter_images (toLowerCase : string → string)
    (query : string) (g : GalleryManager.t) :
  let g' := GalleryManager.filterImages toLowerCase query g in
  GalleryManager.images g' = GalleryManager.images g
  ∧ GalleryManager.filteredImages g' `sublist_of` GalleryManager.images g
  ∧ (query = EmptyString →
     GalleryManager.filteredImages g' = GalleryManager.images g)
  ∧ (query ≠ EmptyString →
     ∀ x, x ∈ GalleryManager.filteredImages g'
          ↔ x ∈ GalleryManager.images g
            ∧ GalleryManager.matches toLowerCase (toLowerCase query) x
              = true)
  ∧ (∀ earlier,
       GalleryManager.filterImages toLowerCase query
         (GalleryManager.filterImages toLowerCase earlier g) = g')
  ∧ (∀ query',
       query ≠ EmptyString → query' ≠ EmptyString →
       toLowerCase query' = toLowerCase query →
       GalleryManager.filterImages toLowerCase query' g = g').
Proof.
  intros g'. subst g'. unfold GalleryManager.filterImages.
  destruct (String.eqb_spec query EmptyString) as [->|Hq]; simpl.
  - split; [done|]. split; [done|]. split; [done|]. split; [done|].
    split; [|done].
    intros earlier. by destruct (String.eqb earlier EmptyString).
  - split; [done|]. split; [apply List_filter_sublist|]. split; [done|].
    split; [intros _ x; apply matches_filter|].
    split.
    + intros earlier. by destruct (String.eqb earlier EmptyString).
    + intros query' _ Hq' Heq.
      apply String.eqb_neq in Hq' as ->. by rewrite Heq.
Qed.

(** X22. [addImage] puts the new record at the head of the backing list
    and shows the whole backing list again, in sort order: a filter that
    was in force is dropped, so records it had hidden are shown again. *)
Theorem gallery_add_image (toLowerCase : string → string)
    (sortBy sortOrder query : string) (imageData : GalleryManager.ImageRecord)
    (g : GalleryManager.t) :
  let g' :=
    GalleryManager.addImage toLowerCase sortBy sortOrder imageData
      (GalleryManager.filterImages toLowerCase query g) in
  GalleryManager.images g' = imageData :: GalleryManager.images g
  ∧ GalleryManager.filteredImages g' ≡ₚ GalleryManager.images g'
  ∧ StronglySorted (GallerySpec.in_order toLowerCase sortBy sortOrder)
      (GalleryManager.filteredImages g')
  ∧ g' = GalleryManager.addImage toLowerCase sortBy sortOrder imageData g.
Proof.
  intros g'. subst g'.
  unfold GalleryManager.addImage. rewrite filterImages_images.
  split; [done|]. split; [apply Array_sort_Permutation|].
  split; [apply sortImages_sorted|done].
Qed.

Section LoadFacts.
Import GalleryManager GallerySpec.
Variable toLowerCase : string → string.
Variable css : string → bool.
Variable read_images : JsValue → Completion (list ImageRecord).

Lemma page_request_url v :
  EvFetch (page_url v) {| method := "GET"; headers := ∅; body := None |}
  = page_request v (currentPage v).
Proof. done. Qed.

(** The [try] block sends one request and takes as long as the reply. *)
Lemma fetch_page_state reply v s :
  fst (fetch_page read_images reply v s)
  = advance (latency reply) (emit (page_request v (currentPage v)) s).
Proof.
  unfold fetch_page, bind, plain_fetch, throw. rewrite page_request_url.
  destruct (outcome reply) as [r|e]; [|done].
  destruct (negb (Response.ok r)); [done|].
  by destruct (Response.json r).
Qed.

Lemma fetch_page_delivers reply v s loaded :
  snd (fetch_page read_images reply v s) = Return loaded
  ↔ delivers read_images reply loaded.
Proof.
  unfold fetch_page, bind, plain_fetch, throw, delivers.
  destruct (outcome reply) as [r|e]; simpl.
  - destruct (Response.ok r) eqn:Hok; simpl.
    + destruct (Response.json r) as [data|] eqn:Hjson; simpl.
      * split; [intros H; by exists r, data|].
        intros (r' & data' & [= <-] & _ & Hj & Hr). congruence.
      * split; [done|]. intros (r' & data' & [= <-] & _ & Hj & _). congruence.
    + split; [done|]. intros (r' & data' & [= <-] & Hok' & _). congruence.
  - split; [done|]. by intros (r' & data' & [=] & _).
Qed.

(** The cards of the demo records can always be looked up. *)
Lemma loadDemoData_displays now v :
  loadDemoData css now v
  = (set_lists {| images := demoData now; filteredImages := demoData now |}
       v, Return tt).
Proof.
  unfold loadDemoData, displayImages, selector_ok. simpl.
  by rewrite orb_true_r.
Qed.

Lemma forallb_Permutation {A} (f : A → bool) l1 l2 :
  l1 ≡ₚ l2 → forallb f l1 = forallb f l2.
Proof.
  induction 1 as [|x l1 l2 _ IH|x y l|l1 l2 l3 _ IH1 _ IH2]; simpl.
  - done.
  - by rewrite IH.
  - by rewrite !andb_assoc, (andb_comm (f y)).
  - by rewrite IH1.
Qed.

(** Whether [displayImages()] returns once the records [all] have been
    sorted into the displayed list. *)
Lemma displayImages_sorted v all :
  displayImages css
    (set_lists
       (sortImages toLowerCase (sortBy v) (sortOrder v)
          {| images := all; filteredImages := all |}) v)
  = if displayable css v all then Return tt
    else Throw {| JsError.name := "SyntaxError";
                  JsError.message := "The selector is not valid";
                  JsError.status := None |}.
Proof.
  unfold displayImages, displayable. simpl.
  by rewrite (forallb_Permutation _ _ all)
    by apply Array_sort_Permutation.
Qed.

Lemma loadImages_failure reply v s :
  isLoading v = false →
  (∀ loaded, ¬ delivers read_images reply loaded) →
  loadImages toLowerCase css read_images reply v s
  = (emit (EvToast "error" "Failed to load images")
       (advance (latency reply) (emit (page_request v (currentPage v)) s)),
     set_isLoading false
       (if currentPage v =? 1
        then set_lists
               {| images := demoData (clock s + Z.max 0 (latency reply));
                  filteredImages :=
                    demoData (clock s + Z.max 0 (latency reply)) |} v
        else v)).
Proof.
  intros Hidle Hfail. unfold loadImages, load_try. rewrite Hidle.
  pose proof (fetch_page_state reply v s) as Hs.
  pose proof (fetch_page_delivers reply v s) as Hd.
  destruct (fetch_page read_images reply v s) as [s' [loaded|e|]];
    simpl in Hs, Hd; subst s'.
  - by destruct (Hfail loaded); apply Hd.
  - destruct (currentPage v =? 1); [|done].
    by rewrite loadDemoData_displays.
  - destruct (currentPage v =? 1); [|done].
    by rewrite loadDemoData_displays.
Qed.

Lemma loadImages_delivered reply v s loaded :
  isLoading v = false →
  delivers read_images reply loaded →
  let all :=
    if currentPage v =? 1 then loaded else images (lists v) ++ loaded in
  let s1 :=
    advance (latency reply) (emit (page_request v (currentPage v)) s) in
  let v1 :=
    set_lists
      (sortImages toLowerCase (sortBy v) (sortOrder v)
         {| images := all; filteredImages := all |}) v in
  loadImages toLowerCase css read_images reply v s
  = if displayable css v all then (s1, set_isLoading false v1)
    else (emit (EvToast "error" "Failed to load images") s1,
          set_isLoading false
            (if currentPage v =? 1
             then set_lists
                    {| images := demoData (clock s1);
                       filteredImages := demoData (clock s1) |} v1
             else v1)).
Proof.
  intros Hidle Hload all s1 v1. subst all s1 v1.
  unfold loadImages, load_try. rewrite Hidle.
  pose proof (fetch_page_state reply v s) as Hs.
  apply (fetch_page_delivers reply v s) in Hload.
  destruct (fetch_page read_images reply v s) as [s' c].
  simpl in Hs, Hload. subst s' c.
  rewrite displayImages_sorted.
  destruct (displayable css v _); [done|].
  cbn [currentPage set_lists].
  destruct (currentPage v =? 1); [|done].
  by rewrite loadDemoData_displays.
Qed.

(** Whatever the reply, a load that is not held back sends its one
    request and nothing else. *)
Lemma loadImages_fetches reply v s :
  isLoading v = false →
  HttpSpec.fetches
    (log (fst (loadImages toLowerCase css read_images reply v s)))
  = HttpSpec.fetches (log s) ++ [page_request v (currentPage v)].
Proof.
  intros Hidle. unfold loadImages, load_try. rewrite Hidle.
  pose proof (fetch_page_state reply v s) as Hs.
  destruct (fetch_page read_images reply v s) as [s' [loaded|e|]];
    simpl in Hs; subst s'.
  - destruct (displayImages css _) as [[]|e|]; cbn [currentPage set_lists].
    + simpl. by rewrite fetches_app.
    + destruct (currentPage v =? 1);
        [rewrite loadDemoData_displays|]; simpl;
        by rewrite <- app_assoc, !fetches_app.
    + destruct (currentPage v =? 1);
        [rewrite loadDemoData_displays|]; simpl;
        by rewrite <- app_assoc, !fetches_app.
  - destruct (currentPage v =? 1);
      [rewrite loadDemoData_displays|]; simpl;
      by rewrite <- app_assoc, !fetches_app.
  - destruct (currentPage v =? 1);
      [rewrite loadDemoData_displays|]; simpl;
      by rewrite <- app_assoc, !fetches_app.
Qed.

End LoadFacts.

(** X23. A reply that brings records: [loadImages] sends one request, for
    the current page with the page size as limit.  On page 1 the records
    replace the backing list, on a later page they are appended to it,
    and the displayed list becomes the whole backing list in sort order (a
    filter in force is dropped).  When the records can then be displayed
    (the page has no grid element, or the card of each can be looked up)
    nothing is reported.  When they cannot, the look-up throws inside the
    [try]: 'Failed to load images' is reported although the reply was
    good, and on page 1 the demo records take the place of the records
    loaded, while on a later page the lists keep the records loaded.  The
    page number stays and the manager is no longer loading either way. *)
Theorem gallery_load_page (toLowerCase : string → string)
    (css : string → bool)
    (read_images : JsValue → Completion (list GalleryManager.ImageRecord))
    (reply : Reply) (v : GalleryManager.View) (s : Run)
    (loaded : list GalleryManager.ImageRecord) :
  GalleryManager.isLoading v = false →
  GallerySpec.delivers read_images reply loaded →
  let run :=
    GalleryManager.loadImages toLowerCase css read_images reply v s in
  let g' := GalleryManager.lists (snd run) in
  let all :=
    if GalleryManager.currentPage v =? 1 then loaded
    else GalleryManager.images (GalleryManager.lists v) ++ loaded in
  let sorted l :=
    GalleryManager.filteredImages l ≡ₚ GalleryManager.images l
    ∧ StronglySorted
        (GallerySpec.in_order toLowerCase (GalleryManager.sortBy v)
           (GalleryManager.sortOrder v))
        (GalleryManager.filteredImages l) in
  GalleryManager.isLoading (snd run) = false
  ∧ GalleryManager.currentPage (snd run) = GalleryManager.currentPage v
  ∧ (GallerySpec.displayable css v all = true →
     log (fst run)
     = log s ++ [GallerySpec.page_request v (GalleryManager.currentPage v)]
     ∧ GalleryManager.images g' = all
     ∧ sorted g')
  ∧ (GallerySpec.displayable css v all = false →
     log (fst run)
     = log s ++ [GallerySpec.page_request v (GalleryManager.currentPage v);
                 EvToast "error" "Failed to load images"]
     ∧ (GalleryManager.currentPage v = 1 →
        GalleryManager.images g'
        = GalleryManager.demoData (clock s + Z.max 0 (latency reply))
        ∧ GalleryManager.filteredImages g' = GalleryManager.images g')
     ∧ (GalleryManager.currentPage v ≠ 1 →
        GalleryManager.images g' = all ∧ sorted g')).
Proof.
  intros Hidle Hload run g' all sorted. subst sorted g' run all.
  rewrite (loadImages_delivered toLowerCase css read_images reply v s loaded)
    by done.
  cbv zeta.
  destruct (GallerySpec.displayable css v _); cbn [fst snd].
  - split; [done|]. split; [done|]. split; [|done]. intros _.
    split; [done|]. split; [done|].
    split; [apply Array_sort_Permutation | apply sortImages_sorted].
  - split; [done|].
    split; [by destruct (GalleryManager.currentPage v =? 1)|].
    split; [done|]. intros _.
    split; [simpl; by rewrite <- app_assoc|].
    split.
    + intros Hp. rewrite Hp. done.
    + intros Hne. apply Z.eqb_neq in Hne. rewrite Hne.
      split; [done|].
      split; [apply Array_sort_Permutation | apply sortImages_sorted].
Qed.

Lemma gallery_load_page_witness :
  let run :=
    GalleryManager.loadImages GallerySpec.ascii_lower GallerySpec.quotes_paired
      GallerySpec.read_titles (GallerySpec.listing ["Sea"; "Sky"])
      (GallerySpec.view GallerySpec.demo 2) (HttpSpec.init ∅) in
  let run' :=
    GalleryManager.loadImages GallerySpec.ascii_lower GallerySpec.quotes_paired
      GallerySpec.read_titles (GallerySpec.listing ["Sea"; GallerySpec.quoted_title])
      (GallerySpec.view GallerySpec.demo 1) (HttpSpec.init ∅) in
  (GalleryManager.images (GalleryManager.lists (snd run))
   = GalleryManager.images GallerySpec.demo
     ++ [GallerySpec.image "Sea" "Sea"; GallerySpec.image "Sky" "Sky"]
   ∧ length (log (fst run)) = 1%nat)
  ∧ (GalleryManager.images (GalleryManager.lists (snd run'))
     = GalleryManager.demoData 20
     ∧ List.last (log (fst run')) (EvDelay 0)
       = EvToast "error" "Failed to load images").
Proof.
  split.
  - destruct (gallery_load_page GallerySpec.ascii_lower GallerySpec.quotes_paired
                GallerySpec.read_titles
                (GallerySpec.listing ["Sea"; "Sky"])
                (GallerySpec.view GallerySpec.demo 2) (HttpSpec.init ∅)
                [GallerySpec.image "Sea" "Sea"; GallerySpec.image "Sky" "Sky"])
      as (_ & _ & Hshown & _).
    + reflexivity.
    + eexists _, _. split; [reflexivity|]. split; [reflexivity|].
      split; reflexivity.
    + destruct (Hshown eq_refl) as (Hlog & Himages & _).
      split; [exact Himages|]. by rewrite Hlog.
  - destruct (gallery_load_page GallerySpec.ascii_lower GallerySpec.quotes_paired
                GallerySpec.read_titles
                (GallerySpec.listing ["Sea"; GallerySpec.quoted_title])
                (GallerySpec.view GallerySpec.demo 1) (HttpSpec.init ∅)
                [GallerySpec.image "Sea" "Sea";
                 GallerySpec.image GallerySpec.quoted_title
                   GallerySpec.quoted_title])
      as (_ & _ & _ & Hhidden).
    + reflexivity.
    + eexists _, _. split; [reflexivity|]. split; [reflexivity|].
      split; reflexivity.
    + destruct (Hhidden eq_refl) as (Hlog & Hdemo & _).
      split; [exact (proj1 (Hdemo eq_refl))|]. by rewrite Hlog.
Defined.

(** X24. Any other reply (the request is rejected, the status is outside
    200 to 299, the body does not parse, or it cannot be read): [loadImages]
    still sends its one request and then reports 'Failed to load images'.
    On page 1 both lists become the three demo records, dated from the
    moment of the failure; on any other page both lists stay as they were.
    The page number stays and the manager is no longer loading. *)
Theorem gallery_load_failure (toLowerCase : string → string)
    (css : string → bool)
    (read_images : JsValue → Completion (list GalleryManager.ImageRecord))
    (reply : Reply) (v : GalleryManager.View) (s : Run) :
  GalleryManager.isLoading v = false →
  (∀ loaded, ¬ GallerySpec.delivers read_images reply loaded) →
  let run :=
    GalleryManager.loadImages toLowerCase css read_images reply v s in
  let g' := GalleryManager.lists (snd run) in
  log (fst run)
  = log s ++ [GallerySpec.page_request v (GalleryManager.currentPage v);
              EvToast "error" "Failed to load images"]
  ∧ (GalleryManager.currentPage v = 1 →
     GalleryManager.images g'
     = GalleryManager.demoData (clock s + Z.max 0 (latency reply))
     ∧ GalleryManager.filteredImages g' = GalleryManager.images g'
     ∧ length (GalleryManager.images g') = 3%nat)
  ∧ (GalleryManager.currentPage v ≠ 1 → g' = GalleryManager.lists v)
  ∧ GalleryManager.isLoading (snd run) = false
  ∧ GalleryManager.currentPage (snd run) = GalleryManager.currentPage v.
Proof.
  intros Hidle Hfail run g'. subst g' run.
  rewrite loadImages_failure by done. cbn [fst snd].
  split; [simpl; by rewrite <- app_assoc|].
  split; [intros ->; by simpl|].
  split; [intros Hne; apply Z.eqb_neq in Hne; by rewrite Hne|].
  by destruct (GalleryManager.currentPage v =? 1).
Qed.

Lemma gallery_load_failure_witness :
  let run :=
    GalleryManager.loadImages GallerySpec.ascii_lower GallerySpec.quotes_paired
      GallerySpec.read_titles
      (GallerySpec.answers 500 "Internal Server Error")
      (GallerySpec.view GallerySpec.demo 1) (HttpSpec.init ∅) in
  GalleryManager.images (GalleryManager.lists (snd run))
  = GalleryManager.demoData 15
  ∧ GalleryManager.filteredImages (GalleryManager.lists (snd run))
    = GalleryManager.demoData 15
  ∧ List.last (log (fst run)) (EvDelay 0)
    = EvToast "error" "Failed to load images".
Proof.
  destruct (gallery_load_failure GallerySpec.ascii_lower GallerySpec.quotes_paired
              GallerySpec.read_titles
              (GallerySpec.answers 500 "Internal Server Error")
              (GallerySpec.view GallerySpec.demo 1) (HttpSpec.init ∅))
    as (Hlog & Hdemo & _).
  - reflexivity.
  - intros loaded (r & data & Hr & Hok & _).
    injection Hr as <-. discriminate Hok.
  - destruct (Hdemo eq_refl) as (Himages & Hshown & _).
    split; [exact Himages|]. split; [by rewrite Hshown, Himages|].
    by rewrite Hlog.
Defined.

(** X25. Scrolling near the bottom while nothing is loading asks for the
    next page, and the page number moves on even when that request fails:
    the lists stay as they were, and the next scroll asks for the page
    after the failed one, so the failed page is never asked for again. *)
Theorem gallery_scroll_skips_failed_page (toLowerCase : string → string)
    (css : string → bool)
    (read_images : JsValue → Completion (list GalleryManager.ImageRecord))
    (innerHeight scrollY offsetHeight : Z) (reply reply' : Reply)
    (v : GalleryManager.View) (s : Run) :
  GalleryManager.isLoading v = false →
  offsetHeight - 1000 <= innerHeight + scrollY →
  1 <= GalleryManager.currentPage v →
  (∀ loaded, ¬ GallerySpec.delivers read_images reply loaded) →
  let run :=
    GalleryManager.handleScroll toLowerCase css read_images innerHeight
      scrollY offsetHeight reply v s in
  let run' :=
    GalleryManager.handleScroll toLowerCase css read_images innerHeight
      scrollY offsetHeight reply' (snd run) (fst run) in
  GalleryManager.lists (snd run) = GalleryManager.lists v
  ∧ GalleryManager.currentPage (snd run) = GalleryManager.currentPage v + 1
  ∧ HttpSpec.fetches (log (fst run'))
    = HttpSpec.fetches (log s)
      ++ [GallerySpec.page_request v (GalleryManager.currentPage v + 1);
          GallerySpec.page_request v (GalleryManager.currentPage v + 2)].
Proof.
  intros Hidle Hnear Hpage Hfail run run'.
  apply Z.leb_le in Hnear.
  assert (Hrun : run
    = (emit (EvToast "error" "Failed to load images")
         (advance (latency reply)
            (emit (GallerySpec.page_request v
                     (GalleryManager.currentPage v + 1)) s)),
       GalleryManager.set_isLoading false
         (GalleryManager.set_currentPage
            (GalleryManager.currentPage v + 1) v))).
  { subst run. unfold GalleryManager.handleScroll.
    rewrite Hnear, Hidle. cbn [andb negb].
    rewrite loadImages_failure by done.
    change (GalleryManager.currentPage
              (GalleryManager.set_currentPage
                 (GalleryManager.currentPage v + 1) v))
      with (GalleryManager.currentPage v + 1).
    destruct (Z.eqb_spec (GalleryManager.currentPage v + 1) 1) as [?|_];
      [lia|done]. }
  subst run'. rewrite Hrun. clear Hrun run. cbn [fst snd].
  split; [done|]. split; [done|].
  unfold GalleryManager.handleScroll. rewrite Hnear. cbn [andb negb].
  cbn [GalleryManager.isLoading GalleryManager.set_isLoading negb andb].
  rewrite loadImages_fetches by done.
  cbn [GalleryManager.currentPage GalleryManager.set_currentPage
       GalleryManager.set_isLoading].
  replace (GalleryManager.currentPage v + 1 + 1)
    with (GalleryManager.currentPage v + 2) by lia.
  simpl. rewrite !fetches_app. simpl.
  rewrite app_nil_r, <- app_assoc. reflexivity.
Qed.

Lemma gallery_scroll_skips_failed_page_witness :
  let run :=
    GalleryManager.handleScroll GallerySpec.ascii_lower GallerySpec.quotes_paired
      GallerySpec.read_titles 800 4500 6000
      (GallerySpec.answers 500 "Internal Server Error")
      (GallerySpec.view GallerySpec.demo 1) (HttpSpec.init ∅) in
  let run' :=
    GalleryManager.handleScroll GallerySpec.ascii_lower GallerySpec.quotes_paired
      GallerySpec.read_titles 800 4500 6000 (GallerySpec.listing ["Sea"])
      (snd run) (fst run) in
  GalleryManager.lists (snd run) = GallerySpec.demo
  ∧ GalleryManager.currentPage (snd run) = 2
  ∧ HttpSpec.fetches (log (fst run'))
    = [GallerySpec.page_request (GallerySpec.view GallerySpec.demo 1) 2;
       GallerySpec.page_request (GallerySpec.view GallerySpec.demo 1) 3].
Proof.
  apply (gallery_scroll_skips_failed_page GallerySpec.ascii_lower
           GallerySpec.quotes_paired GallerySpec.read_titles 800 4500 6000
           (GallerySpec.answers 500 "Internal Server Error")
           (GallerySpec.listing ["Sea"])
           (GallerySpec.view GallerySpec.demo 1) (HttpSpec.init ∅)).
  - reflexivity.
  - lia.
  - simpl. lia.
  - intros loaded (r & data & Hr & Hok & _).
    injection Hr as <-. discriminate Hok.
Defined.

(** ** Timers: [throttle] and [debounce] *)

Section TimerFacts.
Import Timers TimerSpec.
Context {A : Type}.
Implicit Types (calls : list (@Call A)) (c p : @Call A).



End TimerFacts.



Section DebounceFacts.
Import Timers TimerSpec.
Context {A : Type}.
Implicit Types (calls : list (@Call A)) (c p : @Call A).






End DebounceFacts.



(** ** The upload queue: taking items out *)

Section QueueFacts.
Import UploadManager.

Lemma List_filter_comm {A} (f g : A → bool) l :
  List.filter f (List.filter g l) = List.filter g (List.filter f l).
Proof.
  induction l as [|x l IH]; simpl; [done|].
  destruct (g x) eqn:Hg, (f x) eqn:Hf; simpl; rewrite ?Hg, ?Hf, IH; done.
Qed.

End QueueFacts.

(** X28. [removeUploadItem] takes out of the queue every item with the
    given id and nothing else, keeping the order of the rest, and it does
    so whether or not an upload is running; it commutes with
    [clearCompletedUploads].  [clearAllUploads] refuses while an upload is
    running: it leaves the queue as it is, shows a warning and returns.
    Otherwise it empties the queue and then throws a [TypeError], because
    the toast manager has no [info] method: the confirmation is never
    shown.  None of them changes the uploading flag. *)
Theorem upload_queue_removals (uploadId : string) (m : UploadManager.t)
    (s : Run) :
  let removed := UploadManager.removeUploadItem uploadId m in
  let cleared := UploadManager.clearAllUploads m s in
  (∀ it, it ∈ UploadManager.uploadQueue removed
         ↔ it ∈ UploadManager.uploadQueue m
           ∧ UploadManager.id it ≠ uploadId)
  ∧ UploadManager.uploadQueue removed
    `sublist_of` UploadManager.uploadQueue m
  ∧ UploadManager.removeUploadItem uploadId
      (UploadManager.clearCompletedUploads m)
    = UploadManager.clearCompletedUploads removed
  ∧ UploadManager.isUploading removed = UploadManager.isUploading m
  ∧ UploadManager.isUploading (snd (fst cleared))
    = UploadManager.isUploading m
  ∧ (UploadManager.isUploading m = true →
     cleared
     = (emit (EvToast "warning"
                "Cannot clear uploads while uploading is in progress.") s,
        m, Return tt))
  ∧ (UploadManager.isUploading m = false →
     UploadManager.uploadQueue (snd (fst cleared)) = []
     ∧ fst (fst cleared) = s
     ∧ ∃ e, snd cleared = Throw e ∧ JsError.name e = "TypeError").
Proof.
  intros removed cleared. subst removed cleared.
  unfold UploadManager.removeUploadItem, UploadManager.clearAllUploads,
    UploadManager.clearCompletedUploads.
  cbn [UploadManager.uploadQueue UploadManager.isUploading].
  split.
  { intros it. rewrite !list_elem_of_In, filter_In, negb_true_iff.
    by rewrite String.eqb_neq. }
  split; [apply List_filter_sublist|].
  split; [f_equal; apply List_filter_comm|].
  split; [done|].
  destruct (UploadManager.isUploading m) eqn:Hup; cbn [fst snd].
  - split; [done|]. split; [done|]. by intros.
  - split; [done|]. split; [done|]. intros _.
    split; [done|]. split; [done|]. by eexists.
Qed.

(** ** The mock pages of [getMockImageData] *)

Section MockFacts.
Import ApiService MockSpec.

Lemma slice_take_drop {A} (l : list A) (start end_ : Z) :
  0 <= start <= end_ →
  slice l start end_
  = take (Z.to_nat (end_ - start)) (drop (Z.to_nat start) l).
Proof.
  intros [H0 Hle]. unfold slice.
  destruct (Z.ltb_spec start 0) as [?|_]; [lia|].
  destruct (Z.ltb_spec end_ 0) as [?|_]; [lia|].
  destruct (Z.le_gt_cases start (Z.of_nat (length l))) as [Hin|Hout].
  - rewrite (Z.min_l start) by done.
    destruct (Z.le_gt_cases end_ (Z.of_nat (length l))) as [Hin'|Hout'].
    + by rewrite Z.min_l.
    + rewrite Z.min_r by lia.
      rewrite !take_ge; [done| |]; rewrite length_drop; lia.
  - rewrite !Z.min_r by lia.
    rewrite !drop_ge by lia. by rewrite !take_nil.
Qed.

Lemma concat_pages {A} (l : list A) (size n : nat) :
  concat (map (λ k, take size (drop ((k - 1) * size) l)) (seq 1 n))
  = take (n * size) l.
Proof.
  induction n as [|n IH]; [done|].
  rewrite seq_S, map_app, concat_app, IH. simpl.
  rewrite app_nil_r, Nat.sub_0_r.
  rewrite <- (take_drop (n * size) (take (size + n * size) l)) at 1.
  rewrite take_take, skipn_firstn_comm.
  do 2 f_equal; lia.
Qed.

Lemma images_of_object items rest :
  images_of (JObj (("images", JArr items) :: rest)) = items.
Proof. done. Qed.

Lemma field_totalPages a b c d e :
  field (JObj [("images", a); ("total", b); ("page", c); ("totalPages", d);
               ("hasMore", e)]) "totalPages" = d.
Proof. done. Qed.

Lemma field_hasMore a b c d e :
  field (JObj [("images", a); ("total", b); ("page", c); ("totalPages", d);
               ("hasMore", e)]) "hasMore" = e.
Proof. done. Qed.

Lemma ceil_div_bounds n d :
  0 < d → (ceil_div n d - 1) * d < n <= ceil_div n d * d.
Proof.
  intros Hd. unfold ceil_div.
  pose proof (Z.div_mod (- n) d) as Hdm.
  pose proof (Z.mod_pos_bound (- n) d Hd). nia.
Qed.

Lemma mock_page_images now page limit :
  1 <= page → 1 <= limit →
  images_of (getMockImageData now (Some page) (Some limit))
  = take (Z.to_nat limit)
      (drop (Z.to_nat ((page - 1) * limit)) (mockImages now)).
Proof.
  intros Hp Hl. unfold getMockImageData, HttpClient.or_number.
  destruct (Z.eqb_spec page 0) as [?|_]; [lia|].
  destruct (Z.eqb_spec limit 0) as [?|_]; [lia|].
  rewrite images_of_object, slice_take_drop by nia.
  do 2 f_equal. lia.
Qed.

Lemma mock_pages_up_to now limit n :
  1 <= limit →
  pages_up_to now limit n = take (n * Z.to_nat limit) (mockImages now).
Proof.
  intros Hl. unfold pages_up_to.
  rewrite <- concat_pages. f_equal.
  apply map_ext_in. intros k Hk%in_seq.
  rewrite mock_page_images by lia.
  do 2 f_equal. nia.
Qed.

End MockFacts.

(** X29. The mock pages for a page size of at least 1: page [p] holds the
    [limit] records after the first [(p - 1) * limit], the pages 1 to [n]
    one after the other are the first [n * limit] records, so that the
    pages up to [totalPages] give each of the five records exactly once,
    in order; [totalPages] is the least such number, and [hasMore] is true
    exactly on the pages before it.  Without [page] and [limit] the call
    answers as for page 1 with 20 records a page, which is all five. *)
Theorem mock_pages_cover_all (now limit : Z) :
  1 <= limit →
  let answer page :=
    ApiService.getMockImageData now (Some page) (Some limit) in
  let totalPages := ApiService.ceil_div 5 limit in
  (∀ page, 1 <= page →
     MockSpec.images_of (answer page)
     = take (Z.to_nat limit)
         (drop (Z.to_nat ((page - 1) * limit)) (ApiService.mockImages now))
     ∧ MockSpec.field (answer page) "totalPages" = JNum totalPages
     ∧ MockSpec.field (answer page) "hasMore" = JBool (page <? totalPages))
  ∧ (∀ n, MockSpec.pages_up_to now limit n
          = take (n * Z.to_nat limit) (ApiService.mockImages now))
  ∧ MockSpec.pages_up_to now limit (Z.to_nat totalPages)
    = ApiService.mockImages now
  ∧ (∀ n, MockSpec.pages_up_to now limit n = ApiService.mockImages now →
          (Z.to_nat totalPages <= n)%nat)
  ∧ ApiService.getMockImageData now None None
    = ApiService.getMockImageData now (Some 1) (Some 20)
  ∧ MockSpec.images_of (ApiService.getMockImageData now None None)
    = ApiService.mockImages now.
Proof.
  intros Hl answer totalPages. subst answer totalPages.
  pose proof (ceil_div_bounds 5 limit ltac:(lia)) as Hceil.
  assert (Hlen : length (ApiService.mockImages now) = 5%nat) by done.
  split; [|split; [|split; [|split; [|split]]]].
  - intros page Hp. split; [by apply mock_page_images|].
    unfold ApiService.getMockImageData, HttpClient.or_number.
    destruct (Z.eqb_spec page 0) as [?|_]; [lia|].
    destruct (Z.eqb_spec limit 0) as [?|_]; [lia|].
    rewrite field_totalPages, field_hasMore, Hlen.
    split; [done|]. f_equal.
    destruct (Z.ltb_spec page (ApiService.ceil_div 5 limit)),
      (Z.ltb_spec ((page - 1) * limit + limit) (Z.of_nat 5)); try done; nia.
  - intros n. by apply mock_pages_up_to.
  - rewrite mock_pages_up_to by done. apply take_ge. rewrite Hlen. nia.
  - intros n Hn. rewrite mock_pages_up_to in Hn by done.
    apply (f_equal length) in Hn. rewrite length_take, Hlen in Hn. nia.
  - done.
  - change (ApiService.getMockImageData now None None)
      with (ApiService.getMockImageData now (Some 1) (Some 20)).
    rewrite (mock_page_images now 1 20) by lia. reflexivity.
Qed.

Lemma mock_pages_cover_all_witness :
  MockSpec.pages_up_to 0 2 3 = ApiService.mockImages 0
  ∧ MockSpec.field (ApiService.getMockImageData 0 (Some 2) (Some 2))
      "hasMore" = JBool true
  ∧ MockSpec.field (ApiService.getMockImageData 0 (Some 3) (Some 2))
      "hasMore" = JBool false.
Proof.
  destruct (mock_pages_cover_all 0 2 ltac:(lia)) as (Hpage & _ & Hall & _).
  split; [exact Hall|].
  split; [exact (proj2 (proj2 (Hpage 2 ltac:(lia))))
         |exact (proj2 (proj2 (Hpage 3 ltac:(lia))))].
Defined.
